(** * intl-cli: the [update-translations] command

    A shallow embedding of [src/commands/update-translations.ts] (the
    flattener, the locale filter, the missing-key detector and the
    translation orchestrator) together with the properties its
    specification states about it.

    Conventions of the embedding.
    - A JavaScript object is the list of its own enumerable properties
      in the order in which they were created.  Two ways of writing a
      property are told apart: the definition of a data property
      ([Obj.define]: object spread, [Object.fromEntries]) and the
      assignment [obj[key] = val] ([Obj.put]), which on the name
      [__proto__] runs the setter inherited from [Object.prototype] and
      creates no property.  Reading through the prototype chain is
      modelled where the program does it, in [lodash.set].  The engine
      lists the properties whose names are array indices first, in
      ascending order; that reordering is outside the model.
    - Strings are byte strings, the UTF-8 form of the text.
    - Numbers never take part in arithmetic in this program; the
      numbers of the model are the integers that print as their decimal
      digits (below [10^21] in size, exactly representable).  Fractions
      and larger numbers are outside the model.
    - The file system is a tree of directories and files below the
      working directory, which is also the root; a file holds either a
      JSON object or something [readJson] cannot parse.
    - The chat-completion service is a function from the request to an
      optional answer ([None]: the call fails). *)

From Stdlib Require Import List String Ascii Bool Arith NArith ZArith Lia.
From Stdlib Require Import DecimalString.
From Stdlib Require DecimalFacts DecimalNat.
Import ListNotations.

Local Open Scope string_scope.
Local Open Scope list_scope.

Set Implicit Arguments.

(* ================================================================== *)
(** ** Strings *)

Module Str.

(** [s.split(c)] for a one-character separator. *)
Fixpoint split_char (c : ascii) (s : string) : list string :=
  match s with
  | EmptyString => [EmptyString]
  | String a s' =>
      if Ascii.eqb a c then EmptyString :: split_char c s'
      else match split_char c s' with
           | h :: t => String a h :: t
           | [] => [String a EmptyString]
           end
  end.

(** [parts.join(sep)]. *)
Fixpoint join_with (sep : string) (parts : list string) : string :=
  match parts with
  | [] => EmptyString
  | [p] => p
  | p :: rest => p ++ sep ++ join_with sep rest
  end.

(** [s.split(sep)] for a separator of any positive length: the
    separator is looked for from left to right, occurrences do not
    overlap.  [skip] counts the characters of a separator that are
    still to be jumped over, [cur] is the current piece. *)
Fixpoint split_go (sep : string) (skip : nat) (cur : string)
         (s : string) : list string :=
  match s with
  | EmptyString => [cur]
  | String a s' =>
      match skip with
      | S k => split_go sep k cur s'
      | O =>
          if String.prefix sep s
          then cur :: split_go sep (String.length sep - 1) EmptyString s'
          else split_go sep O (cur ++ String a EmptyString) s'
      end
  end.

Definition split (sep : string) (s : string) : list string :=
  split_go sep O EmptyString s.

(** The white space of [String.prototype.trim] in UTF-8: U+0009 to
    U+000D, U+0020, U+00A0, U+1680, U+2000 to U+200A, U+2028, U+2029,
    U+202F, U+205F, U+3000 and U+FEFF. *)
Definition white_space : list (list nat) :=
  [[9]; [10]; [11]; [12]; [13]; [32]; [194; 160]; [225; 154; 128];
   [226; 128; 128]; [226; 128; 129]; [226; 128; 130]; [226; 128; 131];
   [226; 128; 132]; [226; 128; 133]; [226; 128; 134]; [226; 128; 135];
   [226; 128; 136]; [226; 128; 137]; [226; 128; 138]; [226; 128; 168];
   [226; 128; 169]; [226; 128; 175]; [226; 129; 159]; [227; 128; 128];
   [239; 187; 191]].

Fixpoint starts_with (bytes : list nat) (s : list ascii) : bool :=
  match bytes, s with
  | [] , _ => true
  | b :: bytes', a :: s' => (nat_of_ascii a =? b)%nat && starts_with bytes' s'
  | _ :: _, [] => false
  end.

(** The number of bytes of the white-space character that [s] starts
    with, read forwards through [view]; [0] when it starts with none. *)
Definition space_ahead (view : list nat -> list nat) (s : list ascii) : nat :=
  match find (fun bytes => starts_with (view bytes) s) white_space with
  | Some bytes => List.length bytes
  | None => 0
  end.

(** The white space at the start of [s] removed; [skip] counts the
    bytes of a white-space character still to be dropped. *)
Fixpoint strip (view : list nat -> list nat) (skip : nat) (s : list ascii)
  : list ascii :=
  match s with
  | [] => []
  | _ :: s' =>
      match skip with
      | S k => strip view k s'
      | O =>
          match space_ahead view s with
          | S k => strip view k s'
          | O => s
          end
      end
  end.

Definition trim_start (s : string) : string :=
  string_of_list_ascii (strip (fun bytes => bytes) 0 (list_ascii_of_string s)).

Definition trim_end (s : string) : string :=
  string_of_list_ascii
    (rev (strip (@rev nat) 0 (rev (list_ascii_of_string s)))).

Definition trim (s : string) : string := trim_end (trim_start s).

Definition is_empty (s : string) : bool :=
  match s with EmptyString => true | _ => false end.

Fixpoint forallb (p : ascii -> bool) (s : string) : bool :=
  match s with
  | EmptyString => true
  | String a s' => p a && forallb p s'
  end.

Fixpoint ends_with (suffix s : string) : bool :=
  String.eqb suffix s ||
  match s with
  | EmptyString => false
  | String _ s' => ends_with suffix s'
  end.

Definition starts_with_dot (s : string) : bool :=
  match s with String "." _ => true | _ => false end.

(** Decimal notation of a natural number. *)
Definition of_nat (n : nat) : string :=
  NilEmpty.string_of_uint (Nat.to_uint n).

Definition of_Z (z : Z) : string :=
  NilEmpty.string_of_int (Z.to_int z).

End Str.

(* ================================================================== *)
(** ** JSON values and JavaScript records *)

(** [any]: what [JSON.parse] can produce. *)
Unset Elimination Schemes.
Inductive json : Type :=
| JNull
| JBool (b : bool)
| JNum (z : Z)
| JStr (s : string)
| JArr (items : list json)
| JObj (props : list (string * json)).
Set Elimination Schemes.

(** [Record<string, V>]: own properties in enumeration order. *)
Definition Record (V : Type) : Type := list (string * V).

Definition JSONContent : Type := Record json.
Definition FlatJson : Type := Record json.
Definition MissingTranslations : Type := Record (Record json).

Module Obj.
Section Ops.
Variable V : Type.

(** [obj[key]] ([None] is [undefined]). *)
Fixpoint get (obj : Record V) (key : string) : option V :=
  match obj with
  | [] => None
  | (k, v) :: rest => if String.eqb k key then Some v else get rest key
  end.

(** [key in obj], for own properties. *)
Definition has (obj : Record V) (key : string) : bool :=
  match get obj key with Some _ => true | None => false end.

(** The data property [key] is created, or its value replaced
    ([CreateDataProperty]). *)
Fixpoint define (obj : Record V) (key : string) (val : V) : Record V :=
  match obj with
  | [] => [(key, val)]
  | (k, v) :: rest =>
      if String.eqb k key then (k, val) :: rest
      else (k, v) :: define rest key val
  end.

(** [obj[key] = val] on an object that inherits from
    [Object.prototype].  Under the name [__proto__], unless the object
    has a property of its own with that name, the assignment runs the
    inherited setter: no property is created (the setter ignores a
    value that is neither an object nor [null], and replaces the
    prototype otherwise). *)
Definition put (obj : Record V) (key : string) (val : V) : Record V :=
  if String.eqb key "__proto__" && negb (has obj key) then obj
  else define obj key val.

(** [{...a, ...b}]. *)
Definition spread (a b : Record V) : Record V :=
  fold_left (fun acc kv => define acc (fst kv) (snd kv)) b a.

(** [Object.fromEntries(entries)]. *)
Definition fromEntries (entries : list (string * V)) : Record V :=
  spread [] entries.

(** [Object.keys(obj)]. *)
Definition keys (obj : Record V) : list string := map fst obj.
End Ops.
End Obj.

(** [typeof val === 'object' && val !== null]. *)
Definition isObject (val : json) : bool :=
  match val with
  | JArr _ | JObj _ => true
  | _ => false
  end.

Definition is_scalar (val : json) : bool := negb (isObject val).

(** [Object.entries] of an array: its elements under their indices. *)
Fixpoint indexed (i : nat) (items : list json) : list (string * json) :=
  match items with
  | [] => []
  | v :: rest => (Str.of_nat i, v) :: indexed (S i) rest
  end.

(** [Object.entries(val)] for a value that [isObject]. *)
Definition entries (val : json) : list (string * json) :=
  match val with
  | JObj props => props
  | JArr items => indexed 0 items
  | _ => []
  end.

(* ================================================================== *)
(** ** The flattener *)

(** [prefix ? `${prefix}.${key}` : key] *)
Definition newKey (prefix key : string) : string :=
  if Str.is_empty prefix then key else prefix ++ "." ++ key.

(** The body of the reducer of [flattenObject] with [newKey] already
    computed: [visit val newKey acc] is
    [{...acc, ...flattenObject(val, newKey)}] when [val] is an object
    and [acc] with [acc[newKey] = val] otherwise.  The two inner loops
    are the [reduce] over the entries of an object and of an array. *)
Fixpoint visit (val : json) (nk : string) (acc : FlatJson) {struct val}
  : FlatJson :=
  match val with
  | JObj props =>
      Obj.spread acc
        ((fix reduce (es : list (string * json)) (a : FlatJson) : FlatJson :=
            match es with
            | [] => a
            | (key, v) :: rest => reduce rest (visit v (newKey nk key) a)
            end) props [])
  | JArr items =>
      Obj.spread acc
        ((fix reduce (i : nat) (vs : list json) (a : FlatJson) : FlatJson :=
            match vs with
            | [] => a
            | v :: rest =>
                reduce (S i) rest (visit v (newKey nk (Str.of_nat i)) a)
            end) 0 items [])
  | _ => Obj.put acc nk val
  end.

(** The reducer itself: [(acc, [key, val]) => ...]. *)
Definition reducer (prefix : string) (acc : FlatJson) (kv : string * json)
  : FlatJson :=
  visit (snd kv) (newKey prefix (fst kv)) acc.

(** [flattenObject(obj, prefix)] *)
Definition flattenObject (obj : JSONContent) (prefix : string) : FlatJson :=
  fold_left (reducer prefix) obj [].

(* ================================================================== *)
(** ** [lodash.set]

    [set] is imported from the package [lodash.set]; this is its
    behaviour on an object and a string path, as far as it shows in the
    JSON text of the result.
    - A path is cut at its dots.  The bracket notation of paths
      ([a[0]], [a["b"]]) is not modelled: the model is exact for paths
      made of names without brackets, none of them empty, separated by
      single dots.
    - [nested[key]] is read through the prototype chain.  When the walk
      finds, under a key that is not the last one, a property that the
      object inherits from [Object.prototype], it stores that built-in
      object under the key and goes on writing inside it.  A function is
      no JSON value and [JSON.stringify] leaves such a property out, so
      the object walked is left as it is.  What the program does after
      a write inside [Object.prototype] itself (a path through
      [__proto__]), or after the prototype of an object has been
      replaced (an object or [null] assigned under [__proto__]), is
      outside the model.
    - A property written on an array under a name that is not an index
      is invisible to [JSON.stringify] and is left out; writing the
      [length] of an array is outside the model. *)

Module Lodash.

Definition is_decimal (a : ascii) : bool :=
  let n := nat_of_ascii a in (48 <=? n)%nat && (n <=? 57)%nat.

Definition digit_value (a : ascii) : N := N.of_nat (nat_of_ascii a - 48).

Fixpoint decimal (acc : N) (s : string) : N :=
  match s with
  | EmptyString => acc
  | String a s' => decimal (10 * acc + digit_value a)%N s'
  end.

(** The number written by [s] when [s] is a decimal numeral without
    a leading zero (the test of lodash's [reIsUint]). *)
Definition number (s : string) : option N :=
  match s with
  | EmptyString => None
  | String "0" EmptyString => Some 0%N
  | String "0" _ => None
  | _ => if Str.forallb is_decimal s then Some (decimal 0 s) else None
  end.

(** [isIndex(value)]: below [Number.MAX_SAFE_INTEGER]. *)
Definition isIndex (s : string) : bool :=
  match number s with
  | Some n => (n <? 9007199254740991)%N
  | None => false
  end.

(** An index of an array element: below [2^32 - 1]. *)
Definition arrayIndex (s : string) : option nat :=
  match number s with
  | Some n => if (n <? 4294967295)%N then Some (N.to_nat n) else None
  | None => None
  end.

Definition has_dot (s : string) : bool :=
  negb (Str.forallb (fun a => negb (Ascii.eqb a ".")) s).

(** [isKey(path, object) ? [path] : stringToPath(path)] *)
Definition castPath (object : JSONContent) (path : string) : list string :=
  if negb (has_dot path) || Obj.has object path then [path]
  else Str.split_char "." path.

(** [items[i] = val]; the elements skipped are holes, which
    [JSON.stringify] writes as [null]. *)
Fixpoint store (items : list json) (i : nat) (val : json) : list json :=
  match i, items with
  | O, [] => [val]
  | O, _ :: rest => val :: rest
  | S i', [] => JNull :: store [] i' val
  | S i', x :: rest => x :: store rest i' val
  end.

(** The names of the properties of [Object.prototype]. *)
Definition objectPrototype : list string :=
  ["constructor"; "__defineGetter__"; "__defineSetter__"; "hasOwnProperty";
   "__lookupGetter__"; "__lookupSetter__"; "isPrototypeOf";
   "propertyIsEnumerable"; "toString"; "valueOf"; "__proto__";
   "toLocaleString"].

Definition inherited (key : string) : bool :=
  existsb (String.eqb key) objectPrototype.

(** What [nested[key]] finds: an own property, a property inherited
    from [Object.prototype] (a built-in function or, for [__proto__],
    the prototype itself), or nothing. *)
Inductive property : Type :=
| Own (objValue : json)
| Inherited
| Absent.

(** [nested[key]] *)
Definition prop (nested : json) (key : string) : property :=
  match nested with
  | JObj props =>
      match Obj.get props key with
      | Some objValue => Own objValue
      | None => if inherited key then Inherited else Absent
      end
  | JArr items =>
      match arrayIndex key with
      | Some i =>
          match nth_error items i with
          | Some objValue => Own objValue
          | None => Absent
          end
      | None => Absent
      end
  | _ => Absent
  end.

(** [assignValue(nested, key, val)] *)
Definition assignValue (nested : json) (key : string) (val : json) : json :=
  match nested with
  | JObj props => JObj (Obj.put props key val)
  | JArr items =>
      match arrayIndex key with
      | Some i => JArr (store items i val)
      | None => JArr items
      end
  | other => other
  end.

(** [isIndex(path[index + 1]) ? [] : {}] *)
Definition fresh (next : string) : json :=
  if isIndex next then JArr [] else JObj [].

(** The loop of [baseSet]: at every key but the last the value
    stored is the container found there, or a fresh array or object
    according to the next key, in which the walk goes on. *)
Fixpoint baseSet (nested : json) (path : list string) (value : json)
  : json :=
  match path with
  | [] => nested
  | key :: rest =>
      match rest with
      | [] => assignValue nested key value
      | next :: _ =>
          match prop nested key with
          | Own objValue =>
              assignValue nested key
                (baseSet (if isObject objValue then objValue else fresh next)
                         rest value)
          | Absent => assignValue nested key (baseSet (fresh next) rest value)
          | Inherited => nested
          end
      end
  end.

(** [set(object, path, value)] *)
Definition set (object : JSONContent) (path : string) (value : json)
  : JSONContent :=
  match baseSet (JObj object) (castPath object path) value with
  | JObj props => props
  | _ => object
  end.

End Lodash.

(** [unflattenObject(flat)] *)
Definition unflattenObject (flat : FlatJson) : JSONContent :=
  fold_left (fun acc kv => Lodash.set acc (fst kv) (snd kv)) flat [].

(* ================================================================== *)
(** ** Induction over JSON values *)

Section JsonInd.
Variable P : json -> Prop.
Hypothesis Hnull : P JNull.
Hypothesis Hbool : forall b, P (JBool b).
Hypothesis Hnum : forall z, P (JNum z).
Hypothesis Hstr : forall s, P (JStr s).
Hypothesis Harr : forall items, Forall P items -> P (JArr items).
Hypothesis Hobj :
  forall props, Forall (fun kv => P (snd kv)) props -> P (JObj props).

Fixpoint json_ind (v : json) : P v :=
  match v with
  | JNull => Hnull
  | JBool b => Hbool b
  | JNum z => Hnum z
  | JStr s => Hstr s
  | JArr items =>
      Harr ((fix all (l : list json) : Forall P l :=
               match l with
               | [] => Forall_nil _
               | x :: l' => Forall_cons x (json_ind x) (all l')
               end) items)
  | JObj props =>
      Hobj ((fix all (l : list (string * json))
               : Forall (fun kv => P (snd kv)) l :=
               match l with
               | [] => Forall_nil _
               | kv :: l' => Forall_cons kv (json_ind (snd kv)) (all l')
               end) props)
  end.
End JsonInd.


(* ================================================================== *)
(** ** Vocabulary of the statements about the flattener *)

(** Every value of a flat map is a scalar. *)
Definition scalars (flat : FlatJson) : Prop :=
  Forall (fun kv => is_scalar (snd kv) = true) flat.

Fixpoint distinct (l : list string) : bool :=
  match l with
  | [] => true
  | x :: rest => negb (existsb (String.eqb x) rest) && distinct rest
  end.

Definition is_nil {A : Type} (l : list A) : bool :=
  match l with [] => true | _ => false end.

(** A key that is its own path: not empty, and free of the characters
    that [lodash.set] reads as path syntax. *)
Definition path_char (a : ascii) : bool :=
  Ascii.eqb a "." || Ascii.eqb a "[" || Ascii.eqb a "]".

Definition plain_key (k : string) : bool :=
  negb (Str.is_empty k) && Str.forallb (fun a => negb (path_char a)) k.

(** A key that is found again as an own property: not [__proto__],
    which an assignment never creates, and, when its value is an object,
    not the name of a property inherited from [Object.prototype], which
    [lodash.set] would enter instead of a fresh object. *)
Definition own_key (key : string) (val : json) : bool :=
  negb (String.eqb key "__proto__")
  && negb (isObject val && Lodash.inherited key).

(** Documents on which flattening loses nothing: no array, keys that
    are plain, distinct within their object and found again as own
    properties; below the top level ([nested]), no empty object and no
    key that is an array index. *)
Fixpoint well_formed (nested : bool) (v : json) : bool :=
  match v with
  | JObj props =>
      (if nested then negb (is_nil props) else true)
      && distinct (map fst props)
      && forallb (fun kv =>
                    plain_key (fst kv)
                    && own_key (fst kv) (snd kv)
                    && (if nested then negb (Lodash.isIndex (fst kv)) else true)
                    && well_formed true (snd kv)) props
  | JArr _ => false
  | _ => true
  end.

Definition wf_doc (doc : JSONContent) : bool := well_formed false (JObj doc).

(** The hypotheses the specification names: no array anywhere, no key
    with a dot. *)
Fixpoint no_arrays (v : json) : bool :=
  match v with
  | JObj props => forallb (fun kv => no_arrays (snd kv)) props
  | JArr _ => false
  | _ => true
  end.

Fixpoint no_dotted_keys (v : json) : bool :=
  match v with
  | JObj props =>
      forallb (fun kv => negb (Lodash.has_dot (fst kv))
                         && no_dotted_keys (snd kv)) props
  | JArr items => forallb no_dotted_keys items
  | _ => true
  end.

(** Equality of documents up to the order of the keys. *)
Unset Elimination Schemes.
Inductive same_option (R : json -> json -> Prop)
  : option json -> option json -> Prop :=
| same_none : same_option R None None
| same_some x y : R x y -> same_option R (Some x) (Some y).

Inductive same_json : json -> json -> Prop :=
| same_null : same_json JNull JNull
| same_bool b : same_json (JBool b) (JBool b)
| same_num z : same_json (JNum z) (JNum z)
| same_str s : same_json (JStr s) (JStr s)
| same_arr xs ys : Forall2 same_json xs ys -> same_json (JArr xs) (JArr ys)
| same_obj ps qs :
    (forall key, same_option same_json (Obj.get ps key) (Obj.get qs key)) ->
    same_json (JObj ps) (JObj qs).
Set Elimination Schemes.

(** The leaves of a value with the list of keys that leads to each. *)
Fixpoint paths (v : json) : list (list string * json) :=
  match v with
  | JObj props =>
      flat_map (fun kv => map (fun pv => (fst kv :: fst pv, snd pv))
                              (paths (snd kv))) props
  | JArr _ => []
  | _ => [([], v)]
  end.

(** [lodash.set] along a path already cut into keys, and a sequence of
    such writes. *)
Definition build (start : json) (l : list (list string * json)) : json :=
  fold_left (fun acc pv => Lodash.baseSet acc (fst pv) (snd pv)) l start.

Definition dotted (p : list string) : string := Str.join_with "." p.

Definition plain_path (p : list string) : Prop :=
  Forall (fun k => plain_key k = true) p.

(** A path along which [lodash.set] meets own properties only: no key
    but the last is the name of an inherited property, and the last is
    not [__proto__]. *)
Fixpoint own_path (p : list string) : bool :=
  match p with
  | [] => true
  | key :: rest =>
      match rest with
      | [] => negb (String.eqb key "__proto__")
      | _ :: _ => negb (Lodash.inherited key) && own_path rest
      end
  end.

Definition at_key (k : string) (pv : list string * json)
  : list string * json :=
  (k :: fst pv, snd pv).

Definition keyed (pre : list string) (pv : list string * json)
  : string * json :=
  (dotted (pre ++ fst pv), snd pv).

(* ================================================================== *)
(** ** Regular expressions

    The fragment of JavaScript regular expressions that [isLocale]
    uses: character classes, sequence, alternative, [?] and bounded
    repetition.  [exec] is the backtracking matcher, started at a given
    position with the rest of the pattern as a continuation. *)

Module Regex.

Inductive regex : Type :=
| Class (p : ascii -> bool)
| Cat (r1 r2 : regex)
| Alt (r1 r2 : regex)
| Opt (r : regex)
| Rep (r : regex) (lo hi : nat).

Fixpoint exec (r : regex) (s : list ascii) (k : list ascii -> bool)
  {struct r} : bool :=
  match r with
  | Class p =>
      match s with
      | c :: s' => p c && k s'
      | [] => false
      end
  | Cat r1 r2 => exec r1 s (fun s' => exec r2 s' k)
  | Alt r1 r2 => exec r1 s k || exec r2 s k
  | Opt r1 => exec r1 s k || k s
  | Rep r1 lo hi =>
      (fix rep (lo hi : nat) (s : list ascii) {struct hi} : bool :=
         match hi with
         | O => (lo =? 0)%nat && k s
         | S hi' =>
             exec r1 s (fun s' => rep (Nat.pred lo) hi' s')
             || ((lo =? 0)%nat && k s)
         end) lo hi s
  end.

(** [/^r$/.test(s)] *)
Definition test (r : regex) (s : string) : bool :=
  exec r (list_ascii_of_string s) (fun rest => is_nil rest).

(** The language of a pattern. *)
Fixpoint power (M : list ascii -> Prop) (n : nat) (s : list ascii) : Prop :=
  match n with
  | O => s = []
  | S n' => exists s1 s2, s = s1 ++ s2 /\ M s1 /\ power M n' s2
  end.

Fixpoint lang (r : regex) (s : list ascii) : Prop :=
  match r with
  | Class p => exists c, s = [c] /\ p c = true
  | Cat r1 r2 => exists s1 s2, s = s1 ++ s2 /\ lang r1 s1 /\ lang r2 s2
  | Alt r1 r2 => lang r1 s \/ lang r2 s
  | Opt r1 => s = [] \/ lang r1 s
  | Rep r1 lo hi => exists n, lo <= n <= hi /\ power (lang r1) n s
  end.

End Regex.

(* ================================================================== *)
(** ** Locale names *)

Definition between (lo hi : nat) (a : ascii) : bool :=
  let n := nat_of_ascii a in (lo <=? n)%nat && (n <=? hi)%nat.

(** [[A-Za-z]] *)
Definition is_letter (a : ascii) : bool := between 65 90 a || between 97 122 a.

(** [[0-9]] *)
Definition is_digit (a : ascii) : bool := between 48 57 a.

(** [[_-]] *)
Definition is_separator (a : ascii) : bool :=
  Ascii.eqb a "_" || Ascii.eqb a "-".

Definition is_hyphen (a : ascii) : bool := Ascii.eqb a "-".

(** The shape [language(sep script)?(sep region)?] for a given class
    of separators. *)
Definition tagPattern (sep : ascii -> bool) : Regex.regex :=
  Regex.Cat (Regex.Rep (Regex.Class is_letter) 2 4)
    (Regex.Cat
       (Regex.Opt (Regex.Cat (Regex.Class sep)
                             (Regex.Rep (Regex.Class is_letter) 4 4)))
       (Regex.Opt (Regex.Cat (Regex.Class sep)
                             (Regex.Alt (Regex.Rep (Regex.Class is_letter) 2 2)
                                        (Regex.Rep (Regex.Class is_digit) 3 3))))).

(** [/^[A-Za-z]{2,4}([_-][A-Za-z]{4})?([_-]([A-Za-z]{2}|[0-9]{3}))?$/] *)
Definition localePattern : Regex.regex :=
  Regex.Cat (Regex.Rep (Regex.Class is_letter) 2 4)
    (Regex.Cat
       (Regex.Opt (Regex.Cat (Regex.Class is_separator)
                             (Regex.Rep (Regex.Class is_letter) 4 4)))
       (Regex.Opt (Regex.Cat (Regex.Class is_separator)
                             (Regex.Alt (Regex.Rep (Regex.Class is_letter) 2 2)
                                        (Regex.Rep (Regex.Class is_digit) 3 3))))).

(** [isLocale(name)], as a truth value. *)
Definition isLocale (name : string) : bool := Regex.test localePattern name.

(** The grammar in words: a language of 2 to 4 letters, then
    optionally a separator and a script of 4 letters, then optionally a
    separator and a region of 2 letters or 3 digits. *)
Definition letters (s : list ascii) : Prop :=
  Forall (fun c => is_letter c = true) s.

Definition digits (s : list ascii) : Prop :=
  Forall (fun c => is_digit c = true) s.

Definition LocaleName (sep : ascii -> bool) (name : list ascii) : Prop :=
  exists language script region,
    name = language ++ script ++ region
    /\ (2 <= List.length language <= 4 /\ letters language)
    /\ (script = [] \/
        exists c w, script = c :: w /\ sep c = true
                    /\ List.length w = 4 /\ letters w)
    /\ (region = [] \/
        exists c w, region = c :: w /\ sep c = true
                    /\ ((List.length w = 2 /\ letters w)
                        \/ (List.length w = 3 /\ digits w))).

(** The grammar of the specification, [language[-script][-region]]:
    the separator is the hyphen. *)
Definition LocaleTag (name : string) : Prop :=
  LocaleName is_hyphen (list_ascii_of_string name).

(* ================================================================== *)
(** ** Paths ([path]) *)

(** A path is the list of its segments from the root of the tree; the
    strings of the source are these segments joined by [/].  Every
    path is resolved against the root, at which [..] stays. *)
Definition path : Type := list string.

Module Path.

(** One segment on a reversed path. *)
Definition push (stack : list string) (seg : string) : list string :=
  if String.eqb seg "" || String.eqb seg "." then stack
  else if String.eqb seg ".." then tl stack
  else seg :: stack.

(** [path.join(base, ...parts)]: the parts are cut at [/] and the
    result is normalised. *)
Definition join (base : path) (parts : list string) : path :=
  rev (fold_left push (flat_map (Str.split_char "/") parts) (rev base)).

(** [path.dirname(p)] *)
Definition dirname (p : path) : path := removelast p.

(** [path.relative(from, to)], as a string. *)
Fixpoint relative_segments (from to : path) : path :=
  match from, to with
  | a :: from', b :: to' =>
      if String.eqb a b then relative_segments from' to'
      else map (fun _ => "..") from ++ to
  | [], _ => to
  | _, [] => map (fun _ => "..") from
  end.

Definition relative (from to : path) : string :=
  Str.join_with "/" (relative_segments from to).

(** The characters that [fast-glob] reads as pattern syntax, the
    backslash and the double quote first. *)
Definition glob_char (a : ascii) : bool :=
  existsb (Ascii.eqb a)
          (ascii_of_nat 92 :: ascii_of_nat 34
           :: ["*"; "?"; "["; "]"; "{"; "}"; "("; ")"; "!"; "+"; "@"; "|"]%char).

(** A path that is a pattern for itself only. *)
Definition literal (p : path) : bool :=
  forallb (Str.forallb (fun a => negb (glob_char a))) p.

End Path.

(* ================================================================== *)
(** ** The file system ([fs-extra], [fast-glob]) *)

(** A file holds a JSON object ([JSONContent]) or, with [None],
    something [readJson] throws on. *)
Unset Elimination Schemes.
Inductive node : Type :=
| File (content : option JSONContent)
| Dir (children : list (string * node)).
Set Elimination Schemes.

Module FS.

Fixpoint lookup (n : node) (p : path) : option node :=
  match p with
  | [] => Some n
  | name :: rest =>
      match n with
      | Dir children =>
          match Obj.get children name with
          | Some child => lookup child rest
          | None => None
          end
      | File _ => None
      end
  end.

(** [fs.pathExists(p)] *)
Definition pathExists (n : node) (p : path) : bool :=
  match lookup n p with Some _ => true | None => false end.

(** [fs.readJson(p)]; [None] when it throws. *)
Definition readJson (n : node) (p : path) : option JSONContent :=
  match lookup n p with
  | Some (File (Some doc)) => Some doc
  | _ => None
  end.

(** [fs.readdir(p)]: the names of the entries of a directory, files
    and directories alike; [None] when it throws. *)
Definition readdir (n : node) (p : path) : option (list string) :=
  match lookup n p with
  | Some (Dir children) => Some (Obj.keys children)
  | _ => None
  end.

(** [fs.ensureDir(p)]: the directory and its missing ancestors are
    created; [None] when a file is in the way. *)
Fixpoint ensureDir (n : node) (p : path) : option node :=
  match p with
  | [] => match n with Dir _ => Some n | File _ => None end
  | name :: rest =>
      match n with
      | Dir children =>
          let child :=
            match Obj.get children name with
            | Some c => c
            | None => Dir []
            end in
          match ensureDir child rest with
          | Some child' => Some (Dir (Obj.define children name child'))
          | None => None
          end
      | File _ => None
      end
  end.

(** [fs.writeJson(p, doc)]: the parent must be a directory and [p]
    must not be one; [None] when it throws. *)
Fixpoint writeJson (n : node) (p : path) (doc : JSONContent) : option node :=
  match p with
  | [] => None
  | name :: rest =>
      match n with
      | Dir children =>
          match rest with
          | [] =>
              match Obj.get children name with
              | Some (Dir _) => None
              | _ => Some (Dir (Obj.define children name (File (Some doc))))
              end
          | _ :: _ =>
              match Obj.get children name with
              | Some child =>
                  match writeJson child rest doc with
                  | Some child' => Some (Dir (Obj.define children name child'))
                  | None => None
                  end
              | None => None
              end
          end
      | File _ => None
      end
  end.

(** What the pattern [**/*.json] finds below a directory, as paths
    relative to it: the files whose name ends in [.json], entries whose
    name starts with a dot left aside (the default of [fast-glob]). *)
Definition json_name (name : string) : bool :=
  Str.ends_with ".json" name && negb (Str.starts_with_dot name).

Fixpoint walk (n : node) : list path :=
  match n with
  | File _ => []
  | Dir children =>
      (fix each (cs : list (string * node)) : list path :=
         match cs with
         | [] => []
         | (name, child) :: rest =>
             match child with
             | File _ => if json_name name then [[name]] else []
             | Dir _ =>
                 if Str.starts_with_dot name then []
                 else map (cons name) (walk child)
             end ++ each rest
         end) children
  end.

(** What the operating system finds at a path: an entry, nothing
    ([ENOENT]), or a file where a directory has to be ([ENOTDIR]). *)
Inductive found : Type :=
| Entry (n : node)
| NoEntry
| NotDirectory.

Fixpoint stat (n : node) (p : path) : found :=
  match p with
  | [] => Entry n
  | name :: rest =>
      match n with
      | Dir children =>
          match Obj.get children name with
          | Some child => stat child rest
          | None => NoEntry
          end
      | File _ => NotDirectory
      end
  end.

(** The [.json] files below a folder.  A folder that does not exist
    has none; [None] when the folder or one of its ancestors is a file,
    which [fast-glob] reports as an error. *)
Definition below (n : node) (folder : path) : option (list path) :=
  match stat n folder with
  | Entry (Dir children) => Some (map (app folder) (walk (Dir children)))
  | NoEntry => Some []
  | Entry (File _) | NotDirectory => None
  end.

(** A pattern that starts with [!], not followed by [(], excludes
    instead of selecting. *)
Definition negative (folder : path) : bool :=
  match folder with
  | String "!" (String "(" _) :: _ => false
  | String "!" _ :: _ => true
  | _ => false
  end.

(** [fg.glob(`${folder}/**/*.json`)]: the folder is part of the
    pattern.  When it starts with [!] the pattern is an exclusion and
    nothing is selected; otherwise the files below the folder are
    found, provided that the folder is a pattern for itself only
    ([Path.literal]): the other pattern syntax is not modelled. *)
Definition glob (n : node) (folder : path) : option (list path) :=
  if negative folder then Some [] else below n folder.

(** The entry that the operating system reaches from a path as the
    user wrote it: the segments are followed one by one, [.] and [..]
    are followed in directories only, and the empty path leads
    nowhere.  [up] holds the directories passed, the nearest first. *)
Fixpoint follow (up : list node) (cur : node) (segs : list string)
  : option node :=
  match segs with
  | [] => Some cur
  | seg :: rest =>
      if String.eqb seg "" then follow up cur rest
      else
        match cur with
        | File _ => None
        | Dir children =>
            if String.eqb seg "." then follow up cur rest
            else if String.eqb seg ".." then
              match up with
              | [] => follow [] cur rest
              | parent :: up' => follow up' parent rest
              end
            else
              match Obj.get children seg with
              | Some child => follow (cur :: up) child rest
              | None => None
              end
        end
  end.

Definition access (n : node) (p : string) : option node :=
  if Str.is_empty p then None else follow [] n (Str.split_char "/" p).

(** [fs.readdir(p)] for a path as the user wrote it. *)
Definition listDir (n : node) (p : string) : option (list string) :=
  match access n p with
  | Some (Dir children) => Some (Obj.keys children)
  | _ => None
  end.

End FS.

(* ================================================================== *)
(** ** Promises that may reject *)

(** [await Promise.all(xs.map(f))] for steps without effect: the
    values in order, or the rejection. *)
Fixpoint all {A B : Type} (f : A -> option B) (xs : list A)
  : option (list B) :=
  match xs with
  | [] => Some []
  | x :: rest =>
      match f x, all f rest with
      | Some y, Some ys => Some (y :: ys)
      | _, _ => None
      end
  end.

(* ================================================================== *)
(** ** The missing-key detector *)

(** [difference(array, values)] of [lodash.difference], on strings. *)
Definition difference (array values : list string) : list string :=
  filter (fun x => negb (existsb (String.eqb x) values)) array.

(** [refFlat[key]]; the keys looked up are keys of [refFlat]. *)
Definition valueAt (flat : FlatJson) (key : string) : json :=
  match Obj.get flat key with
  | Some v => v
  | None => JNull
  end.

(** [`${relativePath}:::${key}`] *)
Definition missingKey (relativePath key : string) : string :=
  relativePath ++ ":::" ++ key.

(** The callback of [files.map] in [getMissingTranslationsForLocale]. *)
Definition missingInFile (disk : node) (referenceFolder localeFolder : path)
           (refFilePath : path) : option (list (string * json)) :=
  let relativePath := Path.relative referenceFolder refFilePath in
  match FS.readJson disk refFilePath with
  | None => None
  | Some refJson =>
      let refFlat := flattenObject refJson "" in
      let targetFilePath := Path.join localeFolder [relativePath] in
      let exists_ := FS.pathExists disk targetFilePath in
      match (if exists_ then FS.readJson disk targetFilePath else Some []) with
      | None => None
      | Some targetJson =>
          let targetFlat := flattenObject targetJson "" in
          let missingKeys :=
            difference (Obj.keys refFlat) (Obj.keys targetFlat) in
          Some (map (fun key => (missingKey relativePath key,
                                 valueAt refFlat key)) missingKeys)
      end
  end.

Definition getMissingTranslationsForLocale
           (disk : node) (referenceFolder localeFolder : path)
  : option (Record json) :=
  match FS.glob disk referenceFolder with
  | None => None
  | Some files =>
      match all (missingInFile disk referenceFolder localeFolder) files with
      | None => None
      | Some entryGroups => Some (Obj.fromEntries (List.concat entryGroups))
      end
  end.

(** The first two lines of [getAllMissingTranslations]. *)
Definition discoverLocales (disk : node) (folderPath : string)
  : option (list string) :=
  match FS.listDir disk folderPath with
  | None => None
  | Some dirEntries => Some (filter isLocale dirEntries)
  end.

(** The callback of [locales.map]: [None] for the reference locale,
    which is skipped. *)
Definition missingOfLocale (disk : node) (folderPath referenceLocale : string)
           (referenceFolder : path) (locale : string)
  : option (option (string * Record json)) :=
  if String.eqb locale referenceLocale then Some None
  else
    let localePath := Path.join [] [folderPath; locale] in
    match getMissingTranslationsForLocale disk referenceFolder localePath with
    | None => None
    | Some missing => Some (Some (locale, missing))
    end.

Fixpoint present {A : Type} (l : list (option A)) : list A :=
  match l with
  | [] => []
  | Some x :: rest => x :: present rest
  | None :: rest => present rest
  end.

(** [result[locale] = missing], for the detections in the order in
    which they are done. *)
Definition assigned (results : list (string * Record json))
  : MissingTranslations :=
  fold_left (fun result done => Obj.put result (fst done) (snd done))
            results [].

(** [referenceFlat], which the source computes and never uses, only
    matters through the reads it makes.  The detections of the locales
    run side by side and each one adds its entry to [result] when it
    is done; the schedule followed here is the one in which they are
    done in the order of [readdir]. *)
Definition getAllMissingTranslations
           (disk : node) (folderPath referenceLocale : string)
  : option MissingTranslations :=
  match discoverLocales disk folderPath with
  | None => None
  | Some locales =>
      let referenceFolder := Path.join [] [folderPath; referenceLocale] in
      match FS.glob disk referenceFolder with
      | None => None
      | Some referenceFiles =>
          match all (FS.readJson disk) referenceFiles with
          | None => None
          | Some _ =>
              match all (missingOfLocale disk folderPath referenceLocale
                                         referenceFolder) locales with
              | None => None
              | Some results => Some (assigned (present results))
              end
          end
      end
  end.

(* ================================================================== *)
(** ** The translation capability *)

(** The chat-completion call, seen from [translateWithGPT]: from the
    target locale and the formatted entries (the two variable parts of
    the prompt) to the content of the first choice, or [None] when the
    call fails.  An answer without content is the empty string. *)
Definition Capability : Type := string -> string -> option string.

(** [`${value}`].  The values formatted by the program are leaves of
    flat maps, hence scalars; an array prints its elements separated
    by commas, [null] among them as the empty text. *)
Fixpoint toString (v : json) : string :=
  match v with
  | JNull => "null"
  | JBool true => "true"
  | JBool false => "false"
  | JNum z => Str.of_Z z
  | JStr s => s
  | JArr items =>
      Str.join_with ","
        (map (fun item => match item with
                          | JNull => EmptyString
                          | _ => toString item
                          end) items)
  | JObj _ => "[object Object]"
  end.

Definition newline : string := String (ascii_of_nat 10) EmptyString.

(** [Object.entries(sourceTexts).map(...).join('\n')] *)
Definition formatEntries (sourceTexts : Record json) : string :=
  Str.join_with newline
    (map (fun kv => (fst kv ++ ": " ++ toString (snd kv))%string) sourceTexts).

(** The callback of [response.split('\n').forEach]. *)
Definition parseLine (result : Record string) (line : string)
  : Record string :=
  match Str.split_char ":" line with
  | key :: valParts =>
      if negb (Str.is_empty key) && negb (is_nil valParts)
      then Obj.put result (Str.trim key) (Str.trim (Str.join_with ":" valParts))
      else result
  | [] => result
  end.

Definition parseResponse (response : string) : Record string :=
  fold_left parseLine (Str.split_char (ascii_of_nat 10) response) [].

(** [translateWithGPT(sourceTexts, targetLocale)] *)
Definition translateWithGPT (gpt : Capability)
           (sourceTexts : Record json) (targetLocale : string)
  : option (Record string) :=
  match gpt targetLocale (formatEntries sourceTexts) with
  | None => None
  | Some response => Some (parseResponse response)
  end.

(* ================================================================== *)
(** ** The orchestrator *)

(** What [console.log] is given. *)
Inductive message : Type :=
| NothingToTranslate (locale : string)
| DryRunHeader (locale : string)
| DryRunKeys (entries : Record json)
| Translating (total : nat) (locale : string)
| Updated (locale : string) (total : nat).

(** The world the command acts on: the files, the console, and the
    requests sent to the capability. *)
Record world : Type := {
  disk : node;
  console : list message;
  requests : list (string * string)
}.

Definition log (w : world) (m : message) : world :=
  {| disk := disk w; console := console w ++ [m]; requests := requests w |}.

Definition request (w : world) (locale formatted : string) : world :=
  {| disk := disk w; console := console w;
     requests := requests w ++ [(locale, formatted)] |}.

Definition with_disk (w : world) (d : node) : world :=
  {| disk := d; console := console w; requests := requests w |}.

Inductive outcome : Type := Fulfilled | Rejected.

(** The name of the property [flat[jsonKey]]: a missing [jsonKey] is
    [undefined], whose property name is ["undefined"]. *)
Definition propertyKey (jsonKey : option string) : string :=
  match jsonKey with
  | Some key => key
  | None => "undefined"
  end.

(** [path.join(folderPath, locale, relativePath)]: the file a write
    callback addresses. *)
Definition targetOf (folderPath locale fullKey : string) : path :=
  Path.join [] [folderPath; locale; hd "" (Str.split ":::" fullKey)].

(** [unflattenObject(flat)] after [flat[jsonKey] = translatedValue] on
    the flat map of [json]: the document a write callback stores, from
    the one it read. *)
Definition mergedInto (json : JSONContent) (fullKey translatedValue : string)
  : JSONContent :=
  unflattenObject
    (Obj.put (flattenObject json "")
             (propertyKey (nth_error (Str.split ":::" fullKey) 1))
             (JStr translatedValue)).

(** The callback of [Object.entries(translated).map] between two of
    its [await]s: the call it waits for.
    - [Checking]: [fs.pathExists(targetPath)];
    - [Reading]: [fs.readJson(targetPath)];
    - [Ensuring]: [fs.ensureDir(path.dirname(targetPath))], the document
      to store being computed;
    - [Storing]: [fs.writeJson(targetPath, updated)]. *)
Inductive callback : Type :=
| Checking (fullKey translatedValue : string)
| Reading (fullKey translatedValue : string)
| Ensuring (fullKey : string) (updated : JSONContent)
| Storing (fullKey : string) (updated : JSONContent).

Inductive progress : Type :=
| Next (c : callback)
| Done (o : outcome).

(** The call that a callback waits for is made, on the disk as it is
    then, and the callback goes on to its next [await] or to its end.
    Each call is one step; [fs.writeJson] in particular replaces the
    content at once (two writes of one file that overlap in time can
    leave a mix of both texts on a real disk). *)
Definition advance (d : node) (folderPath locale : string) (c : callback)
  : node * progress :=
  match c with
  | Checking fullKey translatedValue =>
      if FS.pathExists d (targetOf folderPath locale fullKey)
      then (d, Next (Reading fullKey translatedValue))
      else (d, Next (Ensuring fullKey (mergedInto [] fullKey translatedValue)))
  | Reading fullKey translatedValue =>
      match FS.readJson d (targetOf folderPath locale fullKey) with
      | None => (d, Done Rejected)
      | Some json =>
          (d, Next (Ensuring fullKey (mergedInto json fullKey translatedValue)))
      end
  | Ensuring fullKey updated =>
      match FS.ensureDir d (Path.dirname (targetOf folderPath locale fullKey))
      with
      | None => (d, Done Rejected)
      | Some d1 => (d1, Next (Storing fullKey updated))
      end
  | Storing fullKey updated =>
      match FS.writeJson d (targetOf folderPath locale fullKey) updated with
      | None => (d, Done Rejected)
      | Some d2 => (d2, Done Fulfilled)
      end
  end.

(** A callback run from where it is to its end, nothing else running
    in between. *)
Definition storing (d : node) (folderPath locale fullKey : string)
           (updated : JSONContent) : node * outcome :=
  match FS.writeJson d (targetOf folderPath locale fullKey) updated with
  | None => (d, Rejected)
  | Some d2 => (d2, Fulfilled)
  end.

Definition ensuring (d : node) (folderPath locale fullKey : string)
           (updated : JSONContent) : node * outcome :=
  match FS.ensureDir d (Path.dirname (targetOf folderPath locale fullKey)) with
  | None => (d, Rejected)
  | Some d1 => storing d1 folderPath locale fullKey updated
  end.

Definition reading (d : node) (folderPath locale : string)
           (fullKey translatedValue : string) : node * outcome :=
  match FS.readJson d (targetOf folderPath locale fullKey) with
  | None => (d, Rejected)
  | Some json =>
      ensuring d folderPath locale fullKey
               (mergedInto json fullKey translatedValue)
  end.

Definition complete (d : node) (folderPath locale : string) (c : callback)
  : node * outcome :=
  match c with
  | Checking fullKey translatedValue =>
      if FS.pathExists d (targetOf folderPath locale fullKey)
      then reading d folderPath locale fullKey translatedValue
      else ensuring d folderPath locale fullKey
                    (mergedInto [] fullKey translatedValue)
  | Reading fullKey translatedValue =>
      reading d folderPath locale fullKey translatedValue
  | Ensuring fullKey updated => ensuring d folderPath locale fullKey updated
  | Storing fullKey updated => storing d folderPath locale fullKey updated
  end.

(** The callback of [Object.entries(translated).map], run without
    interruption: the disk afterwards and whether it went through. *)
Definition writeTranslation (d : node) (folderPath locale : string)
           (fullKey translatedValue : string) : node * outcome :=
  complete d folderPath locale (Checking fullKey translatedValue).

(** The pipeline of one locale between two of its [await]s.
    - [AwaitingTranslation]: [translateWithGPT(entries, locale)] is
      called, the request is sent and the answer awaited.
    - [Writing]: the answer is parsed and the write callbacks are
      started; [running] are those that have not come to their end,
      each one waiting at one of its [await]s, and [failed] tells
      whether one was rejected, which rejects the pipeline at once
      while the others still run. *)
Inductive pipeline : Type :=
| Settled (o : outcome)
| AwaitingTranslation (locale : string) (total : nat) (entries : Record json)
| Writing (locale : string) (total : nat)
          (running : list callback) (failed : bool).

(** The state of the promise of a pipeline. *)
Definition status (p : pipeline) : option outcome :=
  match p with
  | Settled o => Some o
  | Writing _ _ _ true => Some Rejected
  | _ => None
  end.

(** The state of [Promise.all(pipelines)]: rejected as soon as one is,
    fulfilled once all are. *)
Definition is_rejected (s : option outcome) : bool :=
  match s with Some Rejected => true | _ => false end.

Definition is_fulfilled (s : option outcome) : bool :=
  match s with Some Fulfilled => true | _ => false end.

Definition promise_all (ps : list pipeline) : option outcome :=
  if existsb (fun p => is_rejected (status p)) ps then Some Rejected
  else if forallb (fun p => is_fulfilled (status p)) ps then Some Fulfilled
  else None.

Section Orchestrator.

Variable gpt : Capability.
Variable folderPath : string.
Variable dryRun : bool.

(** The callback of [Object.entries(allMissing).map] up to its first
    [await]: it runs when the pipeline is launched. *)
Definition launch (w : world) (job : string * Record json)
  : world * pipeline :=
  let locale := fst job in
  let missing := snd job in
  let total := List.length (Obj.keys missing) in
  if (total =? 0)%nat then
    (log w (NothingToTranslate locale), Settled Fulfilled)
  else if dryRun then
    (log (log w (DryRunHeader locale)) (DryRunKeys missing),
     Settled Fulfilled)
  else
    (request (log w (Translating total locale)) locale
             (formatEntries missing),
     AwaitingTranslation locale total missing).

Fixpoint launchAll (w : world) (jobs : MissingTranslations)
  : world * list pipeline :=
  match jobs with
  | [] => (w, [])
  | job :: rest =>
      let (w1, p) := launch w job in
      let (w2, ps) := launchAll w1 rest in
      (w2, p :: ps)
  end.

(** The callbacks of the entries of an answer, as they are started.  *)
Definition started (translated : Record string) : list callback :=
  map (fun entry => Checking (fst entry) (snd entry)) translated.

(** One callback of a pipeline goes on from its [await]. *)
Definition proceed (w : world) (locale : string) (total : nat)
           (before after : list callback) (failed : bool)
           (c : callback) : world * pipeline :=
  let (d, p) := advance (disk w) folderPath locale c in
  (with_disk w d,
   match p with
   | Next c' => Writing locale total (before ++ c' :: after) failed
   | Done o =>
       Writing locale total (before ++ after) (failed || is_rejected (Some o))
   end).

(** A pipeline resumes: the answer of the capability arrives and the
    write callbacks are started, one of the running callbacks goes on
    from its [await], or, all of them done, the completion is
    reported. *)
Inductive resumes : world -> pipeline -> world -> pipeline -> Prop :=
| answer_fails w locale total entries :
    translateWithGPT gpt entries locale = None ->
    resumes w (AwaitingTranslation locale total entries)
            w (Settled Rejected)
| answer_arrives w locale total entries translated :
    translateWithGPT gpt entries locale = Some translated ->
    resumes w (AwaitingTranslation locale total entries)
            w (Writing locale total (started translated) false)
| callback_resumes w locale total before c after failed :
    resumes w (Writing locale total (before ++ c :: after) failed)
            (fst (proceed w locale total before after failed c))
            (snd (proceed w locale total before after failed c))
| writes_done w locale total :
    resumes w (Writing locale total [] false)
            (log w (Updated locale total)) (Settled Fulfilled)
| writes_failed w locale total :
    resumes w (Writing locale total [] true)
            w (Settled Rejected).

(** The run of [translateMissingKeys] after the launch: the world and
    the pipelines of the locales. *)
Record run : Type := { now : world; pipelines : list pipeline }.

Inductive step : run -> run -> Prop :=
| step_pipeline w before p after w' p' :
    resumes w p w' p' ->
    step {| now := w; pipelines := before ++ p :: after |}
         {| now := w'; pipelines := before ++ p' :: after |}.

Inductive steps : run -> run -> Prop :=
| steps_refl r : steps r r
| steps_step r1 r2 r3 : step r1 r2 -> steps r2 r3 -> steps r1 r3.

(** The schedule that runs one pipeline to its end: the callbacks one
    after the other, each one without interruption. *)
Fixpoint finishCallbacks (w : world) (locale : string) (total : nat)
         (running : list callback) (failed : bool) : world * outcome :=
  match running with
  | [] =>
      if failed then (w, Rejected)
      else (log w (Updated locale total), Fulfilled)
  | c :: rest =>
      let (d, o) := complete (disk w) folderPath locale c in
      finishCallbacks (with_disk w d) locale total rest
                      (failed || is_rejected (Some o))
  end.

(** The same from the entries of an answer: the write callbacks in the
    order of the entries. *)
Fixpoint finishWrites (w : world) (locale : string) (total : nat)
         (pending : list (string * string)) (failed : bool)
  : world * outcome :=
  match pending with
  | [] =>
      if failed then (w, Rejected)
      else (log w (Updated locale total), Fulfilled)
  | entry :: rest =>
      let (d, o) := writeTranslation (disk w) folderPath locale
                                     (fst entry) (snd entry) in
      finishWrites (with_disk w d) locale total rest
                   (failed || is_rejected (Some o))
  end.

Definition finish (w : world) (p : pipeline) : world * outcome :=
  match p with
  | Settled o => (w, o)
  | AwaitingTranslation locale total entries =>
      match translateWithGPT gpt entries locale with
      | None => (w, Rejected)
      | Some translated => finishWrites w locale total translated false
      end
  | Writing locale total running failed =>
      finishCallbacks w locale total running failed
  end.

Fixpoint finishAll (w : world) (ps : list pipeline)
  : world * list pipeline :=
  match ps with
  | [] => (w, [])
  | p :: rest =>
      let (w1, o) := finish w p in
      let (w2, os) := finishAll w1 rest in
      (w2, Settled o :: os)
  end.

(** [translateMissingKeys(folderPath, referenceLocale, dryRun)]: the
    launch of the pipelines, or [None] when
    [getAllMissingTranslations] throws. *)
Definition start (w : world) (referenceLocale : string) : option run :=
  match getAllMissingTranslations (disk w) folderPath referenceLocale with
  | None => None
  | Some allMissing =>
      let (w1, ps) := launchAll w allMissing in
      Some {| now := w1; pipelines := ps |}
  end.

(** The command run until every pipeline has settled, under the
    schedule of [finishAll]: the final world and the state of the
    promise returned. *)
Definition translateMissingKeys (w : world) (referenceLocale : string)
  : world * outcome :=
  match start w referenceLocale with
  | None => (w, Rejected)
  | Some r =>
      let (w', ps) := finishAll (now r) (pipelines r) in
      (w', match promise_all ps with
           | Some Fulfilled => Fulfilled
           | _ => Rejected
           end)
  end.

End Orchestrator.

(* ================================================================== *)
(** ** Vocabulary of the statements about the detector *)


(** The path the detector reads for the counterpart of a reference
    file. *)
Definition counterpart (referenceFolder localeFolder refFilePath : path)
  : path :=
  Path.join localeFolder [Path.relative referenceFolder refFilePath].



(** The flat map of the document at a path, the empty document when
    nothing can be read there. *)
Definition flatAt (d : node) (p : path) : FlatJson :=
  match FS.readJson d p with
  | Some doc => flattenObject doc ""
  | None => flattenObject [] ""
  end.

(** The reference file has the flattened key [key], with the text
    [text], and its counterpart under the locale folder has not. *)
Definition lacks (d : node) (referenceFolder localeFolder : path)
           (refFilePath : path) (key : string) (text : json) : Prop :=
  Obj.get (flatAt d refFilePath) key = Some text
  /\ ~ In key (Obj.keys
                 (flatAt d (counterpart referenceFolder localeFolder
                                        refFilePath))).

(** [fullKey] is [relativePath:::key] for a key that one of [files]
    has and its counterpart lacks, and [text] is the reference text
    there. *)
Definition missing_entry (d : node) (referenceFolder localeFolder : path)
           (files : list path) (fullKey : string) (text : json) : Prop :=
  exists refFilePath key,
    In refFilePath files
    /\ fullKey
       = (Path.relative referenceFolder refFilePath ++ ":::" ++ key)%string
    /\ lacks d referenceFolder localeFolder refFilePath key text.

(** A name of a file or directory: not empty, not [.] or [..], no
    [/]. *)
Definition proper_name (name : string) : bool :=
  negb (String.eqb name "") && negb (String.eqb name ".")
  && negb (String.eqb name "..")
  && Str.forallb (fun a => negb (Ascii.eqb a "/")) name.

(* ================================================================== *)
(** ** Vocabulary of the statements about the orchestrator *)

(** No colon in a string. *)
Definition colon_free (s : string) : bool :=
  Str.forallb (fun a => negb (Ascii.eqb a ":")) s.

(** What a dry run prints for one locale. *)
Definition dryRunReport (job : string * Record json) : list message :=
  if (List.length (Obj.keys (snd job)) =? 0)%nat
  then [NothingToTranslate (fst job)]
  else [DryRunHeader (fst job); DryRunKeys (snd job)].

Definition settled (p : pipeline) : Prop := exists o, p = Settled o.

(* ================================================================== *)
(** ** Scenarios *)

Module Scenario.

(** The scenario of the specification: [fr/common.json] is
    [{"a": {"b": "Bonjour"}}], [en] has no [common.json], and the
    capability answers the line [common.json:::a.b: Hello]. *)
Definition frCommon : JSONContent := [("a", JObj [("b", JStr "Bonjour")])].

Definition locales : node :=
  Dir [("locales",
        Dir [("fr", Dir [("common.json", File (Some frCommon))]);
             ("en", Dir [])])].

Definition initial : world :=
  {| disk := locales; console := []; requests := [] |}.

Definition hello : Capability :=
  fun _ _ => Some "common.json:::a.b: Hello".

Definition expected : JSONContent := [("a", JObj [("b", JStr "Hello")])].

(** A root directory with entries of several kinds. *)
Definition mixed : node :=
  Dir [("locales",
        Dir [("fr", Dir [("common.json", File (Some frCommon))]);
             ("en_US", Dir []);
             ("de", File None);
             ("xx-yy-zz", Dir [("common.json", File (Some frCommon))])])].


(** Two keys are missing, the capability answers for one of them. *)
Definition frTwo : JSONContent := [("a", JStr "Bonjour"); ("b", JStr "Monde")].

Definition twoKeys : node :=
  Dir [("locales",
        Dir [("fr", Dir [("common.json", File (Some frTwo))]);
             ("en", Dir [])])].

Definition initialTwo : world :=
  {| disk := twoKeys; console := []; requests := [] |}.

Definition partial : Capability :=
  fun _ _ => Some "common.json:::a: Hello".

(** An answer whose line has no key of the form [file:::path]. *)
Definition stray : Capability :=
  fun _ _ => Some "note: bonjour".

(** Two locales; the call fails for [de] and succeeds for [en]. *)
Definition twoLocales : node :=
  Dir [("locales",
        Dir [("fr", Dir [("common.json", File (Some frCommon))]);
             ("de", Dir []);
             ("en", Dir [])])].

Definition initialLocales : world :=
  {| disk := twoLocales; console := []; requests := [] |}.

Definition failsForDe : Capability :=
  fun locale _ =>
    if String.eqb locale "de" then None
    else Some "common.json:::a.b: Hello".

(** The run of [twoLocales] after the launch, and after the call for
    [de] has failed. *)
Definition request_ : string := "common.json:::a.b: Bonjour".

Definition launchedWorld : world :=
  {| disk := twoLocales;
     console := [Translating 1 "de"; Translating 1 "en"];
     requests := [("de", request_); ("en", request_)] |}.

Definition missingKeys : Record json :=
  [("common.json:::a.b", JStr "Bonjour")].

Definition launched : run :=
  {| now := launchedWorld;
     pipelines := [AwaitingTranslation "de" 1 missingKeys;
                   AwaitingTranslation "en" 1 missingKeys] |}.

Definition afterFailure : run :=
  {| now := launchedWorld;
     pipelines := [Settled Rejected;
                   AwaitingTranslation "en" 1 missingKeys] |}.

End Scenario.

(* ================================================================== *)
(** ** Vocabulary of the further statements *)

(** The document at a path, the empty one when nothing can be read. *)
Definition documentAt (d : node) (p : path) : JSONContent :=
  match FS.readJson d p with
  | Some doc => doc
  | None => []
  end.

(** [n'] keeps what [n] holds: every file with its content, every
    directory as a directory. *)
Definition keeps (n n' : node) (q : path) : Prop :=
  match FS.lookup n q with
  | Some (File content) => FS.lookup n' q = Some (File content)
  | Some (Dir _) => exists children, FS.lookup n' q = Some (Dir children)
  | None => True
  end.

(** What a run has, the next state has: the requests are the same,
    the console has grown, no path is gone. *)
Definition grows (w w' : world) : Prop :=
  requests w' = requests w
  /\ (exists more, console w' = console w ++ more)
  /\ (forall q, FS.pathExists (disk w) q = true ->
                FS.pathExists (disk w') q = true).

(** The pipeline is not in its write phase. *)
Definition idle (p : pipeline) : Prop :=
  match p with Writing _ _ _ _ => False | _ => True end.


(** The characters of a locale name. *)
Definition tag_char (a : ascii) : bool :=
  is_letter a || is_digit a || is_separator a.

(** The value [v] under the chain of keys [p]. *)
Fixpoint nested (p : list string) (v : json) : json :=
  match p with
  | [] => v
  | key :: rest => JObj [(key, nested rest v)]
  end.

(** The keys [visit] adds start with the key it is given. *)
Definition extends_key (v : json) : Prop :=
  forall nk acc key,
    In key (Obj.keys (visit v nk acc)) ->
    In key (Obj.keys acc) \/ String.prefix nk key = true.


(* ================================================================== *)
(** ** Vocabulary of the proofs *)

(** An entry of a well-formed object: its key is plain and is not
    [__proto__], its value is well formed. *)
Definition entry_ok (kv : string * json) : Prop :=
  plain_key (fst kv) = true /\ well_formed true (snd kv) = true
  /\ fst kv <> "__proto__".

(** Visiting [v] under the path [pre] appends its leaves. *)
Definition visit_lists (v : json) : Prop :=
  forall pre acc,
    well_formed true v = true -> plain_path pre -> pre <> [] ->
    dotted pre <> "__proto__" ->
    (forall pv, In pv (paths v) ->
                ~ In (dotted (pre ++ fst pv)) (Obj.keys acc)) ->
    visit v (dotted pre) acc = acc ++ map (keyed pre) (paths v).

(** Writing the leaves of [v] on the empty object gives [v]. *)
Definition rebuilt (v : json) : Prop :=
  well_formed true v = true -> isObject v = true ->
  build (JObj []) (paths v) = v.

(** A callback that is run to its end goes through its steps. *)
Definition completes (gpt : Capability) (folderPath : string) (c : callback)
  : Prop :=
  forall before after w locale total rest failed,
    steps gpt folderPath
      {| now := w;
         pipelines :=
           before ++ Writing locale total (c :: rest) failed :: after |}
      {| now := with_disk w (fst (complete (disk w) folderPath locale c));
         pipelines :=
           before
           ++ Writing locale total rest
                (failed
                 || is_rejected
                      (Some (snd (complete (disk w) folderPath locale c))))
           :: after |}.

(** The directories passed on the way to the end of a path, the
    nearest first. *)
Fixpoint passed (d : node) (stack : list string) (up : list node) : Prop :=
  match stack, up with
  | [], [] => True
  | _ :: stack', parent :: up' =>
      FS.lookup d (rev stack') = Some parent /\ passed d stack' up'
  | _, _ => False
  end.
Unset Implicit Arguments.

(* ================================================================== *)
(** ** Records: basic facts *)

Module ObjFacts.
Section Facts.
Variable V : Type.
Implicit Types (obj : Record V) (key : string) (val : V).

Lemma get_None_keys obj key :
  Obj.get obj key = None <-> ~ In key (Obj.keys obj).
Proof.
  induction obj as [|[k v] rest IH]; simpl.
  - tauto.
  - destruct (String.eqb k key) eqn:E.
    + apply String.eqb_eq in E. split; [discriminate | tauto].
    + apply String.eqb_neq in E. rewrite IH. tauto.
Qed.

Lemma get_In obj key val :
  Obj.get obj key = Some val -> In (key, val) obj.
Proof.
  induction obj as [|[k v] rest IH]; simpl; [discriminate|].
  destruct (String.eqb k key) eqn:E.
  - apply String.eqb_eq in E. intros [= ->]. subst. now left.
  - intros H. right. now apply IH.
Qed.

Lemma set_fresh obj key val :
  Obj.get obj key = None -> Obj.define obj key val = obj ++ [(key, val)].
Proof.
  induction obj as [|[k v] rest IH]; simpl; [reflexivity|].
  destruct (String.eqb k key); [discriminate|].
  intros H. now rewrite IH.
Qed.

Lemma set_set obj key val val' :
  Obj.define (Obj.define obj key val) key val' = Obj.define obj key val'.
Proof.
  induction obj as [|[k v] rest IH]; simpl.
  - now rewrite String.eqb_refl.
  - destruct (String.eqb k key) eqn:E; simpl; rewrite E;
      [reflexivity | now rewrite IH].
Qed.

Lemma set_same obj key val :
  Obj.get obj key = Some val -> Obj.define obj key val = obj.
Proof.
  induction obj as [|[k v] rest IH]; simpl; [discriminate|].
  destruct (String.eqb k key).
  - now intros [= ->].
  - intros H. now rewrite IH.
Qed.

Lemma get_set_same obj key val :
  Obj.get (Obj.define obj key val) key = Some val.
Proof.
  induction obj as [|[k v] rest IH]; simpl.
  - now rewrite String.eqb_refl.
  - destruct (String.eqb k key) eqn:E; simpl; now rewrite E.
Qed.

Lemma get_set_other obj key key' val :
  key <> key' ->
  Obj.get (Obj.define obj key val) key' = Obj.get obj key'.
Proof.
  intros Hne.
  induction obj as [|[k v] rest IH]; simpl.
  - apply String.eqb_neq in Hne. now rewrite Hne.
  - destruct (String.eqb k key) eqn:E; simpl.
    + apply String.eqb_eq in E. subst k.
      apply String.eqb_neq in Hne. now rewrite Hne.
    + destruct (String.eqb k key'); [reflexivity | apply IH].
Qed.

Lemma keys_set obj key val k :
  In k (Obj.keys (Obj.define obj key val)) <->
  k = key \/ In k (Obj.keys obj).
Proof.
  induction obj as [|[k0 v] rest IH]; simpl.
  - intuition.
  - destruct (String.eqb k0 key) eqn:E; simpl.
    + apply String.eqb_eq in E. subst. intuition.
    + rewrite IH. intuition.
Qed.

Lemma set_Forall (Q : V -> Prop) obj key val :
  Forall (fun kv => Q (snd kv)) obj -> Q val ->
  Forall (fun kv => Q (snd kv)) (Obj.define obj key val).
Proof.
  intros Hall Hval.
  induction obj as [|[k v] rest IH]; simpl.
  - now constructor.
  - inversion Hall; subst.
    destruct (String.eqb k key); constructor; auto.
Qed.

Lemma spread_Forall (Q : V -> Prop) (a b : Record V) :
  Forall (fun kv => Q (snd kv)) a ->
  Forall (fun kv => Q (snd kv)) b ->
  Forall (fun kv => Q (snd kv)) (Obj.spread a b).
Proof.
  unfold Obj.spread. intros Ha Hb. revert a Ha.
  induction Hb as [|[k v] rest Hv _ IH]; simpl; intros a Ha; [assumption|].
  apply IH. now apply set_Forall.
Qed.

Lemma spread_nil (a : Record V) : Obj.spread a [] = a.
Proof. reflexivity. Qed.

(** Spreading properties that are all new and pairwise distinct
    appends them. *)
Lemma spread_fresh (a b : Record V) :
  NoDup (Obj.keys b) ->
  (forall k, In k (Obj.keys b) -> ~ In k (Obj.keys a)) ->
  Obj.spread a b = a ++ b.
Proof.
  unfold Obj.spread. revert a.
  induction b as [|[k v] rest IH]; simpl; intros a Hnd Hfresh.
  - now rewrite app_nil_r.
  - inversion Hnd as [|? ? Hk Hrest]; subst.
    rewrite set_fresh by (apply get_None_keys; apply Hfresh; now left).
    rewrite IH; [now rewrite <- app_assoc | assumption |].
    intros k' Hin. unfold Obj.keys. rewrite map_app, in_app_iff. simpl.
    intros [Ha | [<- | []]].
    + apply (Hfresh k'); [now right | exact Ha].
    + exact (Hk Hin).
Qed.

Lemma keys_spread (a b : Record V) k :
  In k (Obj.keys (Obj.spread a b)) <->
  In k (Obj.keys a) \/ In k (Obj.keys b).
Proof.
  unfold Obj.spread. revert a.
  induction b as [|[k0 v] rest IH]; simpl; intros a.
  - tauto.
  - rewrite IH, keys_set. intuition (subst; auto).
Qed.

Lemma NoDup_keys_set obj key val :
  NoDup (Obj.keys obj) -> NoDup (Obj.keys (Obj.define obj key val)).
Proof.
  induction obj as [|[k v] rest IH]; simpl; intros Hnd.
  - constructor; [intros [] | constructor].
  - inversion Hnd as [|? ? Hk Hrest]; subst.
    destruct (String.eqb k key) eqn:E; simpl.
    + now constructor.
    + constructor; [|now apply IH].
      change (~ In k (Obj.keys (Obj.define rest key val))).
      rewrite keys_set. apply String.eqb_neq in E. intuition.
Qed.

Lemma NoDup_keys_spread (a b : Record V) :
  NoDup (Obj.keys a) -> NoDup (Obj.keys (Obj.spread a b)).
Proof.
  unfold Obj.spread. revert a.
  induction b as [|[k v] rest IH]; simpl; intros a Ha; [assumption|].
  apply IH. now apply NoDup_keys_set.
Qed.

(** Assignment: the name [__proto__] apart, it defines the property. *)
Lemma put_define obj key val :
  key <> "__proto__" -> Obj.put obj key val = Obj.define obj key val.
Proof.
  intros H. unfold Obj.put. apply String.eqb_neq in H. now rewrite H.
Qed.

Lemma put_own obj key val v :
  Obj.get obj key = Some v -> Obj.put obj key val = Obj.define obj key val.
Proof.
  intros H. unfold Obj.put, Obj.has. rewrite H. now rewrite andb_false_r.
Qed.

Lemma put_cases obj key val :
  Obj.put obj key val = obj \/ Obj.put obj key val = Obj.define obj key val.
Proof.
  unfold Obj.put.
  destruct (String.eqb key "__proto__" && negb (Obj.has obj key)); auto.
Qed.

Lemma keys_put obj key val k :
  In k (Obj.keys (Obj.put obj key val)) -> k = key \/ In k (Obj.keys obj).
Proof.
  destruct (put_cases obj key val) as [-> | ->]; [now right|].
  apply keys_set.
Qed.

Lemma put_Forall (Q : V -> Prop) obj key val :
  Forall (fun kv => Q (snd kv)) obj -> Q val ->
  Forall (fun kv => Q (snd kv)) (Obj.put obj key val).
Proof.
  intros Hall Hval. destruct (put_cases obj key val) as [-> | ->];
    [assumption | now apply set_Forall].
Qed.

Lemma NoDup_keys_put obj key val :
  NoDup (Obj.keys obj) -> NoDup (Obj.keys (Obj.put obj key val)).
Proof.
  intros H. destruct (put_cases obj key val) as [-> | ->];
    [assumption | now apply NoDup_keys_set].
Qed.
End Facts.
End ObjFacts.

(* ================================================================== *)
(** ** The flattener: its defining equations *)

Module FlattenFacts.

Lemma flattenObject_fold obj prefix :
  flattenObject obj prefix = fold_left (reducer prefix) obj [].
Proof. reflexivity. Qed.

Lemma reduce_props nk (es : list (string * json)) (a : FlatJson) :
  (fix reduce (es : list (string * json)) (a : FlatJson) : FlatJson :=
     match es with
     | [] => a
     | (key, v) :: rest => reduce rest (visit v (newKey nk key) a)
     end) es a
  = fold_left (reducer nk) es a.
Proof.
  revert a. induction es as [|[k v] rest IH]; intros a; simpl;
    [reflexivity | apply IH].
Qed.

Lemma reduce_items nk (vs : list json) (i : nat) (a : FlatJson) :
  (fix reduce (i : nat) (vs : list json) (a : FlatJson) : FlatJson :=
     match vs with
     | [] => a
     | v :: rest => reduce (S i) rest (visit v (newKey nk (Str.of_nat i)) a)
     end) i vs a
  = fold_left (reducer nk) (indexed i vs) a.
Proof.
  revert i a. induction vs as [|v rest IH]; intros i a; simpl;
    [reflexivity | apply IH].
Qed.

(** The reducer of the source, case by case. *)
Lemma visit_object props nk acc :
  visit (JObj props) nk acc = Obj.spread acc (flattenObject props nk).
Proof. simpl. now rewrite reduce_props. Qed.

Lemma visit_array items nk acc :
  visit (JArr items) nk acc
  = Obj.spread acc (flattenObject (indexed 0 items) nk).
Proof. simpl. now rewrite reduce_items. Qed.

Lemma visit_scalar val nk acc :
  is_scalar val = true -> visit val nk acc = Obj.put acc nk val.
Proof. destruct val; simpl; intros H; try reflexivity; discriminate. Qed.

Lemma visit_eq val nk acc :
  visit val nk acc =
  if isObject val then Obj.spread acc (flattenObject (entries val) nk)
  else Obj.put acc nk val.
Proof.
  destruct val; try reflexivity;
    [apply visit_array | apply visit_object].
Qed.

Lemma flattenObject_app before after prefix :
  flattenObject (before ++ after) prefix
  = fold_left (reducer prefix) after (flattenObject before prefix).
Proof. unfold flattenObject. apply fold_left_app. Qed.

Lemma visit_scalars val :
  forall nk acc, scalars acc -> scalars (visit val nk acc).
Proof.
  induction val as [| b | z | s | items IH | props IH]
    using json_ind; intros nk acc Hacc;
    try (simpl; apply (ObjFacts.put_Forall _ (fun v => is_scalar v = true));
         [assumption | reflexivity]).
  - rewrite visit_array. apply (ObjFacts.spread_Forall _ (fun v => is_scalar v = true));
      [assumption|].
    unfold flattenObject.
    assert (Hgen : forall i a, scalars a ->
               scalars (fold_left (reducer nk) (indexed i items) a)).
    { induction IH as [|v rest Hv _ IHrest]; intros i a Ha; simpl;
        [assumption|].
      apply IHrest. now apply Hv. }
    apply Hgen. constructor.
  - rewrite visit_object. apply (ObjFacts.spread_Forall _ (fun v => is_scalar v = true));
      [assumption|].
    unfold flattenObject.
    assert (Hgen : forall a, scalars a ->
               scalars (fold_left (reducer nk) props a)).
    { induction IH as [|[k v] rest Hv _ IHrest]; intros a Ha; simpl;
        [assumption|].
      apply IHrest. now apply Hv. }
    apply Hgen. constructor.
Qed.

Lemma flattenObject_scalars obj prefix : scalars (flattenObject obj prefix).
Proof.
  unfold flattenObject.
  assert (Hgen : forall a, scalars a ->
             scalars (fold_left (reducer prefix) obj a)).
  { induction obj as [|[k v] rest IH]; intros a Ha; simpl; [assumption|].
    apply IH. now apply visit_scalars. }
  apply Hgen. constructor.
Qed.

End FlattenFacts.

(* ================================================================== *)
(** ** Strings: cutting and joining at dots *)

Module StrFacts.
Local Open Scope string_scope.

Lemma append_assoc (a b c : string) : (a ++ b) ++ c = a ++ (b ++ c).
Proof. induction a as [|x a IH]; simpl; [reflexivity | now rewrite IH]. Qed.

Lemma forallb_impl (p q : ascii -> bool) s :
  (forall a, p a = true -> q a = true) ->
  Str.forallb p s = true -> Str.forallb q s = true.
Proof.
  intros Hpq. induction s as [|a s IH]; simpl; [reflexivity|].
  rewrite !andb_true_iff. intros [Ha Hs]. auto.
Qed.

Lemma split_char_free c s :
  Str.forallb (fun a => negb (Ascii.eqb a c)) s = true ->
  Str.split_char c s = [s].
Proof.
  induction s as [|a s IH]; simpl; [reflexivity|].
  destruct (Ascii.eqb a c); simpl; [discriminate|].
  intros H. now rewrite IH.
Qed.

Lemma split_char_app c s t :
  Str.forallb (fun a => negb (Ascii.eqb a c)) s = true ->
  Str.split_char c (s ++ String c t) = s :: Str.split_char c t.
Proof.
  induction s as [|a s IH]; simpl.
  - now rewrite Ascii.eqb_refl.
  - destruct (Ascii.eqb a c); simpl; [discriminate|].
    intros H. now rewrite IH.
Qed.

Lemma split_join c p :
  p <> [] ->
  Forall (fun k => Str.forallb (fun a => negb (Ascii.eqb a c)) k = true) p ->
  Str.split_char c (Str.join_with (String c EmptyString) p) = p.
Proof.
  induction p as [|k rest IH]; intros Hne Hall; [congruence|].
  inversion Hall as [|? ? Hk Hrest]; subst.
  destruct rest as [|k' rest'].
  - simpl. now apply split_char_free.
  - change (Str.join_with (String c EmptyString) (k :: k' :: rest'))
      with (k ++ String c (Str.join_with (String c EmptyString) (k' :: rest'))).
    rewrite split_char_app by assumption.
    rewrite IH; [reflexivity | discriminate | assumption].
Qed.

Lemma split_char_head_free c s :
  exists h t, Str.split_char c s = h :: t
              /\ Str.forallb (fun a => negb (Ascii.eqb a c)) h = true.
Proof.
  induction s as [|a s (h & t & E & Hh)]; simpl.
  - now exists EmptyString, [].
  - destruct (Ascii.eqb a c) eqn:Ea.
    + now exists EmptyString, (Str.split_char c s).
    + rewrite E. exists (String a h), t. simpl. now rewrite Ea, Hh.
Qed.

Lemma forallb_list p s :
  Str.forallb p s = forallb p (list_ascii_of_string s).
Proof. induction s as [|a s IH]; simpl; [reflexivity | now rewrite IH]. Qed.

Lemma forallb_string p l :
  Str.forallb p (string_of_list_ascii l) = forallb p l.
Proof. induction l as [|a l IH]; simpl; [reflexivity | now rewrite IH]. Qed.

(** [strip] drops bytes at the start and nothing else. *)
Lemma strip_suffix view s :
  forall skip, exists dropped, s = (dropped ++ Str.strip view skip s)%list.
Proof.
  induction s as [|a s IH]; intros skip.
  - now exists [].
  - cbn [Str.strip]. destruct skip as [|k].
    + destruct (Str.space_ahead view (a :: s)) as [|k].
      * now exists [].
      * destruct (IH k) as (dropped & E). exists (a :: dropped).
        simpl. now rewrite <- E.
    + destruct (IH k) as (dropped & E). exists (a :: dropped).
      simpl. now rewrite <- E.
Qed.

Lemma forallb_strip p view skip s :
  forallb p s = true -> forallb p (Str.strip view skip s) = true.
Proof.
  destruct (strip_suffix view s skip) as (dropped & E).
  rewrite E at 1. rewrite forallb_app, andb_true_iff. tauto.
Qed.

Lemma forallb_reverse {A : Type} (p : A -> bool) l :
  forallb p (rev l) = forallb p l.
Proof.
  induction l as [|a l IH]; simpl; [reflexivity|].
  rewrite forallb_app, IH. simpl. rewrite andb_true_r. apply andb_comm.
Qed.

Lemma forallb_trim_start p s :
  Str.forallb p s = true -> Str.forallb p (Str.trim_start s) = true.
Proof.
  unfold Str.trim_start. rewrite forallb_string, forallb_list.
  apply forallb_strip.
Qed.

Lemma forallb_trim_end p s :
  Str.forallb p s = true -> Str.forallb p (Str.trim_end s) = true.
Proof.
  unfold Str.trim_end. rewrite forallb_string, forallb_list, forallb_reverse.
  intros H. apply forallb_strip. now rewrite forallb_reverse.
Qed.

Lemma forallb_trim p s :
  Str.forallb p s = true -> Str.forallb p (Str.trim s) = true.
Proof. intros H. now apply forallb_trim_end, forallb_trim_start. Qed.

Lemma prefix_separator a s :
  Ascii.eqb a ":" = false -> String.prefix ":::" (String a s) = false.
Proof.
  intros H. cbn [String.prefix].
  destruct (ascii_dec ":" a) as [<- | _]; [discriminate | reflexivity].
Qed.

(** A string without colon has no [:::] to be cut at. *)
Lemma split_go_colon_free s :
  forall cur,
    colon_free s = true ->
    Str.split_go ":::" 0 cur s = [cur ++ s].
Proof.
  induction s as [|a s IH]; intros cur H.
  - simpl. f_equal. induction cur as [|x cur IHc]; simpl; congruence.
  - unfold colon_free in H. simpl in H.
    rewrite andb_true_iff, negb_true_iff in H. destruct H as [Ha Hs].
    cbn [Str.split_go]. rewrite prefix_separator by exact Ha.
    rewrite IH by exact Hs. now rewrite append_assoc.
Qed.

Lemma split_colon_free s :
  colon_free s = true -> Str.split ":::" s = [s].
Proof. intros H. unfold Str.split. now rewrite split_go_colon_free. Qed.

Lemma has_dot_false k :
  Lodash.has_dot k = false <->
  Str.forallb (fun a => negb (Ascii.eqb a ".")) k = true.
Proof. unfold Lodash.has_dot. now rewrite negb_false_iff. Qed.

Lemma has_dot_app a b : Lodash.has_dot (a ++ "." ++ b) = true.
Proof.
  unfold Lodash.has_dot. apply negb_true_iff.
  induction a as [|x a IH]; simpl in *; [reflexivity|].
  rewrite IH. apply andb_false_r.
Qed.

Lemma plain_key_nonempty k : plain_key k = true -> Str.is_empty k = false.
Proof.
  unfold plain_key. rewrite andb_true_iff, negb_true_iff. tauto.
Qed.

Lemma plain_key_dotless k : plain_key k = true -> Lodash.has_dot k = false.
Proof.
  unfold plain_key. rewrite andb_true_iff. intros [_ H].
  apply has_dot_false. revert H. apply forallb_impl.
  intros a. unfold path_char. rewrite !negb_true_iff, !orb_false_iff. tauto.
Qed.

Lemma split_dotted p :
  p <> [] -> Forall (fun k => Lodash.has_dot k = false) p ->
  Str.split_char "." (dotted p) = p.
Proof.
  unfold dotted.
  induction p as [|k rest IH]; intros Hne Hall; [congruence|].
  inversion Hall as [|? ? Hk Hrest]; subst.
  destruct rest as [|k' rest'].
  - simpl. apply split_char_free. now apply has_dot_false.
  - change (Str.join_with "." (k :: k' :: rest'))
      with (k ++ String "." (Str.join_with "." (k' :: rest'))).
    rewrite split_char_app by now apply has_dot_false.
    rewrite IH; [reflexivity | discriminate | assumption].
Qed.

Lemma dotted_snoc pre k :
  pre <> [] -> dotted (pre ++ [k]) = dotted pre ++ "." ++ k.
Proof.
  unfold dotted.
  induction pre as [|a rest IH]; intros Hne; [congruence|].
  destruct rest as [|b rest'].
  - reflexivity.
  - change (Str.join_with "." ((a :: b :: rest') ++ [k]))
      with (a ++ "." ++ Str.join_with "." ((b :: rest') ++ [k])).
    rewrite IH by discriminate.
    change (Str.join_with "." (a :: b :: rest'))
      with (a ++ "." ++ Str.join_with "." (b :: rest')).
    now rewrite !append_assoc.
Qed.

Lemma dotted_nonempty p :
  p <> [] -> plain_path p -> Str.is_empty (dotted p) = false.
Proof.
  intros Hne Hp. destruct p as [|k rest]; [congruence|].
  inversion Hp as [|? ? Hk _]; subst.
  apply plain_key_nonempty in Hk.
  destruct k; [discriminate|].
  unfold dotted. destruct rest; reflexivity.
Qed.

Lemma newKey_dotted pre k :
  plain_path pre -> newKey (dotted pre) k = dotted (pre ++ [k]).
Proof.
  intros Hp. destruct pre as [|a rest].
  - reflexivity.
  - unfold newKey. rewrite dotted_nonempty by (assumption || discriminate).
    now rewrite dotted_snoc by discriminate.
Qed.

Lemma plain_path_dotless p :
  plain_path p -> Forall (fun k => Lodash.has_dot k = false) p.
Proof.
  intros H. eapply Forall_impl; [|exact H].
  intros k. apply plain_key_dotless.
Qed.

Lemma has_dot_join k k' rest :
  Lodash.has_dot (dotted (k :: k' :: rest)) = true.
Proof.
  unfold dotted.
  change (Str.join_with "." (k :: k' :: rest))
    with (k ++ "." ++ Str.join_with "." (k' :: rest)).
  apply has_dot_app.
Qed.

(** A dotted path is the name [__proto__] only if it is that one key. *)
Lemma dotted_not_proto pre k :
  k <> "__proto__" -> dotted (pre ++ [k]) <> "__proto__".
Proof.
  intros Hk. destruct pre as [|a [|b rest]]; simpl app.
  - exact Hk.
  - intros E. pose proof (has_dot_join a k []) as H.
    rewrite E in H. discriminate.
  - intros E. pose proof (has_dot_join a b (rest ++ [k])) as H.
    rewrite E in H. discriminate.
Qed.

Lemma inherited_proto k : Lodash.inherited k = false -> k <> "__proto__".
Proof. intros H ->. discriminate. Qed.

Lemma dotted_inj p q :
  plain_path p -> plain_path q -> p <> [] -> q <> [] ->
  dotted p = dotted q -> p = q.
Proof.
  intros Hp Hq Hpn Hqn E.
  rewrite <- (split_dotted p Hpn (plain_path_dotless p Hp)).
  rewrite <- (split_dotted q Hqn (plain_path_dotless q Hq)).
  now rewrite E.
Qed.

End StrFacts.

(* ================================================================== *)
(** ** Well-formed documents and their leaves *)

Module Leaves.

Lemma distinct_NoDup l : distinct l = true -> NoDup l.
Proof.
  induction l as [|x rest IH]; simpl; [constructor|].
  rewrite andb_true_iff, negb_true_iff. intros [Hx Hrest].
  constructor; [|auto].
  intros Hin.
  assert (existsb (String.eqb x) rest = true) as E
      by (apply existsb_exists; exists x; split;
          [assumption | apply String.eqb_refl]).
  congruence.
Qed.

(** What [well_formed] says of an object. *)
Lemma well_formed_object nested props :
  well_formed nested (JObj props) = true ->
  (nested = true -> props <> [])
  /\ NoDup (map fst props)
  /\ Forall (fun kv => plain_key (fst kv) = true
                       /\ own_key (fst kv) (snd kv) = true
                       /\ (nested = true -> Lodash.isIndex (fst kv) = false)
                       /\ well_formed true (snd kv) = true) props.
Proof.
  simpl. rewrite !andb_true_iff. intros [[Hne Hd] Hall].
  split; [|split].
  - intros ->. destruct props; [discriminate | discriminate].
  - now apply distinct_NoDup.
  - apply Forall_forall. intros kv Hin.
    rewrite forallb_forall in Hall. specialize (Hall kv Hin).
    rewrite !andb_true_iff in Hall. destruct Hall as [[[Hk Ho] Hi] Hv].
    repeat split; try assumption.
    intros ->. now apply negb_true_iff.
Qed.

Lemma own_key_proto k v : own_key k v = true -> k <> "__proto__".
Proof.
  unfold own_key. rewrite andb_true_iff, negb_true_iff.
  intros [H _]. now apply String.eqb_neq.
Qed.

Lemma own_key_object k v :
  own_key k v = true -> isObject v = true -> Lodash.inherited k = false.
Proof.
  unfold own_key. rewrite andb_true_iff, !negb_true_iff.
  intros [_ H] Hv. rewrite Hv in H. exact H.
Qed.

Lemma paths_object_cons k v rest :
  paths (JObj ((k, v) :: rest)) = map (at_key k) (paths v) ++ paths (JObj rest).
Proof. reflexivity. Qed.

(** Every leaf of a well-formed value is reached by plain keys. *)
Lemma paths_plain v :
  forall nested, well_formed nested v = true ->
  forall pv, In pv (paths v) -> plain_path (fst pv).
Proof.
  induction v as [| b | z | s | items IH | props IH] using json_ind;
    intros nested Hwf pv Hin;
    try (destruct Hin as [<- | []]; constructor).
  - discriminate.
  - apply well_formed_object in Hwf. destruct Hwf as (_ & _ & Hall).
    simpl in Hin. apply in_flat_map in Hin. destruct Hin as ([k v] & Hkv & Hin).
    apply in_map_iff in Hin. destruct Hin as (pv' & <- & Hin').
    rewrite Forall_forall in IH, Hall.
    destruct (Hall _ Hkv) as (Hk & _ & _ & Hv). simpl in *.
    constructor; [assumption|].
    exact (IH _ Hkv true Hv _ Hin').
Qed.

(** A well-formed value below the top level has a leaf. *)
Lemma paths_inhabited v : well_formed true v = true -> paths v <> [].
Proof.
  induction v as [| b | z | s | items IH | props IH] using json_ind;
    intros Hwf; try discriminate.
  apply well_formed_object in Hwf. destruct Hwf as (Hne & _ & Hall).
  destruct props as [|[k v] rest]; [now specialize (Hne eq_refl)|].
  inversion IH as [|? ? IHv _]; subst.
  inversion Hall as [|? ? (_ & _ & _ & Hv) _]; subst. simpl in *.
  specialize (IHv Hv).
  destruct (paths v); [congruence | discriminate].
Qed.

(** The paths of an object start with one of its keys. *)
Lemma paths_object_head props pv :
  In pv (paths (JObj props)) ->
  exists k rest, fst pv = k :: rest /\ In k (map fst props).
Proof.
  simpl. intros Hin. apply in_flat_map in Hin.
  destruct Hin as ([k v] & Hkv & Hin).
  apply in_map_iff in Hin. destruct Hin as (pv' & <- & _).
  exists k, (fst pv'). split; [reflexivity|].
  apply in_map_iff. now exists (k, v).
Qed.

Lemma paths_object_plain props pv :
  Forall (fun kv => plain_key (fst kv) = true
                    /\ well_formed true (snd kv) = true) props ->
  In pv (paths (JObj props)) -> plain_path (fst pv).
Proof.
  intros Hall Hin. simpl in Hin. apply in_flat_map in Hin.
  destruct Hin as ([k v] & Hkv & Hin).
  apply in_map_iff in Hin. destruct Hin as (pv' & <- & Hin').
  rewrite Forall_forall in Hall. destruct (Hall _ Hkv) as [Hk Hv].
  constructor; [assumption|]. exact (paths_plain _ _ Hv _ Hin').
Qed.

(** Along the path of a leaf of a well-formed value [lodash.set] meets
    own properties only. *)
Lemma paths_own v :
  forall nested, well_formed nested v = true ->
  forall pv, In pv (paths v) -> own_path (fst pv) = true.
Proof.
  induction v as [| b | z | s | items IH | props IH] using json_ind;
    intros nested Hwf pv Hin;
    try (destruct Hin as [<- | []]; reflexivity).
  - discriminate.
  - apply well_formed_object in Hwf. destruct Hwf as (_ & _ & Hall).
    simpl in Hin. apply in_flat_map in Hin. destruct Hin as ([k v] & Hkv & Hin).
    apply in_map_iff in Hin. destruct Hin as ([p w] & <- & Hin').
    rewrite Forall_forall in IH, Hall.
    destruct (Hall _ Hkv) as (_ & Ho & _ & Hv). simpl in *.
    pose proof (IH _ Hkv true Hv _ Hin') as Hp. simpl in Hp.
    destruct p as [|next p'].
    + apply negb_true_iff, String.eqb_neq. eapply own_key_proto; eassumption.
    + rewrite Hp, andb_true_r. apply negb_true_iff.
      apply (own_key_object k v Ho).
      destruct v; try reflexivity;
        destruct Hin' as [E | []]; discriminate E.
Qed.

End Leaves.

(* ================================================================== *)
(** ** Flattening a well-formed document lists its leaves *)

Module FlattenLeaves.
Import FlattenFacts StrFacts Leaves.

Lemma visit_NoDup val nk acc :
  NoDup (Obj.keys acc) -> NoDup (Obj.keys (visit val nk acc)).
Proof.
  intros H. rewrite visit_eq. destruct (isObject val).
  - now apply ObjFacts.NoDup_keys_spread.
  - now apply ObjFacts.NoDup_keys_put.
Qed.

(** Within one document a flattened key names one leaf. *)
Lemma flattenObject_NoDup obj prefix :
  NoDup (Obj.keys (flattenObject obj prefix)).
Proof.
  unfold flattenObject.
  assert (Hgen : forall a, NoDup (Obj.keys a) ->
             NoDup (Obj.keys (fold_left (reducer prefix) obj a))).
  { induction obj as [|[k v] rest IH]; intros a Ha; simpl; [assumption|].
    apply IH. now apply visit_NoDup. }
  apply Hgen. constructor.
Qed.

Lemma keyed_at_key pre k l :
  map (keyed pre) (map (at_key k) l) = map (keyed (pre ++ [k])) l.
Proof.
  rewrite map_map. apply map_ext. intros [p v].
  unfold keyed, at_key. simpl. now rewrite <- app_assoc.
Qed.

(** The reduction over the entries of an object, started on a map that
    holds none of the keys to come. *)
Lemma fold_lists pre props :
  Forall (fun kv => visit_lists (snd kv)) props ->
  Forall entry_ok props -> NoDup (map fst props) -> plain_path pre ->
  forall acc,
    (forall pv, In pv (paths (JObj props)) ->
                ~ In (dotted (pre ++ fst pv)) (Obj.keys acc)) ->
    fold_left (reducer (dotted pre)) props acc
    = acc ++ map (keyed pre) (paths (JObj props)).
Proof.
  intros IH Hok Hnd Hpre.
  induction props as [|[k v] rest IHrest]; intros acc Hfresh.
  - simpl. now rewrite app_nil_r.
  - inversion IH as [|? ? IHv IH']; subst.
    inversion Hok as [|? ? (Hk & Hv & Hproto) Hok']; subst.
    inversion Hnd as [|? ? Hknew Hnd']; subst. simpl in Hk, Hv, Hproto, IHv.
    assert (Hpre' : plain_path (pre ++ [k])).
    { apply Forall_app. split; [assumption | now constructor]. }
    rewrite paths_object_cons, map_app, keyed_at_key.
    simpl fold_left. unfold reducer at 2. simpl fst. simpl snd.
    rewrite newKey_dotted by assumption.
    rewrite IHv; try assumption.
    + rewrite IHrest; try assumption.
      * now rewrite <- app_assoc.
      * intros pv Hin. unfold Obj.keys. rewrite map_app, in_app_iff.
        intros [Hacc | Hnew].
        -- apply (Hfresh pv); [|exact Hacc].
           rewrite paths_object_cons. apply in_app_iff. now right.
        -- apply in_map_iff in Hnew. destruct Hnew as ([k1 v1] & E & Hin1).
           apply in_map_iff in Hin1. destruct Hin1 as (pv1 & E1 & Hin1).
           unfold keyed in E1. injection E1 as <- <-. simpl in E.
           destruct (paths_object_head _ _ Hin) as (k2 & r2 & E2 & Hk2).
           assert (Hp1 : plain_path (fst pv1))
             by (eapply paths_plain; eauto).
           assert (Hp2 : plain_path (fst pv)).
           { eapply paths_object_plain; [|exact Hin].
             eapply Forall_impl; [|exact Hok']. intros kv H. split; apply H. }
           apply dotted_inj in E.
           ++ rewrite <- app_assoc in E. apply app_inv_head in E.
              rewrite E2 in E. injection E as -> _. contradiction.
           ++ apply Forall_app. split; assumption.
           ++ apply Forall_app. split; assumption.
           ++ destruct pre; discriminate.
           ++ rewrite E2. destruct pre; discriminate.
    + destruct pre; discriminate.
    + now apply dotted_not_proto.
    + intros pv Hin. rewrite <- app_assoc. apply (Hfresh (at_key k pv)).
      rewrite paths_object_cons. apply in_app_iff. left.
      now apply in_map.
Qed.

Lemma entry_ok_of_well_formed nested props :
  well_formed nested (JObj props) = true -> Forall entry_ok props.
Proof.
  intros Hwf. apply well_formed_object in Hwf. destruct Hwf as (_ & _ & Hall).
  eapply Forall_impl; [|exact Hall]. intros kv (Hk & Ho & _ & Hv).
  repeat split; try assumption. eapply own_key_proto; eassumption.
Qed.

Lemma visit_lists_scalar v : is_scalar v = true -> visit_lists v.
Proof.
  intros Hs pre acc _ _ _ Hproto Hfresh.
  rewrite visit_scalar by assumption.
  assert (Hp : paths v = [([], v)]) by (destruct v; try reflexivity; discriminate).
  rewrite Hp in *. simpl. unfold keyed. simpl. rewrite app_nil_r.
  rewrite ObjFacts.put_define by exact Hproto.
  apply ObjFacts.set_fresh, ObjFacts.get_None_keys.
  specialize (Hfresh ([], v)). simpl in Hfresh. rewrite app_nil_r in Hfresh.
  apply Hfresh. now left.
Qed.

Lemma visit_lists_all v : visit_lists v.
Proof.
  induction v as [| b | z | s | items IH | props IH] using json_ind;
    try (now apply visit_lists_scalar);
    intros pre acc Hwf Hpre Hne _ Hfresh.
  - discriminate.
  - rewrite visit_object.
    assert (Hflat : flattenObject props (dotted pre)
                    = map (keyed pre) (paths (JObj props))).
    { unfold flattenObject.
      rewrite (fold_lists pre props IH); try assumption.
      - reflexivity.
      - eapply entry_ok_of_well_formed; eassumption.
      - apply well_formed_object in Hwf. tauto.
      - intros pv _ []. }
    rewrite ObjFacts.spread_fresh.
    + now rewrite Hflat.
    + apply flattenObject_NoDup.
    + intros k Hin. rewrite Hflat in Hin. unfold Obj.keys in Hin.
      apply in_map_iff in Hin. destruct Hin as ([k' v'] & <- & Hin).
      apply in_map_iff in Hin. destruct Hin as (pv & E & Hin).
      unfold keyed in E. injection E as <- <-. now apply Hfresh.
Qed.

(** The flat map of a well-formed document: one entry per leaf, in
    document order, under the dotted path of the leaf. *)
Lemma flattenObject_leaves doc :
  wf_doc doc = true ->
  flattenObject doc "" = map (keyed []) (paths (JObj doc)).
Proof.
  intros Hwf. unfold flattenObject.
  change "" with (dotted []).
  rewrite fold_lists.
  - reflexivity.
  - apply Forall_forall. intros kv _. apply visit_lists_all.
  - eapply entry_ok_of_well_formed; eassumption.
  - apply well_formed_object in Hwf. tauto.
  - constructor.
  - intros pv _ [].
Qed.

End FlattenLeaves.

(* ================================================================== *)
(** ** Writing the leaves back rebuilds the document *)

Module Rebuild.
Import StrFacts Leaves.

Lemma assignValue_isObject c key val :
  isObject c = true -> isObject (Lodash.assignValue c key val) = true.
Proof.
  destruct c; simpl; try discriminate; intros _; [|reflexivity].
  now destruct (Lodash.arrayIndex key).
Qed.

Lemma baseSet_isObject c p v :
  isObject c = true -> p <> [] -> isObject (Lodash.baseSet c p v) = true.
Proof.
  intros Hc Hp. destruct p as [|k [|next rest]]; [congruence | |].
  - now apply assignValue_isObject.
  - cbn [Lodash.baseSet].
    destruct (Lodash.prop c k); try (now apply assignValue_isObject).
    exact Hc.
Qed.

(** The write of a leaf. *)
Lemma baseSet_leaf props k v :
  k <> "__proto__" ->
  Lodash.baseSet (JObj props) [k] v = JObj (Obj.define props k v).
Proof.
  intros Hk. cbn [Lodash.baseSet Lodash.assignValue].
  now rewrite ObjFacts.put_define.
Qed.

(** One write below a key whose value is already a container. *)
Lemma baseSet_existing props k c p v :
  Obj.get props k = Some c -> isObject c = true -> p <> [] ->
  Lodash.baseSet (JObj props) (k :: p) v
  = JObj (Obj.define props k (Lodash.baseSet c p v)).
Proof.
  intros Hget Hc Hp. destruct p as [|next p']; [congruence|].
  cbn [Lodash.baseSet Lodash.prop Lodash.assignValue].
  rewrite Hget, Hc. now rewrite (ObjFacts.put_own _ _ _ _ c Hget).
Qed.

(** One write below a key that is not there yet, and that the object
    does not inherit. *)
Lemma baseSet_fresh props k next p v :
  Obj.get props k = None -> Lodash.inherited k = false ->
  Lodash.isIndex next = false ->
  Lodash.baseSet (JObj props) (k :: next :: p) v
  = JObj (Obj.define props k (Lodash.baseSet (JObj []) (next :: p) v)).
Proof.
  intros Hget Hown Hi.
  cbn [Lodash.baseSet Lodash.prop Lodash.assignValue].
  unfold Lodash.fresh. rewrite Hget, Hown, Hi.
  now rewrite ObjFacts.put_define by now apply inherited_proto.
Qed.

(** Below the name of an inherited property nothing is written that
    JSON shows. *)
Lemma baseSet_inherited props k next p v :
  Obj.get props k = None -> Lodash.inherited k = true ->
  Lodash.baseSet (JObj props) (k :: next :: p) v = JObj props.
Proof.
  intros Hget Hin. cbn [Lodash.baseSet Lodash.prop].
  now rewrite Hget, Hin.
Qed.

(** The keys of the object after a write. *)
Lemma baseSet_keys props k rest v :
  exists props',
    Lodash.baseSet (JObj props) (k :: rest) v = JObj props'
    /\ forall k', In k' (Obj.keys props') ->
                  k' = k \/ In k' (Obj.keys props).
Proof.
  destruct rest as [|next rest'].
  - eexists. split; [reflexivity|]. apply ObjFacts.keys_put.
  - cbn [Lodash.baseSet]. destruct (Lodash.prop (JObj props) k).
    + eexists. split; [reflexivity|]. apply ObjFacts.keys_put.
    + exists props. split; [reflexivity|]. now right.
    + eexists. split; [reflexivity|]. apply ObjFacts.keys_put.
Qed.

Lemma build_existing l :
  forall c props k,
    isObject c = true -> Obj.get props k = Some c ->
    (forall pv, In pv l -> fst pv <> []) ->
    build (JObj props) (map (at_key k) l)
    = JObj (Obj.define props k (build c l)).
Proof.
  induction l as [|[p v] rest IH]; intros c props k Hc Hget Hne.
  - simpl. now rewrite ObjFacts.set_same.
  - assert (Hp : p <> []) by (apply (Hne (p, v)); now left).
    unfold build in *. cbn [map fold_left at_key fst snd].
    rewrite (baseSet_existing props k c p v Hget Hc Hp).
    rewrite (IH (Lodash.baseSet c p v)).
    + now rewrite ObjFacts.set_set.
    + now apply baseSet_isObject.
    + apply ObjFacts.get_set_same.
    + intros pv Hin. apply Hne. now right.
Qed.

Lemma build_fresh l props k :
  l <> [] -> Obj.get props k = None -> Lodash.inherited k = false ->
  (forall pv, In pv l ->
     exists next p, fst pv = next :: p /\ Lodash.isIndex next = false) ->
  build (JObj props) (map (at_key k) l)
  = JObj (Obj.define props k (build (JObj []) l)).
Proof.
  intros Hl Hget Hown Hheads.
  destruct l as [|[p v] rest]; [congruence|].
  destruct (Hheads (p, v)) as (next & p' & E & Hi); [now left|].
  simpl in E. subst p.
  unfold build. cbn [map fold_left at_key fst snd].
  rewrite (baseSet_fresh props k next p' v Hget Hown Hi).
  fold (build (JObj (Obj.define props k
                       (Lodash.baseSet (JObj []) (next :: p') v)))
              (map (at_key k) rest)).
  rewrite (build_existing rest (Lodash.baseSet (JObj []) (next :: p') v)).
  - now rewrite ObjFacts.set_set.
  - now apply baseSet_isObject.
  - apply ObjFacts.get_set_same.
  - intros pv Hin. destruct (Hheads pv) as (n & q & -> & _); [now right|].
    discriminate.
Qed.

Lemma build_app start l1 l2 :
  build start (l1 ++ l2) = build (build start l1) l2.
Proof. unfold build. apply fold_left_app. Qed.

(** The writes of the leaves of [props], in order, on an object that
    has none of the keys of [props]. *)
Lemma build_paths props :
  Forall (fun kv => rebuilt (snd kv)) props ->
  Forall (fun kv => well_formed true (snd kv) = true
                    /\ own_key (fst kv) (snd kv) = true) props ->
  NoDup (map fst props) ->
  forall base,
    (forall k, In k (map fst props) -> ~ In k (Obj.keys base)) ->
    build (JObj base) (paths (JObj props)) = JObj (base ++ props).
Proof.
  intros IH Hwf Hnd.
  induction props as [|[k v] rest IHrest]; intros base Hfresh.
  - simpl. now rewrite app_nil_r.
  - inversion IH as [|? ? IHv IH']; subst.
    inversion Hwf as [|? ? [Hv Ho] Hwf']; subst.
    inversion Hnd as [|? ? Hk Hnd']; subst. simpl in IHv, Hv, Ho.
    assert (Hget : Obj.get base k = None).
    { apply ObjFacts.get_None_keys. apply Hfresh. now left. }
    rewrite paths_object_cons, build_app.
    assert (Hone : build (JObj base) (map (at_key k) (paths v))
                   = JObj (base ++ [(k, v)])).
    { destruct (isObject v) eqn:Hobj.
      - rewrite build_fresh.
        + now rewrite IHv, ObjFacts.set_fresh.
        + now apply paths_inhabited.
        + assumption.
        + now apply (own_key_object k v).
        + intros pv Hin. destruct v; try discriminate.
          destruct (paths_object_head _ _ Hin) as (k' & r & E & Hk').
          exists k', r. split; [assumption|].
          apply well_formed_object in Hv. destruct Hv as (_ & _ & Hall).
          apply in_map_iff in Hk'. destruct Hk' as (kv & <- & Hkv).
          rewrite Forall_forall in Hall.
          destruct (Hall _ Hkv) as (_ & _ & Hi & _). now apply Hi.
      - assert (Hp : paths v = [([], v)])
          by (destruct v; try reflexivity; discriminate).
        rewrite Hp. unfold build. cbn [map fold_left at_key fst snd].
        rewrite baseSet_leaf by (eapply own_key_proto; eassumption).
        now rewrite ObjFacts.set_fresh. }
    rewrite Hone, IHrest; try assumption.
    + now rewrite <- app_assoc.
    + intros k' Hin. unfold Obj.keys. rewrite map_app, in_app_iff. simpl.
      intros [Hb | [<- | []]].
      * apply (Hfresh k'); [now right | exact Hb].
      * contradiction.
Qed.

Lemma rebuilt_all v : rebuilt v.
Proof.
  induction v as [| b | z | s | items IH | props IH] using json_ind;
    intros Hwf Hobj; try discriminate.
  apply well_formed_object in Hwf. destruct Hwf as (_ & Hnd & Hall).
  rewrite (build_paths props IH); try assumption.
  - reflexivity.
  - eapply Forall_impl; [|exact Hall]. now intros kv (_ & Ho & _ & Hv).
  - intros k _ [].
Qed.

(** [lodash.set] on the dotted form of a plain path walks that path. *)
Lemma castPath_dotted acc p :
  Forall (fun k => Lodash.has_dot k = false) (Obj.keys acc) ->
  plain_path p -> p <> [] ->
  Lodash.castPath acc (dotted p) = p.
Proof.
  intros Hacc Hp Hne. unfold Lodash.castPath.
  destruct (Lodash.has_dot (dotted p)) eqn:Hdot; simpl.
  - assert (Hhas : Obj.has acc (dotted p) = false).
    { unfold Obj.has. destruct (Obj.get acc (dotted p)) eqn:G; [|reflexivity].
      apply ObjFacts.get_In in G.
      rewrite Forall_forall in Hacc.
      assert (Lodash.has_dot (dotted p) = false).
      { apply Hacc. unfold Obj.keys. apply in_map_iff.
        now exists (dotted p, j). }
      congruence. }
    rewrite Hhas. apply split_dotted; [assumption|].
    now apply plain_path_dotless.
  - destruct p as [|k [|k' rest]]; [congruence | reflexivity |].
    unfold dotted in Hdot.
    change (Str.join_with "." (k :: k' :: rest))
      with (k ++ "." ++ Str.join_with "." (k' :: rest))%string in Hdot.
    now rewrite has_dot_app in Hdot.
Qed.

Lemma set_walks acc p v :
  Forall (fun k => Lodash.has_dot k = false) (Obj.keys acc) ->
  plain_path p -> p <> [] ->
  JObj (Lodash.set acc (dotted p) v) = Lodash.baseSet (JObj acc) p v.
Proof.
  intros Hacc Hp Hne. unfold Lodash.set.
  rewrite castPath_dotted by assumption.
  destruct p as [|k rest]; [congruence|].
  destruct (baseSet_keys acc k rest v) as (props' & -> & _). reflexivity.
Qed.

Lemma set_keys_dotless acc p v :
  Forall (fun k => Lodash.has_dot k = false) (Obj.keys acc) ->
  plain_path p -> p <> [] ->
  Forall (fun k => Lodash.has_dot k = false)
         (Obj.keys (Lodash.set acc (dotted p) v)).
Proof.
  intros Hacc Hp Hne.
  assert (E := set_walks acc p v Hacc Hp Hne).
  destruct p as [|k rest]; [congruence|].
  destruct (baseSet_keys acc k rest v) as (props' & E' & Hkeys).
  rewrite E' in E. injection E as ->.
  apply Forall_forall. intros k' Hin.
  apply Hkeys in Hin. destruct Hin as [-> | Hin].
  - inversion Hp; subst. now apply plain_key_dotless.
  - rewrite Forall_forall in Hacc. now apply Hacc.
Qed.

Lemma unflatten_build l :
  forall acc,
    Forall (fun k => Lodash.has_dot k = false) (Obj.keys acc) ->
    (forall pv, In pv l -> plain_path (fst pv) /\ fst pv <> []) ->
    JObj (fold_left (fun a kv => Lodash.set a (fst kv) (snd kv))
                    (map (keyed []) l) acc)
    = build (JObj acc) l.
Proof.
  induction l as [|[p v] rest IH]; intros acc Hacc Hl; [reflexivity|].
  destruct (Hl (p, v)) as [Hp Hne]; [now left|]. simpl in Hp, Hne.
  unfold build. simpl. unfold keyed at 1. simpl.
  rewrite <- (set_walks acc p v Hacc Hp Hne).
  apply IH.
  - now apply set_keys_dotless.
  - intros pv Hin. apply Hl. now right.
Qed.

End Rebuild.

(* ================================================================== *)
(** ** The matcher decides the language of its pattern *)

Module RegexFacts.
Import Regex.

Lemma exec_rep_eq r k lo hi s :
  exec (Rep r lo hi) s k =
  match hi with
  | O => (lo =? 0)%nat && k s
  | S hi' =>
      exec r s (fun s' => exec (Rep r (Nat.pred lo) hi') s' k)
      || ((lo =? 0)%nat && k s)
  end.
Proof. destruct hi; reflexivity. Qed.

Lemma exec_spec r :
  forall s k,
    exec r s k = true <->
    exists s1 s2, s = s1 ++ s2 /\ lang r s1 /\ k s2 = true.
Proof.
  induction r as [p | r1 IH1 r2 IH2 | r1 IH1 r2 IH2 | r IH | r IH lo hi];
    intros s k.
  - simpl. split.
    + destruct s as [|c s']; [discriminate|].
      rewrite andb_true_iff. intros [Hp Hk].
      exists [c], s'. repeat split; eauto.
    + intros (s1 & s2 & -> & (c & -> & Hp) & Hk). simpl.
      now rewrite Hp, Hk.
  - simpl. rewrite IH1. split.
    + intros (s1 & s' & -> & H1 & H2). apply IH2 in H2.
      destruct H2 as (s2 & s3 & -> & H2 & Hk).
      exists (s1 ++ s2), s3. rewrite <- app_assoc.
      repeat split; try assumption. now exists s1, s2.
    + intros (s12 & s3 & -> & (s1 & s2 & -> & H1 & H2) & Hk).
      exists s1, (s2 ++ s3). rewrite <- app_assoc.
      repeat split; try assumption. apply IH2. now exists s2, s3.
  - simpl. rewrite orb_true_iff, IH1, IH2. split.
    + intros [(s1 & s2 & E & H & Hk) | (s1 & s2 & E & H & Hk)];
        exists s1, s2; tauto.
    + intros (s1 & s2 & E & [H | H] & Hk); [left | right];
        exists s1, s2; tauto.
  - simpl. rewrite orb_true_iff, IH. split.
    + intros [(s1 & s2 & E & H & Hk) | Hk].
      * exists s1, s2. tauto.
      * exists [], s. tauto.
    + intros (s1 & s2 & E & [-> | H] & Hk).
      * right. now subst.
      * left. now exists s1, s2.
  - revert lo s. induction hi as [|hi IHhi]; intros lo s;
      rewrite exec_rep_eq.
    + rewrite andb_true_iff, Nat.eqb_eq. split.
      * intros [-> Hk]. exists [], s. repeat split; try assumption.
        exists 0. simpl. split; [lia | reflexivity].
      * intros (s1 & s2 & -> & (n & Hn & Hpow) & Hk).
        assert (n = 0) by lia. subst n. simpl in Hpow. subst s1.
        split; [lia | assumption].
    + rewrite orb_true_iff, andb_true_iff, Nat.eqb_eq, IH. split.
      * intros [(s1 & s' & -> & H1 & Hrest) | [-> Hk]].
        -- apply IHhi in Hrest.
           destruct Hrest as (s2 & s3 & -> & (n & Hn & Hpow) & Hk).
           exists (s1 ++ s2), s3. rewrite <- app_assoc.
           repeat split; try assumption.
           exists (S n). split; [lia|]. simpl. now exists s1, s2.
        -- exists [], s. repeat split; try assumption.
           exists 0. simpl. split; [lia | reflexivity].
      * intros (s12 & s3 & -> & (n & Hn & Hpow) & Hk).
        destruct n as [|n].
        -- simpl in Hpow. subst s12. right. split; [lia | assumption].
        -- simpl in Hpow. destruct Hpow as (s1 & s2 & -> & H1 & Hpow).
           left. exists s1, (s2 ++ s3). rewrite <- app_assoc.
           repeat split; try assumption.
           apply IHhi. exists s2, s3. repeat split; try assumption.
           exists n. split; [lia | assumption].
Qed.

(** [test] is membership in the language. *)
Lemma test_spec r name :
  test r name = true <-> lang r (list_ascii_of_string name).
Proof.
  unfold test. rewrite exec_spec. split.
  - intros (s1 & s2 & E & H & Hk). destruct s2; [|discriminate].
    rewrite app_nil_r in E. now subst.
  - intros H. exists (list_ascii_of_string name), [].
    rewrite app_nil_r. now repeat split.
Qed.

Lemma power_class p n s :
  power (lang (Class p)) n s <->
  List.length s = n /\ Forall (fun c => p c = true) s.
Proof.
  revert s. induction n as [|n IH]; intros s; simpl.
  - split.
    + intros ->. now split.
    + intros [H _]. now destruct s.
  - split.
    + intros (s1 & s2 & -> & (c & -> & Hp) & Hpow).
      apply IH in Hpow. destruct Hpow as [Hlen Hall]. simpl.
      split; [now rewrite Hlen | now constructor].
    + intros [Hlen Hall]. destruct s as [|c s']; [discriminate|].
      inversion Hall; subst. injection Hlen as Hlen.
      exists [c], s'. repeat split.
      * now exists c.
      * apply IH. now split.
Qed.

Lemma rep_class p lo hi s :
  lang (Rep (Class p) lo hi) s <->
  lo <= List.length s <= hi /\ Forall (fun c => p c = true) s.
Proof.
  simpl. split.
  - intros (n & Hn & Hpow). apply power_class in Hpow.
    destruct Hpow as [<- Hall]. now split.
  - intros [Hlen Hall]. exists (List.length s). split; [assumption|].
    apply power_class. now split.
Qed.

(** The pattern of locale names, in words. *)
Lemma tagPattern_spec sep s :
  lang (tagPattern sep) s <-> LocaleName sep s.
Proof.
  unfold tagPattern, LocaleName.
  change (lang (Cat ?a (Cat (Opt (Cat ?b ?c)) (Opt (Cat ?d (Alt ?e ?f))))) s)
    with (exists s1 s2, s = s1 ++ s2 /\ lang a s1 /\
          exists s3 s4, s2 = s3 ++ s4
            /\ (s3 = [] \/ exists t1 t2, s3 = t1 ++ t2 /\ lang b t1 /\ lang c t2)
            /\ (s4 = [] \/ exists t1 t2, s4 = t1 ++ t2 /\ lang d t1
                                         /\ (lang e t2 \/ lang f t2))).
  split.
  - intros (language & s2 & -> & Hl & script & region & -> & Hs & Hr).
    exists language, script, region.
    apply rep_class in Hl.
    split; [reflexivity|]. split; [assumption|]. split.
    + destruct Hs as [-> | (t1 & t2 & -> & (c & -> & Hc) & Ht2)];
        [now left | right].
      apply rep_class in Ht2. exists c, t2.
      repeat split; try tauto; lia.
    + destruct Hr as [-> | (t1 & t2 & -> & (c & -> & Hc) & Ht2)];
        [now left | right].
      exists c, t2. split; [reflexivity|]. split; [assumption|].
      destruct Ht2 as [Ht2 | Ht2]; apply rep_class in Ht2; [left | right];
        (split; [lia | tauto]).
  - intros (language & script & region & -> & Hl & Hs & Hr).
    exists language, (script ++ region).
    split; [reflexivity|]. split; [now apply rep_class|].
    exists script, region. split; [reflexivity|]. split.
    + destruct Hs as [-> | (c & w & -> & Hc & Hlen & Hw)]; [now left | right].
      exists [c], w. split; [reflexivity|]. split; [now exists c|].
      apply rep_class. split; [lia | assumption].
    + destruct Hr as [-> | (c & w & -> & Hc & Hw)]; [now left | right].
      exists [c], w. split; [reflexivity|]. split; [now exists c|].
      destruct Hw as [[Hlen Hw] | [Hlen Hw]]; [left | right];
        apply rep_class; (split; [lia | assumption]).
Qed.

Lemma localePattern_eq : localePattern = tagPattern is_separator.
Proof. reflexivity. Qed.

Lemma isLocale_spec name :
  isLocale name = true <->
  LocaleName is_separator (list_ascii_of_string name).
Proof.
  unfold isLocale. rewrite localePattern_eq, test_spec.
  apply tagPattern_spec.
Qed.

Lemma LocaleTag_spec name :
  LocaleTag name <-> test (tagPattern is_hyphen) name = true.
Proof.
  unfold LocaleTag. now rewrite test_spec, tagPattern_spec.
Qed.

End RegexFacts.

(* ================================================================== *)
(** ** The detector *)

Module DetectorFacts.

Lemma difference_In x array values :
  In x (difference array values) <-> In x array /\ ~ In x values.
Proof.
  unfold difference. rewrite filter_In, negb_true_iff.
  split; intros [Ha Hv]; split; try assumption.
  - intros Hin.
    assert (existsb (String.eqb x) values = true) as E
        by (apply existsb_exists; exists x; split;
            [assumption | apply String.eqb_refl]).
    congruence.
  - destruct (existsb (String.eqb x) values) eqn:E; [|reflexivity].
    apply existsb_exists in E. destruct E as (y & Hy & Exy).
    apply String.eqb_eq in Exy. subst y. contradiction.
Qed.

Lemma all_Some {A B : Type} (f : A -> option B) xs ys :
  all f xs = Some ys -> Forall2 (fun x y => f x = Some y) xs ys.
Proof.
  revert ys. induction xs as [|x rest IH]; simpl; intros ys.
  - intros [= <-]. constructor.
  - destruct (f x) eqn:Ex; [|discriminate].
    destruct (all f rest) eqn:Er; [|discriminate].
    intros [= <-]. constructor; auto.
Qed.


Lemma Forall2_In_l {A B : Type} (R : A -> B -> Prop) xs ys x :
  Forall2 R xs ys -> In x xs -> exists y, In y ys /\ R x y.
Proof.
  induction 1 as [|x0 y0 xs' ys' Hxy _ IH]; simpl; [intros []|].
  intros [<- | Hin].
  - exists y0. split; [now left | assumption].
  - destruct (IH Hin) as (y & Hy & Hr). exists y. split; [now right | assumption].
Qed.

Lemma Forall2_In_r {A B : Type} (R : A -> B -> Prop) xs ys y :
  Forall2 R xs ys -> In y ys -> exists x, In x xs /\ R x y.
Proof.
  induction 1 as [|x0 y0 xs' ys' Hxy _ IH]; simpl; [intros []|].
  intros [<- | Hin].
  - exists x0. split; [now left | assumption].
  - destruct (IH Hin) as (x & Hx & Hr). exists x. split; [now right | assumption].
Qed.

Lemma keys_fromEntries {V : Type} (l : list (string * V)) k :
  In k (Obj.keys (Obj.fromEntries l)) <-> In k (map fst l).
Proof.
  unfold Obj.fromEntries. rewrite ObjFacts.keys_spread. simpl. tauto.
Qed.

Lemma get_spread {V : Type} (b : Record V) :
  forall (a : Record V) k v,
    Obj.get (Obj.spread a b) k = Some v ->
    In (k, v) b \/ Obj.get a k = Some v.
Proof.
  unfold Obj.spread.
  induction b as [|[k0 v0] rest IH]; simpl; intros a k v H; [now right|].
  apply IH in H. destruct H as [H | H]; [left; now right|].
  destruct (String.eqb k0 k) eqn:E.
  - apply String.eqb_eq in E. subst k0.
    rewrite ObjFacts.get_set_same in H. injection H as ->. left. now left.
  - apply String.eqb_neq in E.
    rewrite ObjFacts.get_set_other in H by assumption. now right.
Qed.

Lemma get_fromEntries {V : Type} (l : list (string * V)) k v :
  Obj.get (Obj.fromEntries l) k = Some v -> In (k, v) l.
Proof.
  intros H. apply get_spread in H. destruct H as [H | H];
    [assumption | discriminate].
Qed.

Lemma get_of_key {V : Type} (obj : Record V) k :
  In k (Obj.keys obj) -> exists v, Obj.get obj k = Some v.
Proof.
  intros Hin. destruct (Obj.get obj k) eqn:G; [now eexists|].
  apply ObjFacts.get_None_keys in G. contradiction.
Qed.

(** What one reference file contributes. *)
Lemma missingInFile_spec d referenceFolder localeFolder refFilePath group :
  missingInFile d referenceFolder localeFolder refFilePath = Some group ->
  forall fullKey text,
    In (fullKey, text) group <->
    exists key,
      fullKey
      = (Path.relative referenceFolder refFilePath ++ ":::" ++ key)%string
      /\ lacks d referenceFolder localeFolder refFilePath key text.
Proof.
  unfold missingInFile, lacks, flatAt.
  fold (counterpart referenceFolder localeFolder refFilePath).
  destruct (FS.readJson d refFilePath) as [refJson|] eqn:Eref; [|discriminate].
  set (target := counterpart referenceFolder localeFolder refFilePath).
  assert (Htarget :
            forall targetJson,
              (if FS.pathExists d target then FS.readJson d target
               else Some []) = Some targetJson ->
              flattenObject targetJson ""
              = match FS.readJson d target with
                | Some doc => flattenObject doc ""
                | None => flattenObject [] ""
                end).
  { intros targetJson. unfold FS.pathExists, FS.readJson.
    destruct (FS.lookup d target) as [[[doc|]|cs]|]; congruence. }
  destruct (if FS.pathExists d target then FS.readJson d target else Some [])
    as [targetJson|] eqn:Et; [|discriminate].
  rewrite <- (Htarget targetJson eq_refl).
  intros [= <-] fullKey text. rewrite in_map_iff. split.
  - intros (key & E & Hin). injection E as <- <-.
    apply difference_In in Hin. destruct Hin as [Hr Ht].
    exists key. split; [reflexivity|]. split; [|assumption].
    unfold valueAt. destruct (get_of_key _ _ Hr) as (v & ->). reflexivity.
  - intros (key & -> & Hget & Ht). exists key. split.
    + unfold valueAt. now rewrite Hget.
    + apply difference_In. split; [|assumption].
      apply ObjFacts.get_In in Hget.
      unfold Obj.keys. apply in_map_iff. now exists (key, text).
Qed.


(** The paths [glob] returns lie below the folder, and [relative]
    gives back the part below it. *)
Lemma relative_app folder rel :
  Path.relative folder (folder ++ rel) = Str.join_with "/" rel.
Proof.
  unfold Path.relative. f_equal.
  induction folder as [|a rest IH]; simpl.
  - now destruct rel.
  - now rewrite String.eqb_refl.
Qed.

Lemma below_app d folder files refFilePath :
  FS.below d folder = Some files -> In refFilePath files ->
  exists rel, refFilePath = folder ++ rel
              /\ Path.relative folder refFilePath = Str.join_with "/" rel.
Proof.
  unfold FS.below.
  destruct (FS.stat d folder) as [[c|cs]| |]; try discriminate.
  - intros [= <-] Hin. apply in_map_iff in Hin. destruct Hin as (rel & <- & _).
    exists rel. split; [reflexivity | apply relative_app].
  - now intros [= <-] [].
Qed.

(** A folder that is a pattern for itself is looked up as it is. *)
Lemma literal_positive folder :
  Path.literal folder = true -> FS.negative folder = false.
Proof.
  destruct folder as [|[|a name] rest]; try reflexivity.
  unfold Path.literal. cbn [forallb Str.forallb].
  rewrite !andb_true_iff, negb_true_iff. intros [[Ha _] _].
  unfold FS.negative.
  destruct (Ascii.eqb a "!") eqn:E.
  - apply Ascii.eqb_eq in E. subst a. discriminate Ha.
  - destruct a as [[] [] [] [] [] [] [] []]; try reflexivity; discriminate E.
Qed.

Lemma glob_literal d folder :
  Path.literal folder = true -> FS.glob d folder = FS.below d folder.
Proof. intros H. unfold FS.glob. now rewrite literal_positive. Qed.

Lemma glob_cases d folder :
  FS.glob d folder = Some [] \/ FS.glob d folder = FS.below d folder.
Proof. unfold FS.glob. destruct (FS.negative folder); auto. Qed.

Lemma glob_app d folder files refFilePath :
  FS.glob d folder = Some files -> In refFilePath files ->
  exists rel, refFilePath = folder ++ rel
              /\ Path.relative folder refFilePath = Str.join_with "/" rel.
Proof.
  destruct (glob_cases d folder) as [-> | ->].
  - now intros [= <-] [].
  - apply below_app.
Qed.

(** For names as a file system has them, the counterpart of
    [referenceFolder/rel] is [localeFolder/rel]. *)
Lemma push_proper segs :
  Forall (fun n => proper_name n = true) segs ->
  forall stack, fold_left Path.push segs stack = rev segs ++ stack.
Proof.
  induction 1 as [|seg rest Hseg _ IH]; intros stack; simpl; [reflexivity|].
  rewrite IH, <- app_assoc. simpl. f_equal. unfold Path.push.
  unfold proper_name in Hseg. rewrite !andb_true_iff, !negb_true_iff in Hseg.
  destruct Hseg as [[[-> ->] ->] _]. reflexivity.
Qed.

Lemma join_proper base rel :
  rel <> [] -> Forall (fun n => proper_name n = true) rel ->
  Path.join base [Str.join_with "/" rel] = base ++ rel.
Proof.
  intros Hne Hall. unfold Path.join. simpl. rewrite app_nil_r.
  rewrite (StrFacts.split_join "/" rel Hne).
  - rewrite push_proper by assumption.
    now rewrite rev_app_distr, !rev_involutive.
  - eapply Forall_impl; [|exact Hall]. intros n Hn.
    unfold proper_name in Hn. rewrite !andb_true_iff in Hn. tauto.
Qed.

Lemma counterpart_proper referenceFolder localeFolder rel :
  rel <> [] -> Forall (fun n => proper_name n = true) rel ->
  counterpart referenceFolder localeFolder (referenceFolder ++ rel)
  = localeFolder ++ rel.
Proof.
  intros Hne Hall. unfold counterpart.
  rewrite relative_app. now apply join_proper.
Qed.



End DetectorFacts.

(* ================================================================== *)
(** ** The orchestrator *)

Module OrchestratorFacts.

Lemma launch_dry w job :
  launch true w job
  = ({| disk := disk w;
        console := console w ++ dryRunReport job;
        requests := requests w |},
     Settled Fulfilled).
Proof.
  unfold launch, dryRunReport, log.
  destruct (List.length (Obj.keys (snd job)) =? 0)%nat; simpl;
    [reflexivity|].
  now rewrite <- app_assoc.
Qed.

Lemma launchAll_dry jobs :
  forall w,
    launchAll true w jobs
    = ({| disk := disk w;
          console := console w ++ flat_map dryRunReport jobs;
          requests := requests w |},
       map (fun _ => Settled Fulfilled) jobs).
Proof.
  induction jobs as [|job rest IH]; intros w; simpl.
  - rewrite app_nil_r. now destruct w.
  - rewrite launch_dry, IH. simpl. now rewrite <- app_assoc.
Qed.

Section Runs.
Variable gpt : Capability.
Variable folderPath : string.

Lemma finishAll_settled ps :
  (forall p, In p ps -> settled p) ->
  forall w, finishAll gpt folderPath w ps = (w, ps).
Proof.
  induction ps as [|p rest IH]; intros Hall w; simpl; [reflexivity|].
  destruct (Hall p (or_introl eq_refl)) as (o & ->). simpl.
  rewrite IH; [reflexivity|]. intros q Hq. apply Hall. now right.
Qed.

(** A settled pipeline does not resume. *)
Lemma resumes_unsettled w p w' p' :
  resumes gpt folderPath w p w' p' -> ~ settled p.
Proof. intros H (o & ->). inversion H. Qed.

Lemma step_needs_unsettled r r' :
  step gpt folderPath r r' -> exists p, In p (pipelines r) /\ ~ settled p.
Proof.
  intros H. destruct H as [w before p after w' p' Hres]. simpl.
  exists p. split; [apply in_elt | eapply resumes_unsettled; eassumption].
Qed.

Lemma steps_none r r' :
  (forall p, In p (pipelines r) -> settled p) ->
  steps gpt folderPath r r' -> r' = r.
Proof.
  intros Hall H. destruct H as [|r1 r2 r3 Hstep _]; [reflexivity|].
  destruct (step_needs_unsettled _ _ Hstep) as (p & Hin & Hp).
  now specialize (Hall p Hin).
Qed.

Lemma steps_trans r1 r2 r3 :
  steps gpt folderPath r1 r2 -> steps gpt folderPath r2 r3 ->
  steps gpt folderPath r1 r3.
Proof.
  induction 1 as [|a b c Hab _ IH]; intros H; [assumption|].
  econstructor; [eassumption | now apply IH].
Qed.

Lemma steps_one r1 r2 :
  step gpt folderPath r1 r2 -> steps gpt folderPath r1 r2.
Proof. intros H. econstructor; [eassumption | constructor]. Qed.

Lemma with_disk_same w : with_disk w (disk w) = w.
Proof. now destruct w. Qed.

Lemma with_disk_twice w d1 d2 : with_disk (with_disk w d1) d2 = with_disk w d2.
Proof. reflexivity. Qed.

Lemma callback_step before after w locale total c rest failed :
  step gpt folderPath
    {| now := w;
       pipelines :=
         before ++ Writing locale total (c :: rest) failed :: after |}
    {| now := fst (proceed folderPath w locale total [] rest failed c);
       pipelines :=
         before
         ++ snd (proceed folderPath w locale total [] rest failed c)
         :: after |}.
Proof.
  constructor.
  exact (callback_resumes gpt folderPath w locale total [] c rest failed).
Qed.

Lemma storing_completes fullKey updated :
  completes gpt folderPath (Storing fullKey updated).
Proof.
  intros before after w locale total rest failed.
  pose proof (callback_step before after w locale total
                (Storing fullKey updated) rest failed) as H.
  unfold proceed in H. cbn [advance complete] in *. unfold storing.
  destruct (FS.writeJson (disk w) _ updated) as [d2|];
    simpl in *; apply steps_one; exact H.
Qed.

Lemma ensuring_completes fullKey updated :
  completes gpt folderPath (Ensuring fullKey updated).
Proof.
  intros before after w locale total rest failed.
  pose proof (callback_step before after w locale total
                (Ensuring fullKey updated) rest failed) as H.
  unfold proceed in H. cbn [advance complete] in *. unfold ensuring.
  destruct (FS.ensureDir (disk w) _) as [d1|]; simpl in *.
  - eapply steps_step; [exact H|].
    pose proof (storing_completes fullKey updated before after
                  (with_disk w d1) locale total rest failed) as H'.
    exact H'.
  - apply steps_one. exact H.
Qed.

Lemma reading_completes fullKey translatedValue :
  completes gpt folderPath (Reading fullKey translatedValue).
Proof.
  intros before after w locale total rest failed.
  pose proof (callback_step before after w locale total
                (Reading fullKey translatedValue) rest failed) as H.
  unfold proceed in H. cbn [advance complete] in *. unfold reading.
  destruct (FS.readJson (disk w) _) as [json|]; simpl in *.
  - eapply steps_step; [exact H|].
    pose proof (ensuring_completes fullKey
                  (mergedInto json fullKey translatedValue) before after
                  (with_disk w (disk w)) locale total rest failed) as H'.
    cbn [complete] in H'. rewrite with_disk_same in *. exact H'.
  - rewrite with_disk_same in *. apply steps_one. exact H.
Qed.

Lemma checking_completes fullKey translatedValue :
  completes gpt folderPath (Checking fullKey translatedValue).
Proof.
  intros before after w locale total rest failed.
  pose proof (callback_step before after w locale total
                (Checking fullKey translatedValue) rest failed) as H.
  unfold proceed in H. cbn [advance complete] in *.
  destruct (FS.pathExists (disk w) _); simpl in *;
    rewrite with_disk_same in H; (eapply steps_step; [exact H|]).
  - exact (reading_completes fullKey translatedValue before after
             w locale total rest failed).
  - exact (ensuring_completes fullKey (mergedInto [] fullKey translatedValue)
             before after w locale total rest failed).
Qed.

Lemma callback_completes c : completes gpt folderPath c.
Proof.
  destruct c; [apply checking_completes | apply reading_completes
               | apply ensuring_completes | apply storing_completes].
Qed.

(** The schedule of [finishCallbacks] is a run of the pipeline. *)
Lemma finishCallbacks_steps before after running :
  forall w locale total failed,
    steps gpt folderPath
      {| now := w;
         pipelines := before ++ Writing locale total running failed :: after |}
      {| now := fst (finishCallbacks folderPath w locale total running failed);
         pipelines :=
           before
           ++ Settled (snd (finishCallbacks folderPath w locale total
                                            running failed)) :: after |}.
Proof.
  induction running as [|c rest IH]; intros w locale total failed.
  - simpl. destruct failed; simpl; apply steps_one; constructor; constructor.
  - simpl.
    pose proof (callback_completes c before after w locale total rest failed)
      as Hc.
    destruct (complete (disk w) folderPath locale c) as [d o]. simpl in Hc.
    eapply steps_trans; [exact Hc | apply IH].
Qed.

Lemma finishWrites_callbacks pending :
  forall w locale total failed,
    finishWrites folderPath w locale total pending failed
    = finishCallbacks folderPath w locale total (started pending) failed.
Proof.
  induction pending as [|entry rest IH]; intros w locale total failed;
    [reflexivity|].
  cbn [finishWrites started map finishCallbacks fst snd].
  unfold writeTranslation.
  destruct (complete (disk w) folderPath locale _) as [d o]. apply IH.
Qed.

Lemma finish_steps before after p w :
  steps gpt folderPath
    {| now := w; pipelines := before ++ p :: after |}
    {| now := fst (finish gpt folderPath w p);
       pipelines :=
         before ++ Settled (snd (finish gpt folderPath w p)) :: after |}.
Proof.
  destruct p as [o | locale total entries | locale total running failed];
    simpl.
  - constructor.
  - destruct (translateWithGPT gpt entries locale) as [translated|] eqn:E.
    + eapply steps_step;
        [constructor; apply answer_arrives; exact E|].
      rewrite finishWrites_callbacks. apply finishCallbacks_steps.
    + apply steps_one. constructor. now apply answer_fails.
  - apply finishCallbacks_steps.
Qed.

Lemma finishAll_steps ps :
  forall before w,
    steps gpt folderPath
      {| now := w; pipelines := before ++ ps |}
      {| now := fst (finishAll gpt folderPath w ps);
         pipelines := before ++ snd (finishAll gpt folderPath w ps) |}.
Proof.
  induction ps as [|p rest IH]; intros before w; simpl; [constructor|].
  pose proof (finish_steps before rest p w) as Hp.
  destruct (finish gpt folderPath w p) as [w1 o]. simpl in Hp.
  specialize (IH (before ++ [Settled o]) w1).
  destruct (finishAll gpt folderPath w1 rest) as [w2 os]. simpl in *.
  rewrite <- !app_assoc in IH. simpl in IH.
  eapply steps_trans; eassumption.
Qed.

Lemma finishAll_all_settled ps :
  forall w p, In p (snd (finishAll gpt folderPath w ps)) -> settled p.
Proof.
  induction ps as [|q rest IH]; intros w p; simpl; [intros []|].
  destruct (finish gpt folderPath w q) as [w1 o].
  specialize (IH w1 p).
  destruct (finishAll gpt folderPath w1 rest) as [w2 os]. simpl in *.
  intros [<- | Hin]; [now exists o | now apply IH].
Qed.

(** The promise of a pipeline settles once. *)
Lemma status_stable w p w' p' o :
  resumes gpt folderPath w p w' p' -> status p = Some o -> status p' = Some o.
Proof.
  intros H. destruct H; simpl; try discriminate.
  - unfold proceed.
    destruct (advance (disk w) folderPath locale c) as [d [c'|o']];
      simpl; destruct failed; simpl; try tauto; discriminate.
  - tauto.
Qed.

Lemma promise_all_rejected ps :
  promise_all ps = Some Rejected <->
  Exists (fun p => status p = Some Rejected) ps.
Proof.
  unfold promise_all.
  destruct (existsb (fun p => is_rejected (status p)) ps) eqn:E.
  - split; [intros _ | reflexivity].
    apply existsb_exists in E. destruct E as (p & Hin & Hp).
    apply Exists_exists. exists p. split; [assumption|].
    destruct (status p) as [[|]|]; try discriminate. reflexivity.
  - split.
    + destruct (forallb _ ps); discriminate.
    + intros H. apply Exists_exists in H. destruct H as (p & Hin & Hp).
      assert (existsb (fun p => is_rejected (status p)) ps = true) as E'
          by (apply existsb_exists; exists p; split;
              [assumption | now rewrite Hp]).
      congruence.
Qed.

Lemma promise_all_fulfilled ps :
  promise_all ps = Some Fulfilled <->
  Forall (fun p => p = Settled Fulfilled) ps.
Proof.
  unfold promise_all.
  destruct (existsb (fun p => is_rejected (status p)) ps) eqn:E.
  - split; [discriminate|]. intros H.
    apply existsb_exists in E. destruct E as (p & Hin & Hp).
    rewrite Forall_forall in H. rewrite (H p Hin) in Hp. discriminate.
  - destruct (forallb (fun p => is_fulfilled (status p)) ps) eqn:F.
    + split; [intros _ | reflexivity].
      rewrite forallb_forall in F. apply Forall_forall. intros p Hin.
      specialize (F p Hin).
      destruct p as [[|]| |? ? ? []]; simpl in F; try discriminate.
      reflexivity.
    + split; [discriminate|]. intros H.
      assert (forallb (fun p => is_fulfilled (status p)) ps = true) as F'.
      { apply forallb_forall. intros p Hin.
        rewrite Forall_forall in H. now rewrite (H p Hin). }
      congruence.
Qed.

(** [Promise.all] settles once. *)
Lemma promise_all_step r r' o :
  step gpt folderPath r r' ->
  promise_all (pipelines r) = Some o -> promise_all (pipelines r') = Some o.
Proof.
  intros H. destruct H as [w before p after w' p' Hres]. simpl.
  destruct o.
  - rewrite promise_all_fulfilled, Forall_forall. intros Hall.
    exfalso. apply (resumes_unsettled _ _ _ _ Hres).
    exists Fulfilled. apply Hall. apply in_elt.
  - rewrite !promise_all_rejected, !Exists_exists.
    intros (q & Hin & Hq).
    apply in_app_iff in Hin. destruct Hin as [Hin | [<- | Hin]].
    + exists q. split; [|assumption]. apply in_app_iff. now left.
    + exists p'. split; [apply in_elt|].
      eapply status_stable; eassumption.
    + exists q. split; [|assumption]. apply in_app_iff. right. now right.
Qed.

Lemma promise_all_steps r r' o :
  steps gpt folderPath r r' ->
  promise_all (pipelines r) = Some o -> promise_all (pipelines r') = Some o.
Proof.
  induction 1 as [|r1 r2 r3 Hstep _ IH]; intros H; [assumption|].
  apply IH. eapply promise_all_step; eassumption.
Qed.

(** A step touches one pipeline. *)
Lemma step_elsewhere r r' :
  step gpt folderPath r r' ->
  exists before p after p',
    pipelines r = before ++ p :: after
    /\ pipelines r' = before ++ p' :: after
    /\ resumes gpt folderPath (now r) p (now r') p'.
Proof.
  intros H. destruct H as [w before p after w' p' Hres].
  now exists before, p, after, p'.
Qed.

End Runs.

(** The translated keys: what stands before the first colon of a
    line, so without any colon. *)
Lemma parseLine_keys result line :
  Forall (fun k => colon_free k = true) (Obj.keys result) ->
  Forall (fun k => colon_free k = true) (Obj.keys (parseLine result line)).
Proof.
  intros Hres. unfold parseLine.
  destruct (StrFacts.split_char_head_free ":" line) as (h & t & -> & Hh).
  destruct (negb (Str.is_empty h) && negb (is_nil t)); [|assumption].
  apply Forall_forall. intros k Hin.
  apply ObjFacts.keys_put in Hin. destruct Hin as [-> | Hin].
  - now apply StrFacts.forallb_trim.
  - rewrite Forall_forall in Hres. now apply Hres.
Qed.

Lemma parseResponse_keys response :
  Forall (fun k => colon_free k = true) (Obj.keys (parseResponse response)).
Proof.
  unfold parseResponse.
  assert (Hgen : forall lines result,
             Forall (fun k => colon_free k = true) (Obj.keys result) ->
             Forall (fun k => colon_free k = true)
                    (Obj.keys (fold_left parseLine lines result))).
  { induction lines as [|line rest IH]; intros result Hres; simpl;
      [assumption|].
    apply IH. now apply parseLine_keys. }
  apply Hgen. constructor.
Qed.

(** A line without colon gives no entry. *)
Lemma parseLine_skips result line :
  colon_free line = true -> parseLine result line = result.
Proof.
  intros H. unfold parseLine.
  rewrite StrFacts.split_char_free by exact H. simpl.
  now rewrite andb_false_r.
Qed.

(** The completion message carries the count given at the launch. *)
Lemma finishWrites_console folderPath pending :
  forall w locale total failed,
    console (fst (finishWrites folderPath w locale total pending failed))
    = console w
      ++ match snd (finishWrites folderPath w locale total pending failed) with
         | Fulfilled => [Updated locale total]
         | Rejected => []
         end.
Proof.
  induction pending as [|entry rest IH]; intros w locale total failed; simpl.
  - destruct failed; simpl; [now rewrite app_nil_r | reflexivity].
  - destruct (writeTranslation (disk w) folderPath locale
                               (fst entry) (snd entry)) as [d o].
    now rewrite IH.
Qed.

Lemma launch_total w job :
  forall locale total entries,
    snd (launch false w job) = AwaitingTranslation locale total entries ->
    total = List.length (snd job) /\ locale = fst job /\ entries = snd job.
Proof.
  intros locale total entries. unfold launch.
  destruct (List.length (Obj.keys (snd job)) =? 0)%nat; simpl;
    [discriminate|].
  intros [= <- <- <-]. split; [|now split].
  unfold Obj.keys. apply length_map.
Qed.

End OrchestratorFacts.

(* ================================================================== *)
(** ** The file system: what a write keeps *)

Module FSFacts.

Lemma keeps_refl n q : keeps n n q.
Proof.
  unfold keeps. destruct (FS.lookup n q) as [[c|cs]|]; eauto.
Qed.

Lemma keeps_trans n1 n2 n3 q : keeps n1 n2 q -> keeps n2 n3 q -> keeps n1 n3 q.
Proof.
  unfold keeps. destruct (FS.lookup n1 q) as [[c|cs]|]; [| |trivial].
  - intros ->. trivial.
  - intros (cs2 & ->). trivial.
Qed.

Lemma keeps_exists n n' q :
  keeps n n' q -> FS.pathExists n q = true -> FS.pathExists n' q = true.
Proof.
  unfold keeps, FS.pathExists.
  destruct (FS.lookup n q) as [[c|cs]|]; [| |discriminate].
  - now intros ->.
  - now intros (cs' & ->).
Qed.

Lemma keeps_readJson n n' q doc :
  keeps n n' q -> FS.readJson n q = Some doc -> FS.readJson n' q = Some doc.
Proof.
  unfold keeps, FS.readJson.
  destruct (FS.lookup n q) as [[[c|]|cs]|]; try discriminate.
  now intros -> [= ->].
Qed.

(** [ensureDir] only adds directories. *)
Lemma ensureDir_keeps p :
  forall n n' q, FS.ensureDir n p = Some n' -> keeps n n' q.
Proof.
  induction p as [|name rest IH]; intros n n' q.
  - simpl. destruct n; [discriminate|]. intros [= <-]. apply keeps_refl.
  - simpl. destruct n as [c|children]; [discriminate|].
    destruct (FS.ensureDir
                match Obj.get children name with
                | Some c => c
                | None => Dir []
                end rest) as [child'|] eqn:E; [|discriminate].
    intros [= <-]. unfold keeps.
    destruct q as [|name' q'].
    + simpl. eauto.
    + simpl. destruct (String.eqb name name') eqn:En.
      * apply String.eqb_eq in En. subst name'.
        rewrite ObjFacts.get_set_same.
        destruct (Obj.get children name) as [c|]; [|trivial].
        exact (IH c child' q' E).
      * apply String.eqb_neq in En.
        rewrite ObjFacts.get_set_other by assumption.
        destruct (Obj.get children name') as [c|]; [|trivial].
        destruct (FS.lookup c q') as [[x|xs]|]; eauto.
Qed.

Lemma ensureDir_is_dir p :
  forall n n', FS.ensureDir n p = Some n' ->
               exists children, FS.lookup n' p = Some (Dir children).
Proof.
  induction p as [|name rest IH]; intros n n'; simpl.
  - destruct n as [c|children]; [discriminate|]. intros [= <-]. eauto.
  - destruct n as [c|children]; [discriminate|].
    destruct (FS.ensureDir _ rest) as [child'|] eqn:E; [|discriminate].
    intros [= <-]. simpl. rewrite ObjFacts.get_set_same. eauto.
Qed.

(** [writeJson] stores the document and keeps every other path. *)
Lemma writeJson_keeps p :
  forall n n' doc q,
    FS.writeJson n p doc = Some n' -> q <> p -> keeps n n' q.
Proof.
  induction p as [|name rest IH]; intros n n' doc q; [discriminate|].
  simpl. destruct n as [c|children]; [discriminate|].
  intros H Hq. unfold keeps.
  destruct q as [|name' q']; [destruct rest;
    [destruct (Obj.get children name) as [[?|?]|]|
     destruct (Obj.get children name) as [child|];
     [destruct (FS.writeJson child _ doc)|]];
    try discriminate; injection H as <-; simpl; eauto|].
  simpl. destruct (String.eqb name name') eqn:En.
  - apply String.eqb_eq in En. subst name'.
    destruct rest as [|name2 rest2].
    + assert (Hq' : q' <> []) by congruence.
      destruct (Obj.get children name) as [[c|cs]|]; try discriminate.
      * destruct q'; [congruence | exact I].
      * exact I.
    + destruct (Obj.get children name) as [child|]; [|trivial].
      destruct (FS.writeJson child (name2 :: rest2) doc) as [child'|] eqn:E;
        [|discriminate].
      injection H as <-. simpl. rewrite ObjFacts.get_set_same.
      apply (IH child child' doc q' E). congruence.
  - apply String.eqb_neq in En.
    assert (Hn' : exists x, n' = Dir (Obj.define children name x)).
    { destruct rest.
      - destruct (Obj.get children name) as [[?|?]|]; try discriminate;
          injection H as <-; eauto.
      - destruct (Obj.get children name) as [child|]; [|discriminate].
        destruct (FS.writeJson child _ doc); [|discriminate].
        injection H as <-. eauto. }
    destruct Hn' as (x & ->). simpl.
    rewrite ObjFacts.get_set_other by assumption.
    destruct (Obj.get children name') as [c|]; [|trivial].
    destruct (FS.lookup c q') as [[y|ys]|]; eauto.
Qed.

Lemma writeJson_stored p :
  forall n n' doc,
    FS.writeJson n p doc = Some n' ->
    FS.lookup n' p = Some (File (Some doc)).
Proof.
  induction p as [|name rest IH]; intros n n' doc; [discriminate|].
  simpl. destruct n as [c|children]; [discriminate|].
  destruct rest as [|name2 rest2].
  - destruct (Obj.get children name) as [[?|?]|]; try discriminate;
      intros [= <-]; simpl; now rewrite ObjFacts.get_set_same.
  - destruct (Obj.get children name) as [child|]; [|discriminate].
    destruct (FS.writeJson child (name2 :: rest2) doc) as [child'|] eqn:E;
      [|discriminate].
    intros [= <-]. cbn [FS.lookup]. rewrite ObjFacts.get_set_same.
    exact (IH child child' doc E).
Qed.

(** The target of [writeJson] is a file or nothing before, so that the
    write removes no path. *)
Lemma writeJson_exists p :
  forall n n' doc q,
    FS.writeJson n p doc = Some n' ->
    FS.pathExists n q = true -> FS.pathExists n' q = true.
Proof.
  intros n n' doc q H Hq.
  destruct (list_eq_dec string_dec q p) as [-> | Hne].
  - unfold FS.pathExists. now rewrite (writeJson_stored p n n' doc H).
  - eapply keeps_exists; [eapply writeJson_keeps; eassumption | assumption].
Qed.

(** [lookup] in terms of [stat]. *)
Lemma lookup_stat n p :
  FS.lookup n p = match FS.stat n p with
                  | FS.Entry x => Some x
                  | _ => None
                  end.
Proof.
  revert n. induction p as [|name rest IH]; intros n; simpl; [reflexivity|].
  destruct n as [c|children]; [reflexivity|].
  destruct (Obj.get children name); [apply IH | reflexivity].
Qed.

Lemma lookup_app p :
  forall n q,
    FS.lookup n (p ++ q) = match FS.lookup n p with
                           | Some x => FS.lookup x q
                           | None => None
                           end.
Proof.
  induction p as [|name rest IH]; intros n q; simpl; [reflexivity|].
  destruct n as [c|children]; [reflexivity|].
  destruct (Obj.get children name); [apply IH | reflexivity].
Qed.

(** Where the operating system arrives, the normalised path leads. *)
Lemma follow_lookup d segs :
  forall stack up cur x,
    passed d stack up -> FS.lookup d (rev stack) = Some cur ->
    FS.follow up cur segs = Some x ->
    FS.lookup d (rev (fold_left Path.push segs stack)) = Some x.
Proof.
  induction segs as [|seg rest IH]; intros stack up cur x Hup Hcur; simpl.
  - now intros [= <-].
  - unfold Path.push at 2.
    destruct (String.eqb seg "") eqn:E0; simpl.
    + now apply IH.
    + destruct cur as [c|children]; [discriminate|].
      destruct (String.eqb seg ".") eqn:E1.
      * now apply IH.
      * destruct (String.eqb seg "..") eqn:E2.
        -- destruct up as [|parent up'].
           ++ destruct stack; [|contradiction]. now apply IH.
           ++ destruct stack as [|s stack']; [contradiction|].
              destruct Hup as [Hparent Hup']. now apply IH.
        -- destruct (Obj.get children seg) as [child|] eqn:G; [|discriminate].
           apply IH.
           ++ split; assumption.
           ++ simpl. rewrite lookup_app, Hcur. simpl. now rewrite G.
Qed.

Lemma access_lookup d p x :
  FS.access d p = Some x -> FS.lookup d (Path.join [] [p]) = Some x.
Proof.
  unfold FS.access, Path.join. destruct (Str.is_empty p); [discriminate|].
  simpl. rewrite app_nil_r.
  apply (follow_lookup d _ [] [] d x); [exact I | reflexivity].
Qed.

(** A directory that can be listed at the path as written can be
    listed at the normalised path. *)
Lemma listDir_readdir d p dirEntries :
  FS.listDir d p = Some dirEntries ->
  FS.readdir d (Path.join [] [p]) = Some dirEntries.
Proof.
  unfold FS.listDir, FS.readdir.
  destruct (FS.access d p) as [x|] eqn:E; [|discriminate].
  now rewrite (access_lookup d p x E).
Qed.

End FSFacts.

(* ================================================================== *)
(** ** The write callback and the runs *)

Module WriteFacts.

Lemma absent_unread d target :
  FS.pathExists d target = false -> FS.readJson d target = None.
Proof.
  unfold FS.pathExists, FS.readJson.
  destruct (FS.lookup d target); [discriminate | reflexivity].
Qed.

Lemma writeTranslation_cases d folderPath locale fullKey value :
  let target := targetOf folderPath locale fullKey in
  let result := writeTranslation d folderPath locale fullKey value in
  (snd result = Rejected /\ forall q, keeps d (fst result) q)
  \/ (snd result = Fulfilled
      /\ (FS.pathExists d target = true ->
          exists old, FS.readJson d target = Some old)
      /\ exists d1,
          FS.ensureDir d (Path.dirname target) = Some d1
          /\ FS.writeJson d1 target
               (mergedInto (documentAt d target) fullKey value)
             = Some (fst result)).
Proof.
  unfold writeTranslation. cbn [complete].
  set (target := targetOf folderPath locale fullKey). cbv zeta.
  assert (Hens :
            forall updated,
              let result := ensuring d folderPath locale fullKey updated in
              (snd result = Rejected /\ forall q, keeps d (fst result) q)
              \/ (snd result = Fulfilled
                  /\ exists d1,
                      FS.ensureDir d (Path.dirname target) = Some d1
                      /\ FS.writeJson d1 target updated = Some (fst result))).
  { intros updated. unfold ensuring, storing. fold target. cbv zeta.
    destruct (FS.ensureDir d (Path.dirname target)) as [d1|] eqn:E1;
      [|left; split; [reflexivity | intros q; apply FSFacts.keeps_refl]].
    destruct (FS.writeJson d1 target updated) as [d2|] eqn:E2.
    - right. split; [reflexivity|]. exists d1. now split.
    - left. split; [reflexivity|]. intros q. simpl.
      eapply FSFacts.ensureDir_keeps; eassumption. }
  unfold documentAt.
  destruct (FS.pathExists d target) eqn:Ex.
  - unfold reading. fold target.
    destruct (FS.readJson d target) as [json|] eqn:Er;
      [|left; split; [reflexivity | intros q; apply FSFacts.keeps_refl]].
    destruct (Hens (mergedInto json fullKey value)) as [H | (Hok & H)];
      [now left | right].
    split; [exact Hok|]. split; [intros _; now exists json | exact H].
  - rewrite (absent_unread d target Ex).
    destruct (Hens (mergedInto [] fullKey value)) as [H | (Hok & H)];
      [now left | right].
    split; [exact Hok|]. split; [discriminate | exact H].
Qed.

Lemma writeTranslation_keeps d folderPath locale fullKey value q :
  q <> targetOf folderPath locale fullKey ->
  keeps d (fst (writeTranslation d folderPath locale fullKey value)) q.
Proof.
  intros Hq.
  destruct (writeTranslation_cases d folderPath locale fullKey value)
    as [[_ H] | (_ & _ & d1 & E1 & E2)]; [apply H|].
  eapply FSFacts.keeps_trans.
  - eapply FSFacts.ensureDir_keeps; eassumption.
  - eapply FSFacts.writeJson_keeps; eassumption.
Qed.

Lemma writeTranslation_exists d folderPath locale fullKey value q :
  FS.pathExists d q = true ->
  FS.pathExists (fst (writeTranslation d folderPath locale fullKey value)) q
  = true.
Proof.
  intros Hq.
  destruct (writeTranslation_cases d folderPath locale fullKey value)
    as [[_ H] | (_ & _ & d1 & E1 & E2)].
  - eapply FSFacts.keeps_exists; [apply H | assumption].
  - eapply FSFacts.writeJson_exists; [eassumption|].
    eapply FSFacts.keeps_exists; [|eassumption].
    eapply FSFacts.ensureDir_keeps; eassumption.
Qed.

(** One step of a callback removes no path. *)
Lemma advance_exists d folderPath locale c q :
  FS.pathExists d q = true ->
  FS.pathExists (fst (advance d folderPath locale c)) q = true.
Proof.
  intros Hq. destruct c as [k v | k v | k updated | k updated];
    cbn [advance].
  - now destruct (FS.pathExists d (targetOf folderPath locale k)).
  - now destruct (FS.readJson d (targetOf folderPath locale k)).
  - destruct (FS.ensureDir d _) as [d1|] eqn:E; [|assumption].
    eapply FSFacts.keeps_exists; [|eassumption].
    eapply FSFacts.ensureDir_keeps; eassumption.
  - destruct (FS.writeJson d _ updated) as [d2|] eqn:E; [|assumption].
    eapply FSFacts.writeJson_exists; eassumption.
Qed.

Section Runs.
Variable gpt : Capability.
Variable folderPath : string.

Lemma grows_refl w : grows w w.
Proof.
  split; [reflexivity|]. split; [exists []; now rewrite app_nil_r | auto].
Qed.

Lemma grows_trans w1 w2 w3 : grows w1 w2 -> grows w2 w3 -> grows w1 w3.
Proof.
  intros (R1 & (m1 & C1) & P1) (R2 & (m2 & C2) & P2).
  split; [congruence|]. split.
  - exists (m1 ++ m2). now rewrite C2, C1, app_assoc.
  - auto.
Qed.

Lemma resumes_grows w p w' p' :
  resumes gpt folderPath w p w' p' -> grows w w'.
Proof.
  intros H. destruct H; try apply grows_refl.
  - unfold proceed.
    destruct (advance (disk w) folderPath locale c) as [d p] eqn:E.
    simpl. split; [reflexivity|]. split; [exists []; now rewrite app_nil_r|].
    intros q Hq.
    pose proof (advance_exists (disk w) folderPath locale c q Hq) as H.
    now rewrite E in H.
  - split; [reflexivity|]. split; [now eexists | auto].
Qed.

Lemma steps_grows r r' :
  steps gpt folderPath r r' -> grows (now r) (now r').
Proof.
  induction 1 as [r | r1 r2 r3 Hstep _ IH]; [apply grows_refl|].
  eapply grows_trans; [|exact IH].
  destruct Hstep as [w before p after w' p' Hres]. simpl.
  eapply resumes_grows; eassumption.
Qed.

Lemma resumes_idle w p w' p' :
  (forall locale formatted, gpt locale formatted = None) ->
  resumes gpt folderPath w p w' p' -> idle p -> w' = w /\ idle p'.
Proof.
  intros Hfail H Hidle. destruct H; simpl in Hidle; try contradiction.
  - now split.
  - unfold translateWithGPT in H. rewrite Hfail in H. discriminate.
Qed.

Lemma steps_idle r r' :
  (forall locale formatted, gpt locale formatted = None) ->
  steps gpt folderPath r r' ->
  (forall p, In p (pipelines r) -> idle p) ->
  now r' = now r /\ (forall p, In p (pipelines r') -> idle p).
Proof.
  intros Hfail. induction 1 as [r | r1 r2 r3 Hstep _ IH]; intros Hidle;
    [now split|].
  destruct Hstep as [w before p after w' p' Hres]. simpl in *.
  destruct (resumes_idle w p w' p' Hfail Hres) as [-> Hp'];
    [apply Hidle; apply in_elt|].
  apply IH. intros q Hq.
  apply in_app_iff in Hq. destruct Hq as [Hq | [<- | Hq]].
  - apply Hidle. apply in_app_iff. now left.
  - exact Hp'.
  - apply Hidle. apply in_app_iff. right. now right.
Qed.

End Runs.

Lemma launch_idle dryRun w job : idle (snd (launch dryRun w job)).
Proof.
  unfold launch.
  destruct (List.length (Obj.keys (snd job)) =? 0)%nat; [exact I|].
  destruct dryRun; exact I.
Qed.

Lemma launch_disk dryRun w job : disk (fst (launch dryRun w job)) = disk w.
Proof.
  unfold launch.
  destruct (List.length (Obj.keys (snd job)) =? 0)%nat; [reflexivity|].
  destruct dryRun; reflexivity.
Qed.

Lemma launchAll_idle dryRun jobs :
  forall w,
    disk (fst (launchAll dryRun w jobs)) = disk w
    /\ forall p, In p (snd (launchAll dryRun w jobs)) -> idle p.
Proof.
  induction jobs as [|job rest IH]; intros w; simpl; [split; [reflexivity | intros p []]|].
  pose proof (launch_idle dryRun w job) as Hi.
  pose proof (launch_disk dryRun w job) as Hd.
  destruct (launch dryRun w job) as [w1 p1]. simpl in Hi, Hd.
  specialize (IH w1). destruct (launchAll dryRun w1 rest) as [w2 ps].
  simpl in *. destruct IH as [IHd IHp].
  split; [congruence|]. intros p [<- | Hp]; auto.
Qed.

(** The requests of the launch: one for each locale with missing
    keys, in order. *)
Lemma launchAll_requests jobs :
  forall w,
    requests (fst (launchAll false w jobs))
    = requests w
      ++ map (fun job => (fst job, formatEntries (snd job)))
             (filter (fun job => negb (is_nil (snd job))) jobs)
    /\ List.length (snd (launchAll false w jobs)) = List.length jobs.
Proof.
  induction jobs as [|[locale missing] rest IH]; intros w; simpl.
  - now rewrite app_nil_r.
  - unfold launch at 1. simpl.
    destruct missing as [|entry more]; simpl.
    + specialize (IH (log w (NothingToTranslate locale))).
      destruct (launchAll false (log w (NothingToTranslate locale)) rest)
        as [w2 ps]. simpl in *. destruct IH as [-> ->]. now split.
    + match goal with
      | |- context [launchAll false ?w1 rest] =>
          specialize (IH w1); destruct (launchAll false w1 rest) as [w2 ps]
      end.
      simpl in *. destruct IH as [-> ->].
      rewrite <- app_assoc. now split.
Qed.

(** Jobs without missing keys: each one is reported, nothing else
    happens. *)
Lemma launchAll_nothing dryRun jobs :
  Forall (fun job : string * Record json => snd job = []) jobs ->
  forall w,
    launchAll dryRun w jobs
    = ({| disk := disk w;
          console :=
            console w ++ map (fun job => NothingToTranslate (fst job)) jobs;
          requests := requests w |},
       map (fun _ => Settled Fulfilled) jobs).
Proof.
  induction 1 as [|[locale missing] rest Hjob _ IH]; intros w; simpl.
  - rewrite app_nil_r. now destruct w.
  - simpl in Hjob. subst missing. unfold launch at 1. simpl.
    rewrite IH. simpl. now rewrite <- app_assoc.
Qed.

End WriteFacts.

(* ================================================================== *)
(** ** The detector, further *)

Module DetectorMore.
Import DetectorFacts.


Lemma all_In {A B : Type} (f : A -> option B) xs ys y :
  all f xs = Some ys -> In y ys -> exists x, In x xs /\ f x = Some y.
Proof.
  intros H Hy. apply all_Some in H. exact (Forall2_In_r _ _ _ _ H Hy).
Qed.

Lemma all_In_l {A B : Type} (f : A -> option B) xs ys x :
  all f xs = Some ys -> In x xs -> exists y, In y ys /\ f x = Some y.
Proof.
  intros H Hx. apply all_Some in H. exact (Forall2_In_l _ _ _ _ H Hx).
Qed.



(** The entries of the result, as pairs. *)
Lemma getMissing_entries d referenceFolder localeFolder missing :
  getMissingTranslationsForLocale d referenceFolder localeFolder
  = Some missing ->
  exists files groups,
    FS.glob d referenceFolder = Some files
    /\ missing = Obj.fromEntries (List.concat groups)
    /\ forall fullKey text,
         In (fullKey, text) (List.concat groups) <->
         missing_entry d referenceFolder localeFolder files fullKey text.
Proof.
  unfold getMissingTranslationsForLocale.
  destruct (FS.glob d referenceFolder) as [files|]; [|discriminate].
  destruct (all _ _) as [groups|] eqn:Hgroups; [|discriminate].
  intros [= <-]. exists files, groups.
  split; [reflexivity|]. split; [reflexivity|].
  apply all_Some in Hgroups.
  intros fullKey text. unfold missing_entry. rewrite in_concat. split.
  - intros (group & Hg & Hin).
    destruct (Forall2_In_r _ _ _ _ Hgroups Hg) as (file & Hfile & Hsome).
    apply (missingInFile_spec _ _ _ _ _ Hsome) in Hin.
    destruct Hin as (key & Hk). exists file, key. tauto.
  - intros (file & key & Hfile & Hk).
    destruct (Forall2_In_l _ _ _ _ Hgroups Hfile) as (group & Hg & Hsome).
    exists group. split; [assumption|].
    apply (missingInFile_spec _ _ _ _ _ Hsome). now exists key.
Qed.

Lemma getMissing_keys d referenceFolder localeFolder missing :
  getMissingTranslationsForLocale d referenceFolder localeFolder
  = Some missing ->
  exists files,
    FS.glob d referenceFolder = Some files
    /\ forall fullKey,
         In fullKey (Obj.keys missing) <->
         exists text,
           missing_entry d referenceFolder localeFolder files fullKey text.
Proof.
  intros H.
  destruct (getMissing_entries _ _ _ _ H) as (files & groups & Hg & -> & Hent).
  exists files. split; [exact Hg|]. intros fullKey.
  rewrite keys_fromEntries, in_map_iff. split.
  - intros ([k text] & <- & Hin). exists text. now apply Hent.
  - intros (text & Hin). exists (fullKey, text). split; [reflexivity|].
    now apply Hent.
Qed.


(** A composite key has a colon. *)
Lemma colon_free_composite (relativePath key : string) :
  colon_free (relativePath ++ ":::" ++ key) = false.
Proof.
  unfold colon_free.
  induction relativePath as [|a s IH]; simpl in *; [reflexivity|].
  rewrite IH. apply andb_false_r.
Qed.


Lemma glob_absent d folder :
  FS.stat d folder = FS.NoEntry -> FS.glob d folder = Some [].
Proof.
  intros H. unfold FS.glob, FS.below. rewrite H.
  now destruct (FS.negative folder).
Qed.

Lemma present_In {A : Type} (l : list (option A)) x :
  In x (present l) <-> In (Some x) l.
Proof.
  induction l as [|[y|] rest IH]; simpl.
  - tauto.
  - rewrite IH. split; intros [H | H]; auto; left; congruence.
  - rewrite IH. split; [auto | intros [H | H]; [discriminate | assumption]].
Qed.

(** No locale is named [__proto__]: the assignments that fill
    [result] all create a property. *)
Lemma assigned_fromEntries results :
  Forall (fun done : string * Record json => isLocale (fst done) = true)
         results ->
  assigned results = Obj.fromEntries results.
Proof.
  unfold assigned, Obj.fromEntries, Obj.spread.
  generalize (@nil (string * Record json)) as acc.
  induction results as [|[locale missing] rest IH]; intros acc Hall;
    [reflexivity|].
  inversion Hall as [|? ? Hloc Hrest]; subst. simpl in *.
  rewrite ObjFacts.put_define; [now apply IH|].
  intros ->. discriminate Hloc.
Qed.

Lemma assigned_Forall (Q : Record json -> Prop) results :
  Forall (fun done => Q (snd done)) results ->
  Forall (fun job => Q (snd job)) (assigned results).
Proof.
  unfold assigned.
  assert (H : forall acc : MissingTranslations,
             Forall (fun job => Q (snd job)) acc ->
             Forall (fun done => Q (snd done)) results ->
             Forall (fun job => Q (snd job))
                    (fold_left (fun result done =>
                                  Obj.put result (fst done) (snd done))
                               results acc)).
  { induction results as [|[locale missing] rest IH]; intros acc Hacc Hall;
      [assumption|].
    inversion Hall; subst. simpl. apply IH; [|assumption].
    now apply ObjFacts.put_Forall. }
  intros Hall. apply H; [constructor | assumption].
Qed.

(** What [getAllMissingTranslations] returns, entry by entry. *)
Lemma getAll_entries d folderPath referenceLocale result :
  getAllMissingTranslations d folderPath referenceLocale = Some result ->
  exists dirEntries results,
    FS.listDir d folderPath = Some dirEntries
    /\ result = Obj.fromEntries results
    /\ (forall locale missing,
           In (locale, missing) results <->
           In locale dirEntries /\ isLocale locale = true
           /\ locale <> referenceLocale
           /\ getMissingTranslationsForLocale
                d (Path.join [] [folderPath; referenceLocale])
                (Path.join [] [folderPath; locale]) = Some missing)
    /\ (forall locale,
           In locale dirEntries -> isLocale locale = true ->
           locale <> referenceLocale ->
           exists missing, In (locale, missing) results).
Proof.
  unfold getAllMissingTranslations, discoverLocales.
  destruct (FS.listDir d folderPath) as [dirEntries|]; [|discriminate].
  destruct (FS.glob d _) as [referenceFiles|]; [|discriminate].
  destruct (all (FS.readJson d) _) as [docs|]; [|discriminate].
  destruct (all _ (filter isLocale dirEntries)) as [results|] eqn:E;
    [|discriminate].
  intros [= <-]. exists dirEntries, (present results).
  split; [reflexivity|]. split.
  { apply assigned_fromEntries, Forall_forall. intros [l m] Hin.
    apply present_In in Hin.
    destruct (all_In _ _ _ _ E Hin) as (l' & Hl & Hf).
    apply filter_In in Hl. destruct Hl as [_ Hloc].
    unfold missingOfLocale in Hf.
    destruct (String.eqb l' referenceLocale); [discriminate|].
    destruct (getMissingTranslationsForLocale d _ _); [|discriminate].
    injection Hf as <- _. exact Hloc. }
  assert (Hex : forall locale,
             In locale dirEntries -> isLocale locale = true ->
             locale <> referenceLocale ->
             exists missing, In (Some (locale, missing)) results).
  { intros locale Hl Hloc Hne.
    assert (Hin : In locale (filter isLocale dirEntries))
      by (apply filter_In; now split).
    destruct (all_In_l _ _ _ _ E Hin) as (y & Hy & Hf).
    unfold missingOfLocale in Hf.
    apply String.eqb_neq in Hne. rewrite Hne in Hf.
    destruct (getMissingTranslationsForLocale d _ _) as [m|];
      [|discriminate].
    injection Hf as <-. now exists m. }
  split; [|intros locale Hl Hloc Hne;
           destruct (Hex locale Hl Hloc Hne) as (m & Hm);
           exists m; now apply present_In].
  intros locale missing. rewrite present_In. split.
  - intros Hin. destruct (all_In _ _ _ _ E Hin) as (l & Hl & Hf).
    apply filter_In in Hl. destruct Hl as [Hl Hloc].
    unfold missingOfLocale in Hf.
    destruct (String.eqb l referenceLocale) eqn:Eref; [discriminate|].
    apply String.eqb_neq in Eref.
    destruct (getMissingTranslationsForLocale d _ _) as [m|] eqn:Em;
      [|discriminate].
    injection Hf as <- <-. now repeat split.
  - intros (Hl & Hloc & Hne & Hm).
    assert (Hin : In locale (filter isLocale dirEntries))
      by (apply filter_In; now split).
    destruct (all_In_l _ _ _ _ E Hin) as (y & Hy & Hf).
    unfold missingOfLocale in Hf.
    apply String.eqb_neq in Hne. rewrite Hne, Hm in Hf.
    now injection Hf as <-.
Qed.

(** Detection against a reference folder that does not exist. *)
Lemma getMissing_no_reference d referenceFolder localeFolder :
  FS.stat d referenceFolder = FS.NoEntry ->
  getMissingTranslationsForLocale d referenceFolder localeFolder = Some [].
Proof.
  intros H. unfold getMissingTranslationsForLocale.
  now rewrite glob_absent.
Qed.

Lemma getAll_no_reference d folderPath referenceLocale dirEntries :
  FS.listDir d folderPath = Some dirEntries ->
  FS.stat d (Path.join [] [folderPath; referenceLocale]) = FS.NoEntry ->
  exists jobs,
    getAllMissingTranslations d folderPath referenceLocale = Some jobs
    /\ Forall (fun job => snd job = []) jobs.
Proof.
  intros Hdir Href. unfold getAllMissingTranslations, discoverLocales.
  rewrite Hdir, glob_absent by assumption. simpl.
  assert (Hall : forall locales,
             exists results,
               all (missingOfLocale d folderPath referenceLocale
                      (Path.join [] [folderPath; referenceLocale])) locales
               = Some results
               /\ Forall (fun job : string * Record json => snd job = [])
                         (present results)).
  { induction locales as [|l rest (results & E & F)]; simpl.
    - exists []. split; [reflexivity | constructor].
    - rewrite E. unfold missingOfLocale at 1.
      destruct (String.eqb l referenceLocale).
      + exists (None :: results). now split.
      + rewrite getMissing_no_reference by assumption.
        exists (Some (l, []) :: results). split; [reflexivity|].
        simpl. now constructor. }
  destruct (Hall (filter isLocale dirEntries)) as (results & -> & F).
  eexists. split; [reflexivity|].
  apply (assigned_Forall (fun m => m = [])). exact F.
Qed.

End DetectorMore.

(* ================================================================== *)
(** ** Cutting and joining, further *)

Module StrMore.
Local Open Scope string_scope.

Lemma join_split c s :
  Str.join_with (String c EmptyString) (Str.split_char c s) = s.
Proof.
  induction s as [|a s IH]; [reflexivity|].
  simpl. destruct (Ascii.eqb a c) eqn:E.
  - apply Ascii.eqb_eq in E. subst a.
    destruct (Str.split_char c s) as [|h t] eqn:Es.
    + simpl in IH. now subst s.
    + change (Str.join_with (String c EmptyString) (EmptyString :: h :: t))
        with (String c (Str.join_with (String c EmptyString) (h :: t))).
      now rewrite IH.
  - destruct (Str.split_char c s) as [|h t] eqn:Es.
    + simpl in IH. now subst s.
    + destruct t as [|h' t'].
      * simpl in *. now subst.
      * change (Str.join_with (String c EmptyString) (String a h :: h' :: t'))
          with (String a (Str.join_with (String c EmptyString) (h :: h' :: t'))).
        now rewrite IH.
Qed.

Lemma split_char_cons c s : Str.split_char c s <> [].
Proof.
  destruct s as [|a s]; simpl; [discriminate|].
  destruct (Ascii.eqb a c); [discriminate|].
  destruct (Str.split_char c s); discriminate.
Qed.

Lemma split_char_forallb p c s :
  Str.forallb p s = true ->
  Forall (fun piece => Str.forallb p piece = true) (Str.split_char c s).
Proof.
  induction s as [|a s IH]; simpl.
  - intros _. now constructor.
  - rewrite andb_true_iff. intros [Ha Hs]. specialize (IH Hs).
    destruct (Ascii.eqb a c).
    + now constructor.
    + destruct (Str.split_char c s) as [|h t].
      * constructor; [simpl; now rewrite Ha | constructor].
      * inversion IH; subst. constructor; [simpl; now rewrite Ha|assumption].
Qed.

End StrMore.

Module ParseFacts.

Lemma parseResponse_nothing lines :
  Forall (fun line => colon_free line = true) lines ->
  forall result, fold_left parseLine lines result = result.
Proof.
  induction 1 as [|line rest Hline _ IH]; intros result; simpl;
    [reflexivity|].
  now rewrite OrchestratorFacts.parseLine_skips, IH.
Qed.

Lemma get_colon_free (result : Record string) key :
  Forall (fun k => colon_free k = true) (Obj.keys result) ->
  colon_free key = false -> Obj.get result key = None.
Proof.
  intros Hall Hkey. apply ObjFacts.get_None_keys. intros Hin.
  rewrite Forall_forall in Hall. specialize (Hall key Hin). congruence.
Qed.

End ParseFacts.

(* ================================================================== *)
(** ** Locale names, further *)

Module LocaleFacts.

Lemma length_list s : String.length s = List.length (list_ascii_of_string s).
Proof. induction s as [|a s IH]; simpl; [reflexivity | now rewrite IH]. Qed.

Lemma letters_tag s : letters s -> Forall (fun c => tag_char c = true) s.
Proof.
  apply Forall_impl. intros c H. unfold tag_char. now rewrite H.
Qed.

Lemma digits_tag s : digits s -> Forall (fun c => tag_char c = true) s.
Proof.
  apply Forall_impl. intros c H. unfold tag_char. rewrite H.
  now rewrite orb_true_r.
Qed.

Lemma separator_tag c : is_separator c = true -> tag_char c = true.
Proof. intros H. unfold tag_char. rewrite H. apply orb_true_r. Qed.

(** The shape of a locale name: its length, its characters, its first
    character. *)
Lemma LocaleName_shape s :
  LocaleName is_separator s ->
  2 <= List.length s <= 13
  /\ Forall (fun c => tag_char c = true) s
  /\ exists a rest, s = a :: rest /\ is_letter a = true.
Proof.
  intros (language & script & region & -> & [Hlen Hl] & Hs & Hr).
  assert (Hscript : List.length script <= 5
                    /\ Forall (fun c => tag_char c = true) script).
  { destruct Hs as [-> | (c & w & -> & Hc & Hw & Hlw)].
    - simpl. split; [lia | constructor].
    - simpl. split; [lia|].
      constructor; [now apply separator_tag | now apply letters_tag]. }
  assert (Hregion : List.length region <= 4
                    /\ Forall (fun c => tag_char c = true) region).
  { destruct Hr as [-> | (c & w & -> & Hc & [[Hw Hlw] | [Hw Hdw]])].
    - simpl. split; [lia | constructor].
    - simpl. split; [lia|].
      constructor; [now apply separator_tag | now apply letters_tag].
    - simpl. split; [lia|].
      constructor; [now apply separator_tag | now apply digits_tag]. }
  rewrite !length_app. split; [lia|]. split.
  - apply Forall_app. split; [now apply letters_tag|].
    apply Forall_app. tauto.
  - destruct language as [|a rest]; [simpl in Hlen; lia|].
    inversion Hl; subst. now exists a, (rest ++ script ++ region).
Qed.

Lemma tag_char_not_slash c :
  tag_char c = true -> negb (Ascii.eqb c "/") = true.
Proof.
  destruct c as [b0 b1 b2 b3 b4 b5 b6 b7].
  destruct b0, b1, b2, b3, b4, b5, b6, b7; intros H;
    first [reflexivity | discriminate H].
Qed.

Lemma is_letter_not_dot c : is_letter c = true -> Ascii.eqb c "." = false.
Proof.
  destruct c as [b0 b1 b2 b3 b4 b5 b6 b7].
  destruct b0, b1, b2, b3, b4, b5, b6, b7; intros H;
    first [reflexivity | discriminate H].
Qed.

Lemma isLocale_proper name : isLocale name = true -> proper_name name = true.
Proof.
  intros H. apply RegexFacts.isLocale_spec, LocaleName_shape in H.
  destruct H as (_ & Hchars & a & rest & E & Ha).
  unfold proper_name. rewrite StrFacts.forallb_list.
  destruct name as [|a' name']; [discriminate|].
  simpl in E. injection E as -> E.
  assert (Hdot : Ascii.eqb a "." = false) by now apply is_letter_not_dot.
  rewrite !andb_true_iff. repeat split.
  - simpl. now rewrite Hdot.
  - simpl. now rewrite Hdot.
  - apply forallb_forall. intros c Hc. apply tag_char_not_slash.
    rewrite Forall_forall in Hchars. apply Hchars.
    simpl in Hc. destruct Hc as [<- | Hc]; [now left|].
    now right.
Qed.

Lemma push_name stack name :
  proper_name name = true -> Path.push stack name = name :: stack.
Proof.
  unfold proper_name, Path.push.
  rewrite !andb_true_iff, !negb_true_iff. now intros [[[-> ->] ->] _].
Qed.

Lemma join_name folderPath name :
  proper_name name = true ->
  Path.join [] [folderPath; name] = Path.join [] [folderPath] ++ [name].
Proof.
  intros H. unfold Path.join. simpl. rewrite !app_nil_r.
  assert (Hsplit : Str.split_char "/" name = [name]).
  { apply StrFacts.split_char_free.
    unfold proper_name in H. rewrite !andb_true_iff in H. tauto. }
  rewrite Hsplit, fold_left_app. simpl. now rewrite push_name.
Qed.

End LocaleFacts.

(* ================================================================== *)
(** ** The flattener, further *)

Module FlattenMore.
Local Open Scope string_scope.

Lemma prefix_refl s : String.prefix s s = true.
Proof.
  induction s as [|a s IH]; simpl; [reflexivity|].
  destruct (ascii_dec a a); [assumption | congruence].
Qed.

Lemma prefix_app a b : String.prefix a (a ++ b) = true.
Proof.
  induction a as [|x a IH]; simpl; [now destruct b|].
  destruct (ascii_dec x x); [assumption | congruence].
Qed.

Lemma prefix_trans a : forall b c,
  String.prefix a b = true -> String.prefix b c = true ->
  String.prefix a c = true.
Proof.
  induction a as [|x a IH]; intros b c; [now destruct c|].
  destruct b as [|y b]; [discriminate|].
  destruct c as [|z c]; [simpl; intros _; discriminate|].
  simpl. destruct (ascii_dec x y) as [<- | _]; [|discriminate].
  destruct (ascii_dec x z) as [<- | _]; [|discriminate].
  destruct (ascii_dec x x); [apply IH | congruence].
Qed.

Lemma prefix_newKey nk key : String.prefix nk (newKey nk key) = true.
Proof.
  unfold newKey. destruct nk as [|a nk]; [now destruct key|].
  cbn [Str.is_empty]. apply prefix_app.
Qed.

Lemma indexed_Forall (P : json -> Prop) items :
  Forall P items -> forall i, Forall (fun kv => P (snd kv)) (indexed i items).
Proof.
  induction 1 as [|v rest Hv _ IH]; intros i; simpl; constructor; auto.
Qed.

Lemma fold_keys nk es :
  Forall (fun kv => extends_key (snd kv)) es ->
  forall acc key,
    In key (Obj.keys (fold_left (reducer nk) es acc)) ->
    In key (Obj.keys acc)
    \/ exists k, In k (map fst es)
                 /\ String.prefix (newKey nk k) key = true.
Proof.
  induction 1 as [|[k v] rest Hv _ IH]; intros acc key; simpl; [tauto|].
  intros Hin. apply IH in Hin. destruct Hin as [Hin | (k' & Hk' & Hp)].
  - unfold reducer in Hin. simpl in Hin. apply Hv in Hin.
    destruct Hin as [Hin | Hp]; [now left|].
    right. exists k. split; [now left | assumption].
  - right. exists k'. split; [now right | assumption].
Qed.

Lemma visit_keys v : extends_key v.
Proof.
  induction v as [| b | z | s | items IH | props IH] using json_ind;
    intros nk acc key;
    try (simpl; intros Hin; apply ObjFacts.keys_put in Hin;
         destruct Hin as [-> | Hin]; [right; apply prefix_refl | now left]).
  - rewrite FlattenFacts.visit_array, ObjFacts.keys_spread.
    intros [Hin | Hin]; [now left|]. right.
    apply (fold_keys nk (indexed 0 items) (indexed_Forall _ _ IH 0)) in Hin.
    destruct Hin as [[] | (k & _ & Hp)].
    eapply prefix_trans; [apply prefix_newKey | exact Hp].
  - rewrite FlattenFacts.visit_object, ObjFacts.keys_spread.
    intros [Hin | Hin]; [now left|]. right.
    apply (fold_keys nk props IH) in Hin.
    destruct Hin as [[] | (k & _ & Hp)].
    eapply prefix_trans; [apply prefix_newKey | exact Hp].
Qed.

Lemma In_get_NoDup {V : Type} (obj : Record V) key val :
  NoDup (Obj.keys obj) -> In (key, val) obj -> Obj.get obj key = Some val.
Proof.
  induction obj as [|[k v] rest IH]; simpl; intros Hnd; [intros []|].
  inversion Hnd as [|? ? Hk Hrest]; subst.
  intros [E | Hin].
  - injection E as -> ->. now rewrite String.eqb_refl.
  - destruct (String.eqb k key) eqn:Ek; [|now apply IH].
    apply String.eqb_eq in Ek. subst k. exfalso. apply Hk.
    unfold Obj.keys. apply in_map_iff. now exists (key, val).
Qed.

Lemma baseSet_nested p :
  forall v,
    p <> [] -> Forall (fun k => Lodash.isIndex k = false) (tl p) ->
    own_path p = true ->
    Lodash.baseSet (JObj []) p v = nested p v.
Proof.
  induction p as [|k rest IH]; intros v Hne Htl Hown; [congruence|].
  destruct rest as [|next rest'].
  - cbn [own_path] in Hown. apply negb_true_iff, String.eqb_neq in Hown.
    now rewrite Rebuild.baseSet_leaf.
  - simpl in Htl. inversion Htl as [|? ? Hnext Hrest]; subst.
    cbn [own_path] in Hown. apply andb_true_iff in Hown.
    destruct Hown as [Hk Hown]. apply negb_true_iff in Hk.
    rewrite (Rebuild.baseSet_fresh [] k next rest' v eq_refl Hk Hnext).
    rewrite IH; [reflexivity | discriminate | exact Hrest | exact Hown].
Qed.

End FlattenMore.

(* ================================================================== *)
(** ** Array indices *)

Module IndexFacts.

Lemma decimal_of_uint d :
  forall acc,
    Lodash.decimal (N.of_nat acc) (NilEmpty.string_of_uint d)
    = N.of_nat (Nat.of_uint_acc d acc).
Proof.
  induction d; intros acc;
    cbn [NilEmpty.string_of_uint Nat.of_uint_acc Lodash.decimal];
    [reflexivity | ..];
    rewrite <- IHd; f_equal; rewrite Nat.tail_mul_spec;
    match goal with
    | |- context [Lodash.digit_value ?c] =>
        let v := eval vm_compute in (Lodash.digit_value c) in
        change (Lodash.digit_value c) with v
    end;
    lia.
Qed.

Lemma digits_of_uint d :
  Str.forallb Lodash.is_decimal (NilEmpty.string_of_uint d) = true.
Proof. induction d; simpl; auto. Qed.

Lemma to_uint_normal n : Decimal.unorm (Nat.to_uint n) = Nat.to_uint n.
Proof.
  rewrite <- DecimalNat.Unsigned.to_of.
  now rewrite DecimalNat.Unsigned.of_to.
Qed.

Lemma number_of_nat n : Lodash.number (Str.of_nat n) = Some (N.of_nat n).
Proof.
  unfold Str.of_nat.
  pose proof (to_uint_normal n) as Hnorm.
  pose proof (DecimalNat.Unsigned.of_to n) as Hof.
  pose proof (decimal_of_uint (Nat.to_uint n) 0) as Hdec.
  pose proof (digits_of_uint (Nat.to_uint n)) as Hdig.
  change (Nat.of_uint_acc (Nat.to_uint n) 0)
    with (Nat.of_uint (Nat.to_uint n)) in Hdec.
  rewrite Hof in Hdec. simpl N.of_nat in Hdec at 1.
  destruct (Nat.to_uint n) as [|d|d|d|d|d|d|d|d|d|d].
  - now apply DecimalFacts.unorm_nonnil in Hnorm.
  - rewrite DecimalFacts.unorm_D0 in Hnorm.
    destruct (Decimal.nzhead d) eqn:Ehead.
    + assert (Hz : Decimal.unorm d = Decimal.zero)
        by (apply DecimalFacts.unorm_0; exact Ehead).
      rewrite Hz in Hnorm. injection Hnorm as <-.
      simpl in Hof. now subst n.
    + exfalso. rewrite DecimalFacts.unorm_nzhead in Hnorm by congruence.
      now apply DecimalFacts.nzhead_nonzero in Hnorm.
    + exfalso. rewrite DecimalFacts.unorm_nzhead in Hnorm by congruence.
      now apply DecimalFacts.nzhead_nonzero in Hnorm.
    + exfalso. rewrite DecimalFacts.unorm_nzhead in Hnorm by congruence.
      now apply DecimalFacts.nzhead_nonzero in Hnorm.
    + exfalso. rewrite DecimalFacts.unorm_nzhead in Hnorm by congruence.
      now apply DecimalFacts.nzhead_nonzero in Hnorm.
    + exfalso. rewrite DecimalFacts.unorm_nzhead in Hnorm by congruence.
      now apply DecimalFacts.nzhead_nonzero in Hnorm.
    + exfalso. rewrite DecimalFacts.unorm_nzhead in Hnorm by congruence.
      now apply DecimalFacts.nzhead_nonzero in Hnorm.
    + exfalso. rewrite DecimalFacts.unorm_nzhead in Hnorm by congruence.
      now apply DecimalFacts.nzhead_nonzero in Hnorm.
    + exfalso. rewrite DecimalFacts.unorm_nzhead in Hnorm by congruence.
      now apply DecimalFacts.nzhead_nonzero in Hnorm.
    + exfalso. rewrite DecimalFacts.unorm_nzhead in Hnorm by congruence.
      now apply DecimalFacts.nzhead_nonzero in Hnorm.
    + exfalso. rewrite DecimalFacts.unorm_nzhead in Hnorm by congruence.
      now apply DecimalFacts.nzhead_nonzero in Hnorm.
  - unfold Lodash.number. cbn [NilEmpty.string_of_uint].
    cbn [NilEmpty.string_of_uint] in Hdig, Hdec. now rewrite Hdig, Hdec.
  - unfold Lodash.number. cbn [NilEmpty.string_of_uint].
    cbn [NilEmpty.string_of_uint] in Hdig, Hdec. now rewrite Hdig, Hdec.
  - unfold Lodash.number. cbn [NilEmpty.string_of_uint].
    cbn [NilEmpty.string_of_uint] in Hdig, Hdec. now rewrite Hdig, Hdec.
  - unfold Lodash.number. cbn [NilEmpty.string_of_uint].
    cbn [NilEmpty.string_of_uint] in Hdig, Hdec. now rewrite Hdig, Hdec.
  - unfold Lodash.number. cbn [NilEmpty.string_of_uint].
    cbn [NilEmpty.string_of_uint] in Hdig, Hdec. now rewrite Hdig, Hdec.
  - unfold Lodash.number. cbn [NilEmpty.string_of_uint].
    cbn [NilEmpty.string_of_uint] in Hdig, Hdec. now rewrite Hdig, Hdec.
  - unfold Lodash.number. cbn [NilEmpty.string_of_uint].
    cbn [NilEmpty.string_of_uint] in Hdig, Hdec. now rewrite Hdig, Hdec.
  - unfold Lodash.number. cbn [NilEmpty.string_of_uint].
    cbn [NilEmpty.string_of_uint] in Hdig, Hdec. now rewrite Hdig, Hdec.
  - unfold Lodash.number. cbn [NilEmpty.string_of_uint].
    cbn [NilEmpty.string_of_uint] in Hdig, Hdec. now rewrite Hdig, Hdec.
Qed.

End IndexFacts.

(* ================================================================== *)
(** ** Arrays through the flattener and back *)

Module ArrayFacts.
Import StrFacts.

Lemma is_decimal_plain c :
  Lodash.is_decimal c = true -> negb (path_char c) = true.
Proof.
  destruct c as [b0 b1 b2 b3 b4 b5 b6 b7].
  destruct b0, b1, b2, b3, b4, b5, b6, b7; intros H;
    first [reflexivity | discriminate H].
Qed.

Lemma of_nat_plain i : plain_key (Str.of_nat i) = true.
Proof.
  unfold plain_key. apply andb_true_iff. split.
  - pose proof (IndexFacts.number_of_nat i) as H.
    destruct (Str.of_nat i); [discriminate | reflexivity].
  - unfold Str.of_nat.
    apply (forallb_impl Lodash.is_decimal);
      [exact is_decimal_plain | apply IndexFacts.digits_of_uint].
Qed.

Lemma of_nat_inj i j : Str.of_nat i = Str.of_nat j -> i = j.
Proof.
  intros E. pose proof (IndexFacts.number_of_nat i) as Hi.
  rewrite E, IndexFacts.number_of_nat in Hi. injection Hi as Hi. lia.
Qed.

Lemma arrayIndex_of_nat i :
  (N.of_nat i < 4294967295)%N -> Lodash.arrayIndex (Str.of_nat i) = Some i.
Proof.
  intros H. unfold Lodash.arrayIndex. rewrite IndexFacts.number_of_nat.
  apply N.ltb_lt in H. rewrite H. now rewrite Nat2N.id.
Qed.

Lemma isIndex_of_nat i :
  (N.of_nat i < 4294967295)%N -> Lodash.isIndex (Str.of_nat i) = true.
Proof.
  intros H. unfold Lodash.isIndex. rewrite IndexFacts.number_of_nat.
  apply N.ltb_lt. lia.
Qed.

Lemma store_end pre v : Lodash.store pre (List.length pre) v = pre ++ [v].
Proof. induction pre as [|x pre IH]; simpl; [reflexivity | now rewrite IH]. Qed.

Lemma get_last {V : Type} (acc0 : Record V) key x :
  Obj.get acc0 key = None -> Obj.get (acc0 ++ [(key, x)]) key = Some x.
Proof.
  induction acc0 as [|[k v] rest IH]; simpl.
  - now rewrite String.eqb_refl.
  - destruct (String.eqb k key); [discriminate | exact IH].
Qed.

Lemma put_last {V : Type} (acc0 : Record V) key x y :
  Obj.get acc0 key = None ->
  Obj.define (acc0 ++ [(key, x)]) key y = acc0 ++ [(key, y)].
Proof.
  induction acc0 as [|[k v] rest IH]; simpl.
  - now rewrite String.eqb_refl.
  - destruct (String.eqb k key); [discriminate|].
    intros H. now rewrite IH.
Qed.

Lemma fold_scalars nk es :
  Forall (fun kv : string * json =>
            is_scalar (snd kv) = true
            /\ newKey nk (fst kv) <> "__proto__") es ->
  forall acc,
    fold_left (reducer nk) es acc
    = Obj.spread acc (map (fun kv => (newKey nk (fst kv), snd kv)) es).
Proof.
  induction 1 as [|[k v] rest [Hv Hk] _ IH]; intros acc; [reflexivity|].
  simpl in Hv, Hk. simpl. rewrite IH. unfold reducer at 1. simpl.
  rewrite FlattenFacts.visit_scalar by exact Hv.
  now rewrite ObjFacts.put_define.
Qed.

Lemma indexed_scalars items :
  Forall (fun v => is_scalar v = true) items ->
  forall i,
    Forall (fun kv : string * json => is_scalar (snd kv) = true)
           (indexed i items).
Proof.
  induction 1 as [|v rest Hv _ IH]; intros i; simpl; constructor; auto.
Qed.

Lemma indexed_keys items :
  forall i, map fst (indexed i items)
            = map Str.of_nat (seq i (List.length items)).
Proof.
  induction items as [|v rest IH]; intros i; simpl; [reflexivity|].
  now rewrite IH.
Qed.

Lemma NoDup_map_inj {A B : Type} (f : A -> B) l :
  (forall x y, f x = f y -> x = y) -> NoDup l -> NoDup (map f l).
Proof.
  intros Hinj. induction 1 as [|x l Hx _ IH]; simpl; constructor;
    [|assumption].
  intros Hin. apply in_map_iff in Hin. destruct Hin as (y & E & Hy).
  apply Hinj in E. now subst.
Qed.

Lemma append_inv_head (a b c : string) :
  (a ++ b)%string = (a ++ c)%string -> b = c.
Proof. induction a as [|x a IH]; simpl; [auto | intros [= H]; auto]. Qed.

Lemma newKey_dotted2 key idx :
  plain_key key = true -> newKey key idx = dotted [key; idx].
Proof.
  intros H. unfold newKey. now rewrite (plain_key_nonempty key H).
Qed.

(** The flat map of an array of scalars under a plain key. *)
Lemma flatten_array key items :
  plain_key key = true -> Forall (fun v => is_scalar v = true) items ->
  flattenObject (indexed 0 items) key
  = map (fun kv => (dotted [key; fst kv], snd kv)) (indexed 0 items)
  /\ NoDup (map (fun kv => dotted [key; fst kv]) (indexed 0 items)).
Proof.
  intros Hkey Hitems.
  assert (Hnd : NoDup (map (fun kv : string * json => dotted [key; fst kv])
                           (indexed 0 items))).
  { rewrite <- (map_map fst (fun k => dotted [key; k])), indexed_keys.
    rewrite map_map. apply NoDup_map_inj; [|apply seq_NoDup].
    intros i j E. apply of_nat_inj.
    unfold dotted in E. simpl in E.
    apply append_inv_head in E. now injection E. }
  split; [|exact Hnd].
  unfold flattenObject.
  rewrite fold_scalars.
  2:{ pose proof (indexed_scalars items Hitems 0) as Hs.
      eapply Forall_impl; [|exact Hs]. intros [k v] Hv. split; [exact Hv|].
      simpl. rewrite newKey_dotted2 by exact Hkey.
      intros E. pose proof (has_dot_join key k []) as Hd.
      rewrite E in Hd. discriminate. }
  rewrite ObjFacts.spread_fresh.
  - simpl. apply map_ext. intros [k v]. simpl. now rewrite newKey_dotted2.
  - unfold Obj.keys. rewrite map_map. simpl.
    erewrite map_ext; [exact Hnd|].
    intros [k v]. simpl. now rewrite newKey_dotted2.
  - intros k _ [].
Qed.

Section Writes.
Variable key : string.
Variable acc0 : JSONContent.
Hypothesis Hkey : plain_key key = true.
Hypothesis Hown : Lodash.inherited key = false.
Hypothesis Hfresh : Obj.get acc0 key = None.
Hypothesis Hdotless :
  Forall (fun k => Lodash.has_dot k = false) (Obj.keys acc0).

Lemma path_plain i : plain_path [key; Str.of_nat i].
Proof. repeat constructor; [exact Hkey | apply of_nat_plain]. Qed.

Lemma set_index_fresh v :
  Lodash.set acc0 (dotted [key; Str.of_nat 0]) v = acc0 ++ [(key, JArr [v])].
Proof.
  unfold Lodash.set.
  rewrite Rebuild.castPath_dotted;
    [|exact Hdotless | apply path_plain | discriminate].
  cbn [Lodash.baseSet Lodash.prop Lodash.assignValue].
  rewrite Hfresh, Hown. unfold Lodash.fresh.
  rewrite isIndex_of_nat by (simpl; lia).
  cbn [Lodash.baseSet Lodash.assignValue].
  rewrite arrayIndex_of_nat by (simpl; lia).
  simpl Lodash.store.
  rewrite ObjFacts.put_define by now apply StrFacts.inherited_proto.
  now rewrite ObjFacts.set_fresh.
Qed.

Lemma dotless_last x :
  Forall (fun k => Lodash.has_dot k = false) (Obj.keys (acc0 ++ [(key, x)])).
Proof.
  unfold Obj.keys. rewrite map_app. apply Forall_app. split;
    [exact Hdotless|].
  constructor; [now apply plain_key_dotless | constructor].
Qed.

Lemma set_index_next pre v :
  (N.of_nat (List.length pre) < 4294967295)%N ->
  Lodash.set (acc0 ++ [(key, JArr pre)])
             (dotted [key; Str.of_nat (List.length pre)]) v
  = acc0 ++ [(key, JArr (pre ++ [v]))].
Proof.
  intros Hbound. unfold Lodash.set.
  rewrite Rebuild.castPath_dotted;
    [|apply dotless_last | apply path_plain | discriminate].
  cbn [Lodash.baseSet Lodash.prop Lodash.assignValue].
  rewrite get_last by exact Hfresh.
  cbn [isObject Lodash.baseSet Lodash.assignValue].
  rewrite arrayIndex_of_nat by exact Hbound.
  rewrite store_end.
  rewrite ObjFacts.put_define by now apply StrFacts.inherited_proto.
  now rewrite put_last.
Qed.

Lemma writes_next items :
  forall pre,
    (N.of_nat (List.length pre + List.length items) <= 4294967295)%N ->
    fold_left (fun a kv => Lodash.set a (fst kv) (snd kv))
              (map (fun kv => (dotted [key; fst kv], snd kv))
                   (indexed (List.length pre) items))
              (acc0 ++ [(key, JArr pre)])
    = acc0 ++ [(key, JArr (pre ++ items))].
Proof.
  induction items as [|v rest IH]; intros pre Hbound.
  - simpl. now rewrite app_nil_r.
  - cbn [indexed map fold_left fst snd].
    rewrite set_index_next by (simpl in Hbound; lia).
    replace (S (List.length pre)) with (List.length (pre ++ [v]))
      by (rewrite length_app; simpl; lia).
    rewrite IH.
    + now rewrite <- app_assoc.
    + rewrite length_app. simpl in *. lia.
Qed.

Lemma writes_all items :
  items <> [] ->
  (N.of_nat (List.length items) <= 4294967295)%N ->
  fold_left (fun a kv => Lodash.set a (fst kv) (snd kv))
            (map (fun kv => (dotted [key; fst kv], snd kv))
                 (indexed 0 items))
            acc0
  = acc0 ++ [(key, JArr items)].
Proof.
  intros Hne Hbound. destruct items as [|v rest]; [congruence|].
  cbn [indexed map fold_left fst snd].
  rewrite set_index_fresh.
  apply (writes_next rest [v]). simpl in *. lia.
Qed.

End Writes.

(** Writing back the flat map of a well-formed document gives the
    document. *)
Lemma unflatten_leaves doc :
  wf_doc doc = true ->
  fold_left (fun a kv => Lodash.set a (fst kv) (snd kv))
            (flattenObject doc "") []
  = doc.
Proof.
  intros Hwf.
  rewrite (FlattenLeaves.flattenObject_leaves doc Hwf).
  assert (E : JObj (fold_left (fun a kv => Lodash.set a (fst kv) (snd kv))
                              (map (keyed []) (paths (JObj doc))) [])
              = JObj doc).
  { rewrite Rebuild.unflatten_build.
    - pose proof (Leaves.well_formed_object false doc Hwf)
        as (_ & Hnd & Hall).
      rewrite Rebuild.build_paths; try assumption.
      + reflexivity.
      + apply Forall_forall. intros kv _. apply Rebuild.rebuilt_all.
      + eapply Forall_impl; [|exact Hall]. now intros kv (_ & Ho & _ & Hv).
      + intros k _ [].
    - constructor.
    - intros pv Hin. split.
      + eapply Leaves.paths_plain; eassumption.
      + destruct (Leaves.paths_object_head _ _ Hin) as (k & r & -> & _).
        discriminate. }
  now injection E.
Qed.

End ArrayFacts.

(* ================================================================== *)
(** * The properties of the specification *)

(** ** The flattener *)

(** C10.  Every value of the map returned by [flattenObject] is a
    scalar, never an object (nor an array); and an entry whose value is
    the empty object adds nothing to the map: the map is the one of the
    document without that entry. *)
Theorem flattenObject_scalars_only :
  (forall obj prefix, scalars (flattenObject obj prefix))
  /\ (forall before key after prefix,
        flattenObject (before ++ (key, JObj []) :: after) prefix
        = flattenObject (before ++ after) prefix)
  /\ (forall key acc, visit (JObj []) key acc = acc).
Proof.
  split; [exact FlattenFacts.flattenObject_scalars|].
  split; [|reflexivity].
  intros before key after prefix.
  now rewrite !FlattenFacts.flattenObject_app.
Qed.

(** C3, as the specification words it, fails: the array under ["a"]
    gives no entry at ["a"]; its elements are entered one by one under
    ["a.0"] and ["a.1"]. *)
Lemma flattenObject_enters_arrays :
  let doc := [("a", JArr [JStr "x"; JStr "y"])] in
  Obj.get (flattenObject doc "") "a" = None
  /\ flattenObject doc "" = [("a.0", JStr "x"); ("a.1", JStr "y")].
Proof. split; reflexivity. Qed.

(** C3, amended.  An array is flattened the way an object is, its
    elements taken under their indices as keys: the entry [(key,
    JArr items)] merges into the map built so far the flat map of
    [{0: items[0], 1: items[1], ...}] under the path of [key]; the array
    itself is never a value of the result; only scalars are leaves. *)
Theorem flattenObject_array_entry :
  (forall before key items after prefix,
      flattenObject (before ++ (key, JArr items) :: after) prefix
      = fold_left (reducer prefix) after
          (Obj.spread (flattenObject before prefix)
             (flattenObject (indexed 0 items) (newKey prefix key))))
  /\ (forall obj prefix, scalars (flattenObject obj prefix))
  /\ (forall val key acc,
        visit val key acc
        = if isObject val
          then Obj.spread acc (flattenObject (entries val) key)
          else Obj.put acc key val).
Proof.
  split; [|split].
  - intros before key items after prefix.
    rewrite FlattenFacts.flattenObject_app. simpl fold_left.
    unfold reducer at 2. simpl fst. simpl snd.
    now rewrite FlattenFacts.visit_array.
  - exact FlattenFacts.flattenObject_scalars.
  - exact FlattenFacts.visit_eq.
Qed.

(** C2, as the specification words it, fails: the document
    [{"a": {}}] has no array and no dotted key, its flat map is empty
    and so is the document rebuilt from it. *)
Lemma roundtrip_loses_empty_object :
  let doc := [("a", JObj [])] in
  no_arrays (JObj doc) = true
  /\ no_dotted_keys (JObj doc) = true
  /\ unflattenObject (flattenObject doc "") = []
  /\ ~ same_json (JObj (unflattenObject (flattenObject doc ""))) (JObj doc).
Proof.
  repeat split.
  intros H. inversion H as [| | | | |ps qs Hget]; subst.
  specialize (Hget "a"). inversion Hget.
Qed.

(** C2, amended.  For a document without arrays and without empty
    nested objects, whose keys are non-empty, free of path syntax
    ([.], brackets) and distinct within their object, none of them
    [__proto__] and none that holds an object the name of a property
    inherited from [Object.prototype] ([constructor], [toString], ...),
    and whose keys below the top level are not array indices,
    [unflattenObject] after [flattenObject] gives the document back,
    key order included. *)
Theorem unflatten_flatten_well_formed doc :
  wf_doc doc = true ->
  unflattenObject (flattenObject doc "") = doc.
Proof.
  intros Hwf.
  rewrite (FlattenLeaves.flattenObject_leaves doc Hwf).
  assert (E : JObj (unflattenObject (map (keyed []) (paths (JObj doc))))
              = JObj doc).
  { unfold unflattenObject.
    rewrite Rebuild.unflatten_build.
    - pose proof (Leaves.well_formed_object false doc Hwf) as (_ & Hnd & Hall).
      rewrite Rebuild.build_paths; try assumption.
      + reflexivity.
      + apply Forall_forall. intros kv _. apply Rebuild.rebuilt_all.
      + eapply Forall_impl; [|exact Hall]. now intros kv (_ & Ho & _ & Hv).
      + intros k _ [].
    - constructor.
    - intros pv Hin. split.
      + eapply Leaves.paths_plain; eassumption.
      + destruct (Leaves.paths_object_head _ _ Hin) as (k & r & -> & _).
        discriminate. }
  now injection E.
Qed.

Lemma unflatten_flatten_well_formed_witness :
  let doc := [("0", JObj [("d", JObj [("e", JNum 3)])]);
              ("a", JObj [("b", JStr "Bonjour"); ("c", JNull)]);
              ("toString", JBool true)] in
  wf_doc doc = true /\ unflattenObject (flattenObject doc "") = doc.
Proof.
  split; [reflexivity|].
  apply (unflatten_flatten_well_formed
           [("0", JObj [("d", JObj [("e", JNum 3)])]);
            ("a", JObj [("b", JStr "Bonjour"); ("c", JNull)]);
            ("toString", JBool true)]).
  reflexivity.
Defined.

(** Each further condition of the amended statement is needed: an
    index below the top level comes back as an array, an empty key
    loses the prefix of what lies under it, what lies under the name of
    an inherited property is written into the built-in object and does
    not come back, and the assignment to [__proto__] stores nothing. *)
Example roundtrip_index_key :
  unflattenObject (flattenObject [("a", JObj [("0", JStr "x")])] "")
  = [("a", JArr [JStr "x"])].
Proof. reflexivity. Qed.

Example roundtrip_empty_key :
  unflattenObject (flattenObject [("", JObj [("b", JStr "x")])] "")
  = [("b", JStr "x")].
Proof. reflexivity. Qed.

Example roundtrip_inherited_key :
  flattenObject [("constructor", JObj [("b", JStr "x")])] ""
  = [("constructor.b", JStr "x")]
  /\ unflattenObject [("constructor.b", JStr "x")] = [].
Proof. split; reflexivity. Qed.

Example roundtrip_proto_key :
  flattenObject [("__proto__", JStr "x"); ("k", JStr "v")] ""
  = [("k", JStr "v")]
  /\ unflattenObject [("a.__proto__", JStr "x")] = [("a", JObj [])].
Proof. split; reflexivity. Qed.

(** Arrays without holes and without empty parts do come back. *)
Example roundtrip_array :
  unflattenObject
    (flattenObject [("a", JArr [JStr "x"; JObj [("b", JArr [JNum 1])]])] "")
  = [("a", JArr [JStr "x"; JObj [("b", JArr [JNum 1])]])].
Proof. reflexivity. Qed.

(** ** Locale discovery *)

(** C8, as the specification words it, fails twice: [en_US] is kept
    although the grammar [language[-script][-region]] does not derive
    it, and [de] is kept although it is a file, not a subdirectory. *)
Lemma discovery_keeps_underscore_and_files :
  discoverLocales Scenario.mixed "locales" = Some ["fr"; "en_US"; "de"]
  /\ ~ LocaleTag "en_US"
  /\ FS.lookup Scenario.mixed ["locales"; "de"] = Some (File None).
Proof.
  split; [reflexivity|]. split; [|reflexivity].
  rewrite RegexFacts.LocaleTag_spec. discriminate.
Qed.

(** C8, amended.  Locale discovery keeps exactly the names of the
    entries of the root directory, files and directories alike, that
    consist of a language of 2 to 4 letters, optionally followed by a
    separator and a script of 4 letters, optionally followed by a
    separator and a region of 2 letters or 3 digits, a separator being
    [-] or [_]; the name [xx-yy-zz] is not kept. *)
Theorem discovered_locales disk folderPath dirEntries :
  FS.listDir disk folderPath = Some dirEntries ->
  exists locales,
    discoverLocales disk folderPath = Some locales
    /\ (forall name,
           In name locales <->
           In name dirEntries
           /\ LocaleName is_separator (list_ascii_of_string name))
    /\ ~ In "xx-yy-zz" locales.
Proof.
  intros Hdir. unfold discoverLocales. rewrite Hdir.
  exists (filter isLocale dirEntries).
  split; [reflexivity|]. split.
  - intros name. rewrite filter_In, RegexFacts.isLocale_spec. tauto.
  - rewrite filter_In. intros [_ H]. discriminate.
Qed.

Lemma discovered_locales_witness :
  FS.listDir Scenario.mixed "locales"
  = Some ["fr"; "en_US"; "de"; "xx-yy-zz"]
  /\ exists locales,
      discoverLocales Scenario.mixed "locales" = Some locales
      /\ (forall name,
             In name locales <->
             In name ["fr"; "en_US"; "de"; "xx-yy-zz"]
             /\ LocaleName is_separator (list_ascii_of_string name))
      /\ ~ In "xx-yy-zz" locales.
Proof.
  split; [reflexivity|].
  apply (discovered_locales Scenario.mixed "locales"). reflexivity.
Defined.

(** ** The missing-key detector *)




(** The detection of the scenario of the specification. *)
Example detection_scenario :
  getAllMissingTranslations Scenario.locales "locales" "fr"
  = Some [("en", [("common.json:::a.b", JStr "Bonjour")])].
Proof. reflexivity. Qed.

(** ** The orchestrator *)

(** C6.  With [dryRun] set, whatever the capability and the files,
    [translateMissingKeys] leaves the disk as it was and sends no
    request; it only prints the report of the missing entries; once the
    pipelines are launched nothing is left to run, and the result is
    the same for every capability. *)
Theorem dry_run_only_reports gpt folderPath w referenceLocale :
  let w' := fst (translateMissingKeys gpt folderPath true w referenceLocale) in
  disk w' = disk w
  /\ requests w' = requests w
  /\ console w'
     = console w
       ++ match getAllMissingTranslations (disk w) folderPath
                                          referenceLocale with
          | Some allMissing => flat_map dryRunReport allMissing
          | None => []
          end
  /\ match start folderPath true w referenceLocale with
     | Some r =>
         now r = w' /\ forall r', steps gpt folderPath r r' -> r' = r
     | None => w' = w
     end
  /\ (forall gpt',
        translateMissingKeys gpt' folderPath true w referenceLocale
        = translateMissingKeys gpt folderPath true w referenceLocale).
Proof.
  unfold translateMissingKeys, start.
  destruct (getAllMissingTranslations (disk w) folderPath referenceLocale)
    as [allMissing|]; simpl.
  - rewrite OrchestratorFacts.launchAll_dry. simpl.
    assert (Hall : forall p,
               In p (map (fun _ : string * Record json => Settled Fulfilled)
                         allMissing) -> settled p).
    { intros p Hin. apply in_map_iff in Hin. destruct Hin as (_ & <- & _).
      now exists Fulfilled. }
    rewrite OrchestratorFacts.finishAll_settled by exact Hall. simpl.
    repeat split.
    + intros r' Hsteps.
      apply (OrchestratorFacts.steps_none gpt folderPath _ r');
        [|exact Hsteps].
      exact Hall.
    + intros gpt'.
      now rewrite OrchestratorFacts.finishAll_settled by exact Hall.
  - rewrite app_nil_r. now repeat split.
Qed.

(** The dry run of the scenario of the specification. *)
Example dry_run_scenario :
  translateMissingKeys Scenario.hello "locales" true Scenario.initial "fr"
  = ({| disk := Scenario.locales;
        console := [DryRunHeader "en";
                    DryRunKeys [("common.json:::a.b", JStr "Bonjour")]];
        requests := [] |}, Fulfilled).
Proof. reflexivity. Qed.

(** C5, as the specification words it, fails: with the call failing
    for [de], the promise of [translateMissingKeys] is rejected while
    the pipeline of [en] still waits for its answer and has written
    nothing. *)
Lemma promise_rejected_before_all_settle :
  start "locales" false Scenario.initialLocales "fr" = Some Scenario.launched
  /\ steps Scenario.failsForDe "locales"
           Scenario.launched Scenario.afterFailure
  /\ promise_all (pipelines Scenario.afterFailure) = Some Rejected
  /\ In (AwaitingTranslation "en" 1 Scenario.missingKeys)
        (pipelines Scenario.afterFailure)
  /\ status (AwaitingTranslation "en" 1 Scenario.missingKeys) = None
  /\ disk (now Scenario.afterFailure) = Scenario.twoLocales.
Proof.
  split; [reflexivity|]. split.
  - eapply steps_step; [|apply steps_refl].
    apply (@step_pipeline Scenario.failsForDe "locales"
             Scenario.launchedWorld []
             (AwaitingTranslation "de" 1 Scenario.missingKeys)
             [AwaitingTranslation "en" 1 Scenario.missingKeys]
             Scenario.launchedWorld (Settled Rejected)).
    now apply answer_fails.
  - split; [reflexivity|]. split; [right; left; reflexivity|].
    split; reflexivity.
Qed.

(** C5, amended.  A failure of the capability for one locale rejects
    the pipeline of that locale and nothing else: a step changes one
    pipeline only, and from any state every pipeline can still be run
    until it has settled.  The promise of [translateMissingKeys] is that
    of [Promise.all]: it is rejected as soon as one pipeline is, without
    waiting for the others, it is fulfilled only once all of them are,
    and once settled it does not change. *)
Theorem promise_all_of_pipelines gpt folderPath r :
  (exists r', steps gpt folderPath r r'
              /\ forall p, In p (pipelines r') -> settled p)
  /\ (forall r',
         step gpt folderPath r r' ->
         exists before p after p',
           pipelines r = before ++ p :: after
           /\ pipelines r' = before ++ p' :: after
           /\ resumes gpt folderPath (now r) p (now r') p')
  /\ (forall w before locale total entries after,
         translateWithGPT gpt entries locale = None ->
         step gpt folderPath
              {| now := w;
                 pipelines :=
                   before ++ AwaitingTranslation locale total entries
                          :: after |}
              {| now := w;
                 pipelines := before ++ Settled Rejected :: after |}
         /\ promise_all (before ++ Settled Rejected :: after)
            = Some Rejected)
  /\ (promise_all (pipelines r) = Some Rejected <->
      Exists (fun p => status p = Some Rejected) (pipelines r))
  /\ (promise_all (pipelines r) = Some Fulfilled <->
      Forall (fun p => p = Settled Fulfilled) (pipelines r))
  /\ (forall r' o,
         steps gpt folderPath r r' ->
         promise_all (pipelines r) = Some o ->
         promise_all (pipelines r') = Some o).
Proof.
  split; [|split; [|split; [|split; [|split]]]].
  - destruct r as [w ps].
    exists {| now := fst (finishAll gpt folderPath w ps);
              pipelines := snd (finishAll gpt folderPath w ps) |}.
    split.
    + apply (OrchestratorFacts.finishAll_steps gpt folderPath ps [] w).
    + apply OrchestratorFacts.finishAll_all_settled.
  - apply OrchestratorFacts.step_elsewhere.
  - intros w before locale total entries after Hfail. split.
    + constructor. now apply answer_fails.
    + apply OrchestratorFacts.promise_all_rejected.
      apply Exists_exists. exists (Settled Rejected).
      split; [apply in_elt | reflexivity].
  - apply OrchestratorFacts.promise_all_rejected.
  - apply OrchestratorFacts.promise_all_fulfilled.
  - intros r' o. apply OrchestratorFacts.promise_all_steps.
Qed.

(** C1.  In the scenario of the specification the file
    [en/common.json] is written, but not with [{"a": {"b": "Hello"}}]:
    the answer is cut at its first colon, which is inside the
    separator, so that the key is [common.json], without a JSON path,
    and the value [::a.b: Hello] lands under the property [undefined].
    Given the entry [common.json:::a.b] with the text [Hello], the write
    callback does produce the expected file. *)
Theorem scenario_writes_under_undefined :
  let w' := fst (translateMissingKeys Scenario.hello "locales" false
                                      Scenario.initial "fr") in
  parseResponse "common.json:::a.b: Hello"
  = [("common.json", "::a.b: Hello")]
  /\ Str.split ":::" "common.json" = ["common.json"]
  /\ FS.readJson (disk w') ["locales"; "en"; "common.json"]
     = Some [("undefined", JStr "::a.b: Hello")]
  /\ FS.readJson (disk w') ["locales"; "en"; "common.json"]
     <> Some Scenario.expected
  /\ FS.readJson
       (fst (writeTranslation Scenario.locales "locales" "en"
                              "common.json:::a.b" "Hello"))
       ["locales"; "en"; "common.json"]
     = Some Scenario.expected.
Proof. repeat split. discriminate. Qed.

(** C4.  An entry whose key has no [:::] is not skipped: for the
    answer [note: bonjour] the file [en/note], which did not exist, is
    written with the value under the property [undefined].  No key that
    [translateWithGPT] returns can be cut at [:::], since none has a
    colon. *)
Theorem unparsable_key_is_written :
  let w' := fst (translateMissingKeys Scenario.stray "locales" false
                                      Scenario.initial "fr") in
  parseResponse "note: bonjour" = [("note", "bonjour")]
  /\ FS.pathExists (disk Scenario.initial) ["locales"; "en"; "note"] = false
  /\ FS.readJson (disk w') ["locales"; "en"; "note"]
     = Some [("undefined", JStr "bonjour")]
  /\ console w' = [Translating 1 "en"; Updated "en" 1]
  /\ (forall response,
        Forall (fun fullKey => Str.split ":::" fullKey = [fullKey])
               (Obj.keys (parseResponse response))).
Proof.
  repeat split.
  intros response.
  eapply Forall_impl; [|apply OrchestratorFacts.parseResponse_keys].
  intros fullKey. apply StrFacts.split_colon_free.
Qed.

(** C9.  The count in the completion message is the number of entries
    requested: two keys are missing, the capability answers one line,
    one file property is written, and the message says 2.  Whatever the
    entries returned, the message carries the count fixed before the
    call. *)
Theorem completion_reports_requested_count :
  let w' := fst (translateMissingKeys Scenario.partial "locales" false
                                      Scenario.initialTwo "fr") in
  getAllMissingTranslations Scenario.twoKeys "locales" "fr"
  = Some [("en", [("common.json:::a", JStr "Bonjour");
                  ("common.json:::b", JStr "Monde")])]
  /\ List.length (parseResponse "common.json:::a: Hello") = 1
  /\ FS.readJson (disk w') ["locales"; "en"; "common.json"]
     = Some [("undefined", JStr "::a: Hello")]
  /\ console w' = [Translating 2 "en"; Updated "en" 2]
  /\ (forall folderPath returned w locale total,
        console (fst (finishWrites folderPath w locale total returned false))
        = console w
          ++ match snd (finishWrites folderPath w locale total
                                     returned false) with
             | Fulfilled => [Updated locale total]
             | Rejected => []
             end).
Proof.
  repeat split.
  intros folderPath returned w locale total.
  apply OrchestratorFacts.finishWrites_console.
Qed.

(* ================================================================== *)
(** * Further properties of the code *)

(** ** The detector *)

(** X5.  For a reference folder whose path has no pattern syntax:
    when detection for a locale returns, its result is empty exactly
    when the counterpart of every [.json] file below the reference
    folder has every flattened key of that file. *)
Theorem nothing_missing_iff_complete
        d referenceFolder localeFolder files missing :
  Path.literal referenceFolder = true ->
  FS.below d referenceFolder = Some files ->
  getMissingTranslationsForLocale d referenceFolder localeFolder
  = Some missing ->
  (missing = [] <->
   forall refFilePath key,
     In refFilePath files ->
     In key (Obj.keys (flatAt d refFilePath)) ->
     In key (Obj.keys (flatAt d (counterpart referenceFolder localeFolder
                                             refFilePath)))).
Proof.
  intros Hlit Hfiles H.
  destruct (DetectorMore.getMissing_keys _ _ _ _ H) as (files' & Hglob & Hkeys).
  rewrite DetectorFacts.glob_literal in Hglob by exact Hlit.
  assert (files' = files) by congruence. subst files'.
  split.
  - intros -> file key Hfile Hkey.
    destruct (in_dec string_dec key
                (Obj.keys (flatAt d (counterpart referenceFolder localeFolder
                                                 file)))) as [Hin | Hout];
      [assumption|].
    exfalso.
    destruct (DetectorFacts.get_of_key _ _ Hkey) as (text & Hget).
    assert (Hm : In (Path.relative referenceFolder file ++ ":::" ++ key)%string
                    (Obj.keys (@nil (string * json)))).
    { apply Hkeys. exists text, file, key.
      split; [assumption | split; [reflexivity | now split]]. }
    exact Hm.
  - intros Hall. destruct missing as [|[fullKey text] rest]; [reflexivity|].
    exfalso.
    assert (Hin : In fullKey (Obj.keys ((fullKey, text) :: rest)))
      by now left.
    apply Hkeys in Hin.
    destruct Hin as (t & file & key & Hfile & _ & Hget & Hout).
    apply Hout, (Hall file key Hfile).
    apply ObjFacts.get_In in Hget. unfold Obj.keys.
    apply in_map_iff. now exists (key, t).
Qed.

Lemma nothing_missing_iff_complete_witness :
  Path.literal ["locales"; "fr"] = true
  /\ FS.below Scenario.locales ["locales"; "fr"]
     = Some [["locales"; "fr"; "common.json"]]
  /\ getMissingTranslationsForLocale
       Scenario.locales ["locales"; "fr"] ["locales"; "fr"] = Some []
  /\ (@nil (string * json) = [] <->
      forall refFilePath key,
        In refFilePath [["locales"; "fr"; "common.json"]] ->
        In key (Obj.keys (flatAt Scenario.locales refFilePath)) ->
        In key (Obj.keys
                  (flatAt Scenario.locales
                          (counterpart ["locales"; "fr"] ["locales"; "fr"]
                                       refFilePath)))).
Proof.
  split; [reflexivity|]. split; [reflexivity|]. split; [reflexivity|].
  apply (nothing_missing_iff_complete
           Scenario.locales ["locales"; "fr"] ["locales"; "fr"]
           [["locales"; "fr"; "common.json"]] []); reflexivity.
Defined.

(** X18.  For names as a file system has them (not empty, not [.] or
    [..], without [/]), the counterpart that the detector reads for the
    reference file at [rel] below the reference folder is the file at
    the same [rel] below the locale folder, and the path recorded in the
    keys is [rel] joined by [/]. *)
Theorem counterpart_has_same_relative_path referenceFolder localeFolder rel :
  rel <> [] -> Forall (fun name => proper_name name = true) rel ->
  Path.relative referenceFolder (referenceFolder ++ rel)
  = Str.join_with "/" rel
  /\ counterpart referenceFolder localeFolder (referenceFolder ++ rel)
     = localeFolder ++ rel.
Proof.
  intros Hne Hall. split.
  - apply DetectorFacts.relative_app.
  - now apply DetectorFacts.counterpart_proper.
Qed.

Lemma counterpart_has_same_relative_path_witness :
  ["sub"; "common.json"] <> []
  /\ Forall (fun name => proper_name name = true) ["sub"; "common.json"]
  /\ Path.relative ["locales"; "fr"]
                   (["locales"; "fr"] ++ ["sub"; "common.json"])
     = Str.join_with "/" ["sub"; "common.json"]
  /\ counterpart ["locales"; "fr"] ["locales"; "en"]
                 (["locales"; "fr"] ++ ["sub"; "common.json"])
     = ["locales"; "en"] ++ ["sub"; "common.json"].
Proof.
  assert (Hne : ["sub"; "common.json"] <> []) by discriminate.
  assert (Hall : Forall (fun name => proper_name name = true)
                        ["sub"; "common.json"])
    by (repeat constructor).
  split; [exact Hne|]. split; [exact Hall|].
  exact (counterpart_has_same_relative_path
           ["locales"; "fr"] ["locales"; "en"] ["sub"; "common.json"]
           Hne Hall).
Defined.

(** X6.  When the root folder can be listed and nothing exists at
    the path of the reference locale (a mistyped locale, say, without
    pattern syntax), nothing fails: every locale found is reported as
    having nothing to translate, no request is sent and no file is
    touched, with or without [dryRun]. *)
Theorem missing_reference_reports_nothing
        gpt folderPath dryRun w referenceLocale dirEntries :
  FS.listDir (disk w) folderPath = Some dirEntries ->
  Path.literal (Path.join [] [folderPath; referenceLocale]) = true ->
  FS.stat (disk w) (Path.join [] [folderPath; referenceLocale]) = FS.NoEntry ->
  exists jobs,
    getAllMissingTranslations (disk w) folderPath referenceLocale = Some jobs
    /\ Forall (fun job => snd job = []) jobs
    /\ translateMissingKeys gpt folderPath dryRun w referenceLocale
       = ({| disk := disk w;
             console :=
               console w
               ++ map (fun job => NothingToTranslate (fst job)) jobs;
             requests := requests w |},
          Fulfilled).
Proof.
  intros Hdir _ Href.
  destruct (DetectorMore.getAll_no_reference _ _ _ _ Hdir Href)
    as (jobs & Hjobs & Hempty).
  exists jobs. split; [assumption|]. split; [assumption|].
  unfold translateMissingKeys, start. rewrite Hjobs.
  rewrite (WriteFacts.launchAll_nothing dryRun jobs Hempty). simpl.
  assert (Hall : forall p,
             In p (map (fun _ : string * Record json => Settled Fulfilled)
                       jobs) -> settled p).
  { intros p Hin. apply in_map_iff in Hin. destruct Hin as (_ & <- & _).
    now exists Fulfilled. }
  rewrite OrchestratorFacts.finishAll_settled by exact Hall.
  f_equal.
  assert (Hp : promise_all
                 (map (fun _ : string * Record json => Settled Fulfilled) jobs)
               = Some Fulfilled).
  { apply OrchestratorFacts.promise_all_fulfilled.
    apply Forall_forall. intros p Hin.
    apply in_map_iff in Hin. now destruct Hin as (_ & <- & _). }
  now rewrite Hp.
Qed.

Lemma missing_reference_reports_nothing_witness :
  FS.listDir (disk Scenario.initial) "locales" = Some ["fr"; "en"]
  /\ Path.literal (Path.join [] ["locales"; "es"]) = true
  /\ FS.stat (disk Scenario.initial) (Path.join [] ["locales"; "es"])
     = FS.NoEntry
  /\ exists jobs,
      getAllMissingTranslations (disk Scenario.initial) "locales" "es"
      = Some jobs
      /\ Forall (fun job => snd job = []) jobs
      /\ translateMissingKeys Scenario.hello "locales" false
                              Scenario.initial "es"
         = ({| disk := disk Scenario.initial;
               console :=
                 console Scenario.initial
                 ++ map (fun job => NothingToTranslate (fst job)) jobs;
               requests := requests Scenario.initial |},
            Fulfilled).
Proof.
  split; [reflexivity|]. split; [reflexivity|]. split; [reflexivity|].
  apply (missing_reference_reports_nothing
           Scenario.hello "locales" false Scenario.initial "es"
           ["fr"; "en"]); reflexivity.
Defined.

(** X7.  When [getAllMissingTranslations] returns, its keys are
    exactly the entries of the root directory that [isLocale] accepts
    and that differ from the reference locale, which is never a key;
    the value under a locale is the detection for the folder of that
    locale against the folder of the reference locale. *)
Theorem all_missing_by_locale d folderPath referenceLocale result :
  getAllMissingTranslations d folderPath referenceLocale = Some result ->
  exists dirEntries,
    FS.readdir d (Path.join [] [folderPath]) = Some dirEntries
    /\ (forall locale,
           In locale (Obj.keys result) <->
           In locale dirEntries /\ isLocale locale = true
           /\ locale <> referenceLocale)
    /\ (forall locale missing,
           Obj.get result locale = Some missing ->
           getMissingTranslationsForLocale
             d (Path.join [] [folderPath; referenceLocale])
             (Path.join [] [folderPath; locale]) = Some missing)
    /\ ~ In referenceLocale (Obj.keys result).
Proof.
  intros H.
  destruct (DetectorMore.getAll_entries _ _ _ _ H)
    as (dirEntries & results & Hdir & -> & Hres & Hex).
  exists dirEntries. split; [now apply FSFacts.listDir_readdir|].
  assert (Hkeys : forall locale,
             In locale (Obj.keys (Obj.fromEntries results)) <->
             In locale dirEntries /\ isLocale locale = true
             /\ locale <> referenceLocale).
  { intros locale. rewrite DetectorFacts.keys_fromEntries, in_map_iff. split.
    - intros ([l m] & <- & Hin). apply Hres in Hin. tauto.
    - intros (Hl & Hloc & Hne). destruct (Hex locale Hl Hloc Hne) as (m & Hm).
      now exists (locale, m). }
  split; [exact Hkeys|]. split.
  - intros locale missing Hget.
    apply DetectorFacts.get_fromEntries in Hget. apply Hres in Hget. tauto.
  - intros Hin. apply Hkeys in Hin. tauto.
Qed.

Lemma all_missing_by_locale_witness :
  getAllMissingTranslations Scenario.mixed "locales" "fr"
  = Some [("en_US", [("common.json:::a.b", JStr "Bonjour")]);
          ("de", [("common.json:::a.b", JStr "Bonjour")])]
  /\ exists dirEntries,
      FS.readdir Scenario.mixed (Path.join [] ["locales"]) = Some dirEntries
      /\ (forall locale,
             In locale
                (Obj.keys
                   [("en_US", [("common.json:::a.b", JStr "Bonjour")]);
                    ("de", [("common.json:::a.b", JStr "Bonjour")])]) <->
             In locale dirEntries /\ isLocale locale = true
             /\ locale <> "fr")
      /\ (forall locale missing,
             Obj.get
               [("en_US", [("common.json:::a.b", JStr "Bonjour")]);
                ("de", [("common.json:::a.b", JStr "Bonjour")])] locale
             = Some missing ->
             getMissingTranslationsForLocale
               Scenario.mixed (Path.join [] ["locales"; "fr"])
               (Path.join [] ["locales"; locale]) = Some missing)
      /\ ~ In "fr"
            (Obj.keys
               [("en_US", [("common.json:::a.b", JStr "Bonjour")]);
                ("de", [("common.json:::a.b", JStr "Bonjour")])]).
Proof.
  split; [reflexivity|].
  apply (all_missing_by_locale Scenario.mixed "locales" "fr"). reflexivity.
Defined.



(** ** The translation capability *)

(** X9.  A line is cut at its first colon: when the text before it is
    not empty, the rest of the line, trimmed, is assigned under that
    text, trimmed, whatever colons the rest has.  Unless the trimmed
    text is [__proto__], the result then holds the value under it; an
    assignment under [__proto__] stores nothing. *)
Theorem parseLine_cuts_at_first_colon result key value :
  colon_free key = true -> key <> EmptyString ->
  parseLine result (key ++ ":" ++ value)%string
  = Obj.put result (Str.trim key) (Str.trim value)
  /\ (Str.trim key <> "__proto__" ->
      Obj.get (parseLine result (key ++ ":" ++ value)%string) (Str.trim key)
      = Some (Str.trim value))
  /\ (Str.trim key = "__proto__" -> Obj.has result "__proto__" = false ->
      parseLine result (key ++ ":" ++ value)%string = result).
Proof.
  intros Hfree Hne.
  assert (Hcut : parseLine result (key ++ ":" ++ value)%string
                 = Obj.put result (Str.trim key) (Str.trim value)).
  { unfold parseLine.
    change (key ++ ":" ++ value)%string with (key ++ String ":" value)%string.
    rewrite StrFacts.split_char_app by exact Hfree.
    assert (Hparts : is_nil (Str.split_char ":" value) = false).
    { destruct (Str.split_char ":" value) eqn:E; [|reflexivity].
      now apply StrMore.split_char_cons in E. }
    rewrite Hparts, StrMore.join_split.
    destruct key as [|a key']; [congruence | reflexivity]. }
  rewrite Hcut. split; [reflexivity|]. split.
  - intros Hproto. rewrite ObjFacts.put_define by exact Hproto.
    apply ObjFacts.get_set_same.
  - intros Hproto Hown. unfold Obj.put. rewrite Hproto, Hown. reflexivity.
Qed.

Lemma parseLine_cuts_at_first_colon_witness :
  let line := "site: https://example.org:8080" in
  colon_free "site" = true /\ "site" <> EmptyString
  /\ parseLine [] line
     = Obj.put [] (Str.trim "site") (Str.trim " https://example.org:8080")
  /\ (Str.trim "site" <> "__proto__" ->
      Obj.get (parseLine [] line) (Str.trim "site")
      = Some (Str.trim " https://example.org:8080"))
  /\ (Str.trim "site" = "__proto__" -> Obj.has (@nil (string * string)) "__proto__" = false ->
      parseLine [] line = []).
Proof.
  split; [reflexivity|]. split; [discriminate|].
  apply (parseLine_cuts_at_first_colon [] "site" " https://example.org:8080").
  - reflexivity.
  - discriminate.
Defined.

(** X10.  An answer without any colon gives no translation at all:
    every one of its lines is skipped. *)
Theorem answer_without_colon_is_empty response :
  colon_free response = true -> parseResponse response = [].
Proof.
  intros H. unfold parseResponse.
  apply ParseFacts.parseResponse_nothing.
  apply StrMore.split_char_forallb. exact H.
Qed.

Lemma answer_without_colon_is_empty_witness :
  colon_free "Je ne peux pas traduire cela." = true
  /\ parseResponse "Je ne peux pas traduire cela." = [].
Proof.
  split; [reflexivity|].
  apply (answer_without_colon_is_empty "Je ne peux pas traduire cela.").
  reflexivity.
Defined.

(** X11.  Whatever the capability answers, no key that the detector
    asked for is a key of what [translateWithGPT] returns: the keys
    asked for contain [:::], the keys returned contain no colon. *)
Theorem requested_keys_are_never_answered
        gpt d referenceFolder localeFolder missing locale translated :
  getMissingTranslationsForLocale d referenceFolder localeFolder
  = Some missing ->
  translateWithGPT gpt missing locale = Some translated ->
  forall fullKey,
    In fullKey (Obj.keys missing) -> Obj.get translated fullKey = None.
Proof.
  intros Hmissing Htr fullKey Hin.
  destruct (DetectorMore.getMissing_keys _ _ _ _ Hmissing)
    as (files & _ & Hkeys).
  apply Hkeys in Hin.
  destruct Hin as (text & file & key & _ & -> & _).
  unfold translateWithGPT in Htr.
  destruct (gpt locale (formatEntries missing)) as [response|];
    [|discriminate].
  injection Htr as <-.
  apply ParseFacts.get_colon_free.
  - apply OrchestratorFacts.parseResponse_keys.
  - apply DetectorMore.colon_free_composite.
Qed.

Lemma requested_keys_are_never_answered_witness :
  getMissingTranslationsForLocale
    Scenario.locales ["locales"; "fr"] ["locales"; "en"]
  = Some [("common.json:::a.b", JStr "Bonjour")]
  /\ translateWithGPT Scenario.hello
       [("common.json:::a.b", JStr "Bonjour")] "en"
     = Some [("common.json", "::a.b: Hello")]
  /\ forall fullKey,
      In fullKey (Obj.keys [("common.json:::a.b", JStr "Bonjour")]) ->
      Obj.get [("common.json", "::a.b: Hello")] fullKey = None.
Proof.
  split; [reflexivity|]. split; [reflexivity|].
  apply (requested_keys_are_never_answered
           Scenario.hello Scenario.locales
           ["locales"; "fr"] ["locales"; "en"]
           [("common.json:::a.b", JStr "Bonjour")] "en"
           [("common.json", "::a.b: Hello")]); reflexivity.
Defined.

(** ** The write callback *)

(** X13.  A write callback removes nothing and changes no file other
    than the one it addresses; when it is rejected no file at all has
    changed (directories may have been created). *)
Theorem write_callback_keeps d folderPath locale fullKey value :
  let d' := fst (writeTranslation d folderPath locale fullKey value) in
  (forall q, FS.pathExists d q = true -> FS.pathExists d' q = true)
  /\ (forall q doc,
         q <> targetOf folderPath locale fullKey ->
         FS.readJson d q = Some doc -> FS.readJson d' q = Some doc)
  /\ (snd (writeTranslation d folderPath locale fullKey value) = Rejected ->
      forall q doc, FS.readJson d q = Some doc -> FS.readJson d' q = Some doc).
Proof.
  split; [|split].
  - intros q. apply WriteFacts.writeTranslation_exists.
  - intros q doc Hq. apply FSFacts.keeps_readJson.
    now apply WriteFacts.writeTranslation_keeps.
  - intros Hrej q doc.
    destruct (WriteFacts.writeTranslation_cases d folderPath locale
                                                fullKey value)
      as [[_ H] | (Hok & _)]; [|congruence].
    apply FSFacts.keeps_readJson, H.
Qed.

(** ** The runs *)

(** X14.  Launching the pipelines without [dryRun] sends one request
    for each locale that has missing keys, in order, carrying its
    formatted entries, and none for a locale that has none; it starts
    one pipeline per locale and writes nothing. *)
Theorem launch_sends_one_request_per_locale w jobs :
  requests (fst (launchAll false w jobs))
  = requests w
    ++ map (fun job => (fst job, formatEntries (snd job)))
           (filter (fun job => negb (is_nil (snd job))) jobs)
  /\ List.length (snd (launchAll false w jobs)) = List.length jobs
  /\ disk (fst (launchAll false w jobs)) = disk w.
Proof.
  destruct (WriteFacts.launchAll_requests jobs w) as [Hr Hl].
  destruct (WriteFacts.launchAll_idle false jobs w) as [Hd _].
  now repeat split.
Qed.

(** X15.  Along a run, under any schedule, no further request is sent
    (a failed call is not retried), the console only grows, and no file
    or directory is removed. *)
Theorem run_only_grows gpt folderPath r r' :
  steps gpt folderPath r r' -> grows (now r) (now r').
Proof. apply WriteFacts.steps_grows. Qed.

Lemma run_only_grows_witness :
  steps Scenario.failsForDe "locales" Scenario.launched Scenario.afterFailure
  /\ grows (now Scenario.launched) (now Scenario.afterFailure).
Proof.
  assert (H : steps Scenario.failsForDe "locales"
                    Scenario.launched Scenario.afterFailure).
  { eapply steps_step; [|apply steps_refl].
    apply (@step_pipeline Scenario.failsForDe "locales"
             Scenario.launchedWorld []
             (AwaitingTranslation "de" 1 Scenario.missingKeys)
             [AwaitingTranslation "en" 1 Scenario.missingKeys]
             Scenario.launchedWorld (Settled Rejected)).
    now apply answer_fails. }
  split; [exact H|].
  exact (run_only_grows Scenario.failsForDe "locales"
                        Scenario.launched Scenario.afterFailure H).
Defined.

(** X16.  When the capability fails for every call, no run of the
    command, under any schedule, writes a file or prints anything after
    the launch: the world stays the one of the launch, whose disk is
    the initial one. *)
Theorem failing_capability_writes_nothing
        gpt folderPath dryRun w referenceLocale r r' :
  (forall locale formatted, gpt locale formatted = None) ->
  start folderPath dryRun w referenceLocale = Some r ->
  steps gpt folderPath r r' ->
  now r' = now r /\ disk (now r') = disk w.
Proof.
  intros Hfail Hstart Hsteps.
  unfold start in Hstart.
  destruct (getAllMissingTranslations (disk w) folderPath referenceLocale)
    as [jobs|]; [|discriminate].
  destruct (WriteFacts.launchAll_idle dryRun jobs w) as [Hd Hi].
  destruct (launchAll dryRun w jobs) as [w1 ps]. simpl in Hd, Hi.
  injection Hstart as <-.
  destruct (WriteFacts.steps_idle gpt folderPath _ r' Hfail Hsteps Hi)
    as [Hnow _].
  split; [assumption|]. rewrite Hnow. exact Hd.
Qed.

Lemma failing_capability_writes_nothing_witness :
  let gpt : Capability := fun _ _ => None in
  (forall locale formatted : string, gpt locale formatted = None)
  /\ start "locales" false Scenario.initialLocales "fr"
     = Some Scenario.launched
  /\ steps gpt "locales" Scenario.launched Scenario.afterFailure
  /\ now Scenario.afterFailure = now Scenario.launched
  /\ disk (now Scenario.afterFailure) = disk Scenario.initialLocales.
Proof.
  intros gpt.
  assert (Hfail : forall locale formatted : string,
             gpt locale formatted = None) by reflexivity.
  assert (Hsteps : steps gpt "locales" Scenario.launched Scenario.afterFailure).
  { eapply steps_step; [|apply steps_refl].
    apply (@step_pipeline gpt "locales"
             Scenario.launchedWorld []
             (AwaitingTranslation "de" 1 Scenario.missingKeys)
             [AwaitingTranslation "en" 1 Scenario.missingKeys]
             Scenario.launchedWorld (Settled Rejected)).
    now apply answer_fails. }
  split; [exact Hfail|]. split; [reflexivity|]. split; [exact Hsteps|].
  exact (failing_capability_writes_nothing
           gpt "locales" false Scenario.initialLocales "fr"
           Scenario.launched Scenario.afterFailure
           Hfail eq_refl Hsteps).
Defined.

(** ** The flattener *)

(** X1.  In the flat map of a well-formed document, the value under a
    key is the leaf that the key, read as a dotted path, leads to; the
    keys of the flat map are exactly the dotted paths of the leaves. *)
Theorem flattenObject_maps_paths_to_leaves doc key val :
  wf_doc doc = true ->
  (Obj.get (flattenObject doc "") key = Some val <->
   exists p, key = dotted p /\ In (p, val) (paths (JObj doc))).
Proof.
  intros Hwf. rewrite (FlattenLeaves.flattenObject_leaves doc Hwf). split.
  - intros Hget. apply ObjFacts.get_In in Hget.
    apply in_map_iff in Hget. destruct Hget as ([p v] & E & Hin).
    unfold keyed in E. simpl in E. injection E as <- <-. now exists p.
  - intros (p & -> & Hin).
    apply FlattenMore.In_get_NoDup.
    + rewrite <- (FlattenLeaves.flattenObject_leaves doc Hwf).
      apply FlattenLeaves.flattenObject_NoDup.
    + apply in_map_iff. now exists (p, val).
Qed.

Lemma flattenObject_maps_paths_to_leaves_witness :
  wf_doc Scenario.frCommon = true
  /\ (Obj.get (flattenObject Scenario.frCommon "") "a.b"
      = Some (JStr "Bonjour") <->
      exists p, "a.b" = dotted p
                /\ In (p, JStr "Bonjour") (paths (JObj Scenario.frCommon))).
Proof.
  split; [reflexivity|].
  apply (flattenObject_maps_paths_to_leaves
           Scenario.frCommon "a.b" (JStr "Bonjour")).
  reflexivity.
Defined.

(** X2.  For every document, well formed or not, a key of
    [flattenObject(obj, prefix)] starts with [prefix], and more
    precisely with the path of one of the entries of [obj]: nothing is
    filed outside the document's own keys. *)
Theorem flattenObject_keys_extend_entries obj prefix key :
  In key (Obj.keys (flattenObject obj prefix)) ->
  String.prefix prefix key = true
  /\ exists k, In k (map fst obj)
               /\ String.prefix (newKey prefix k) key = true.
Proof.
  intros Hin. unfold flattenObject in Hin.
  apply FlattenMore.fold_keys in Hin.
  - destruct Hin as [[] | (k & Hk & Hp)]. split; [|now exists k].
    eapply FlattenMore.prefix_trans; [apply FlattenMore.prefix_newKey|].
    exact Hp.
  - apply Forall_forall. intros kv _. apply FlattenMore.visit_keys.
Qed.

Lemma flattenObject_keys_extend_entries_witness :
  In "b.c.0" (Obj.keys (flattenObject [("c", JArr [JNull])] "b"))
  /\ String.prefix "b" "b.c.0" = true
  /\ exists k, In k (map fst [("c", JArr [JNull])])
               /\ String.prefix (newKey "b" k) "b.c.0" = true.
Proof.
  split; [left; reflexivity|].
  apply (flattenObject_keys_extend_entries [("c", JArr [JNull])] "b" "b.c.0").
  left. reflexivity.
Defined.

(** X3.  A flat map with a single dotted key, made of plain keys of
    which only the first may be an array index, none but the last the
    name of a property inherited from [Object.prototype] and the last
    not [__proto__], unflattens to the chain of nested objects that the
    key spells, the value at its end. *)
Theorem unflattenObject_single_path p val :
  p <> [] -> plain_path p ->
  Forall (fun k => Lodash.isIndex k = false) (tl p) ->
  own_path p = true ->
  JObj (unflattenObject [(dotted p, val)]) = nested p val.
Proof.
  intros Hne Hplain Htl Hown. unfold unflattenObject.
  change [(dotted p, val)] with (map (keyed []) [(p, val)]).
  rewrite Rebuild.unflatten_build.
  - unfold build. simpl. now apply FlattenMore.baseSet_nested.
  - constructor.
  - intros pv [<- | []]. now split.
Qed.

Lemma unflattenObject_single_path_witness :
  ["a"; "b"; "valueOf"] <> [] /\ plain_path ["a"; "b"; "valueOf"]
  /\ Forall (fun k => Lodash.isIndex k = false) (tl ["a"; "b"; "valueOf"])
  /\ own_path ["a"; "b"; "valueOf"] = true
  /\ JObj (unflattenObject [(dotted ["a"; "b"; "valueOf"], JStr "Hello")])
     = nested ["a"; "b"; "valueOf"] (JStr "Hello").
Proof.
  assert (Hne : ["a"; "b"; "valueOf"] <> []) by discriminate.
  assert (Hp : plain_path ["a"; "b"; "valueOf"])
    by (repeat constructor).
  assert (Ht : Forall (fun k => Lodash.isIndex k = false)
                      (tl ["a"; "b"; "valueOf"]))
    by (repeat constructor).
  assert (Ho : own_path ["a"; "b"; "valueOf"] = true) by reflexivity.
  split; [exact Hne|]. split; [exact Hp|]. split; [exact Ht|].
  split; [exact Ho|].
  exact (unflattenObject_single_path ["a"; "b"; "valueOf"] (JStr "Hello")
                                     Hne Hp Ht Ho).
Defined.

(** ** Locale names *)

(** X4.  A name that [isLocale] accepts has 2 to 13 characters and is
    a proper directory name (not [.] or [..], no [/]): joined to the
    root folder it is one more segment, a direct child of the root. *)
Theorem isLocale_names_a_child name :
  isLocale name = true ->
  2 <= String.length name <= 13
  /\ proper_name name = true
  /\ forall folderPath,
      Path.join [] [folderPath; name] = Path.join [] [folderPath] ++ [name].
Proof.
  intros H. split; [|split].
  - rewrite LocaleFacts.length_list.
    apply RegexFacts.isLocale_spec, LocaleFacts.LocaleName_shape in H. tauto.
  - now apply LocaleFacts.isLocale_proper.
  - intros folderPath. apply LocaleFacts.join_name.
    now apply LocaleFacts.isLocale_proper.
Qed.

Lemma isLocale_names_a_child_witness :
  isLocale "zh_Hans_CN" = true
  /\ 2 <= String.length "zh_Hans_CN" <= 13
  /\ proper_name "zh_Hans_CN" = true
  /\ forall folderPath,
      Path.join [] [folderPath; "zh_Hans_CN"]
      = Path.join [] [folderPath] ++ ["zh_Hans_CN"].
Proof.
  split; [reflexivity|].
  apply (isLocale_names_a_child "zh_Hans_CN"). reflexivity.
Defined.

(** ** Arrays *)

(** X17.  An array of scalars does come back: for a well-formed
    document followed by an entry whose key is plain, new and not the
    name of a property inherited from [Object.prototype], and whose
    value is a non-empty array of scalars (of fewer than [2^32]
    elements), [unflattenObject] after [flattenObject] gives the
    document back, the array rebuilt from its index keys. *)
Theorem array_of_scalars_comes_back doc key items :
  wf_doc doc = true ->
  plain_key key = true -> Lodash.inherited key = false ->
  ~ In key (map fst doc) ->
  items <> [] -> Forall (fun v => is_scalar v = true) items ->
  (N.of_nat (List.length items) <= 4294967295)%N ->
  unflattenObject (flattenObject (doc ++ [(key, JArr items)]) "")
  = doc ++ [(key, JArr items)].
Proof.
  intros Hwf Hkey Hown Hnew Hne Hscalars Hbound.
  destruct (ArrayFacts.flatten_array key items Hkey Hscalars) as [Hflat Hnd].
  pose proof (Leaves.well_formed_object false doc Hwf) as (_ & _ & Hall).
  assert (Hflatten :
            flattenObject (doc ++ [(key, JArr items)]) ""
            = flattenObject doc ""
              ++ map (fun kv => (dotted [key; fst kv], snd kv))
                     (indexed 0 items)).
  { rewrite FlattenFacts.flattenObject_app. simpl fold_left.
    unfold reducer. simpl fst. simpl snd.
    change (newKey "" key) with key.
    rewrite FlattenFacts.visit_array, Hflat.
    apply ObjFacts.spread_fresh.
    - unfold Obj.keys. now rewrite map_map.
    - intros k Hk Hin. unfold Obj.keys in Hk. rewrite map_map in Hk.
      apply in_map_iff in Hk. destruct Hk as ([idx v] & <- & Hidx).
      simpl in Hin.
      rewrite (FlattenLeaves.flattenObject_leaves doc Hwf) in Hin.
      unfold Obj.keys in Hin. rewrite map_map in Hin.
      apply in_map_iff in Hin. destruct Hin as ([p w] & E & Hp).
      unfold keyed in E. simpl in E.
      assert (Hidx' : In idx (map fst (indexed 0 items)))
        by (apply in_map_iff; now exists (idx, v)).
      rewrite ArrayFacts.indexed_keys in Hidx'.
      apply in_map_iff in Hidx'. destruct Hidx' as (i & <- & _).
      destruct (Leaves.paths_object_head _ _ Hp) as (k' & r & Ep & Hk').
      simpl in Ep.
      apply StrFacts.dotted_inj in E.
      + rewrite Ep in E. injection E as -> _. contradiction.
      + apply (Leaves.paths_object_plain doc (p, w)); [|exact Hp].
        eapply Forall_impl; [|exact Hall]. now intros kv (Hk1 & _ & _ & Hv1).
      + repeat constructor; [exact Hkey | apply ArrayFacts.of_nat_plain].
      + rewrite Ep. discriminate.
      + discriminate. }
  unfold unflattenObject. rewrite Hflatten, fold_left_app.
  rewrite (ArrayFacts.unflatten_leaves doc Hwf).
  apply ArrayFacts.writes_all; try assumption.
  - apply ObjFacts.get_None_keys. exact Hnew.
  - unfold Obj.keys. apply Forall_forall. intros k Hk.
    apply in_map_iff in Hk. destruct Hk as (kv & <- & Hkv).
    rewrite Forall_forall in Hall. destruct (Hall kv Hkv) as (Hplain & _).
    now apply StrFacts.plain_key_dotless.
Qed.

Lemma array_of_scalars_comes_back_witness :
  let doc := [("title", JStr "Menu")] in
  let items := [JStr "x"; JNull; JNum 3] in
  wf_doc doc = true
  /\ plain_key "tags" = true /\ Lodash.inherited "tags" = false
  /\ ~ In "tags" (map fst doc)
  /\ items <> [] /\ Forall (fun v => is_scalar v = true) items
  /\ (N.of_nat (List.length items) <= 4294967295)%N
  /\ unflattenObject (flattenObject (doc ++ [("tags", JArr items)]) "")
     = doc ++ [("tags", JArr items)].
Proof.
  intros doc items.
  assert (H1 : wf_doc doc = true) by reflexivity.
  assert (H2 : plain_key "tags" = true) by reflexivity.
  assert (H2' : Lodash.inherited "tags" = false) by reflexivity.
  assert (H3 : ~ In "tags" (map fst doc))
    by (intros [H | []]; discriminate H).
  assert (H4 : items <> []) by discriminate.
  assert (H5 : Forall (fun v => is_scalar v = true) items)
    by (repeat constructor).
  assert (H6 : (N.of_nat (List.length items) <= 4294967295)%N)
    by (simpl; lia).
  repeat (split; [assumption|]).
  exact (array_of_scalars_comes_back doc "tags" items H1 H2 H2' H3 H4 H5 H6).
Defined.
